(** * swagger-routes: the specification normaliser of [src/swaggerSpec.js]

    A shallow embedding of the reference resolver ([resolveRefs],
    [resolveRef]), of the schema builders and of the operation assembler
    ([createPathOperation]), over an explicit store of JavaScript objects,
    followed by the properties the specification states about them.

    Modelling conventions.
    - A JavaScript value is a [val]; objects and arrays live in a store
      ([heap]) and are denoted by their address ([VRef]), so that aliasing
      and in-place mutation are visible.  Numbers are integers.
    - A plain object is an association list in enumeration order (integer
      keys first, ascending, then the other keys in insertion order).  An
      array is the list of its elements: it has no holes and no properties
      besides its indices and [length].
    - Only own properties are modelled: members inherited from the
      prototypes ([toString], [constructor], ...) are not.
    - The process-wide [dataCache] is the [st_cache] component of the
      state.  [refCache] is only ever written ([refCache.set]), never read,
      and is left out.
    - A function that can throw returns an outcome.  The two messages of
      [assert.ok] are the errors [InvalidReferenceFormat] and
      [InvalidReference]; [OutOfModel] marks what the model does not cover
      (an address that is not in the store, [String] applied to an array, a
      named property put on an array).  An exception discards the state.
    - Recursion that JavaScript does not bound is bounded by a fuel
      argument; running out of it is the outcome [OutOfFuel].
    - The objects the schema builders create are never shared or mutated;
      they are records and association lists rather than store objects. *)

From Stdlib Require Import ZArith NArith Ascii String DecimalString.
From stdpp Require Import base list gmap strings.

Local Open Scope string_scope.
Local Open Scope list_scope.
Local Open Scope nat_scope.

(** ** Values and the store *)

Abbreviation addr := nat (only parsing).

Inductive val :=
  | VUndef
  | VNull
  | VBool (b : bool)
  | VNum (n : Z)
  | VStr (s : string)
  | VRef (l : addr).

#[global] Instance val_eq_dec : EqDecision val.
Proof. solve_decision. Defined.

(** An object with fields of type [A], in enumeration order. *)
Definition obj (A : Type) := list (string * A).

Inductive hobj :=
  | Obj (o : obj val)
  | Arr (vs : list val).

Abbreviation heap := (list hobj) (only parsing).

Record state := State { st_heap : heap; st_cache : gset addr }.

(** JavaScript truthiness: [!v] is [negb (truthy v)]. *)
Definition truthy (v : val) : bool :=
  match v with
  | VUndef | VNull => false
  | VBool b => b
  | VNum n => negb (Z.eqb n 0)
  | VStr s => match s with EmptyString => false | _ => true end
  | VRef _ => true
  end.

Definition nullish (v : val) : bool :=
  match v with VUndef | VNull => true | _ => false end.

(** ** Property keys *)

Definition digit_of (c : ascii) : option N :=
  let n := N_of_ascii c in
  if (48 <=? n)%N && (n <=? 57)%N then Some (n - 48)%N else None.

Fixpoint digits_val (acc : N) (s : string) : option N :=
  match s with
  | EmptyString => Some acc
  | String c s' =>
      match digit_of c with
      | Some d => digits_val (acc * 10 + d)%N s'
      | None => None
      end
  end.

(** A key is an array index when it is the canonical decimal form of an
    integer below 2^32 - 1. *)
Definition array_index (k : string) : option N :=
  match k with
  | EmptyString => None
  | String c rest =>
      if Ascii.eqb c "0"%char then
        match rest with EmptyString => Some 0%N | _ => None end
      else
        match digits_val 0 k with
        | Some n => if (n <? 4294967295)%N then Some n else None
        | None => None
        end
  end.

Definition index_key (i : nat) : string :=
  NilEmpty.string_of_uint (Nat.to_uint i).

(** ** Plain objects *)

Section objects.
Context {A : Type}.

Fixpoint obj_get (k : string) (o : obj A) : option A :=
  match o with
  | [] => None
  | (k', v) :: o' => if decide (k = k') then Some v else obj_get k o'
  end.

Definition obj_keys (o : obj A) : list string := o.*1.

Fixpoint obj_update (k : string) (v : A) (o : obj A) : obj A :=
  match o with
  | [] => []
  | (k', v') :: o' =>
      if decide (k = k') then (k, v) :: o' else (k', v') :: obj_update k v o'
  end.

(** Where a new integer key [k] (of value [n]) goes: after the smaller
    integer keys, before everything else. *)
Fixpoint obj_insert_index (n : N) (k : string) (v : A) (o : obj A) : obj A :=
  match o with
  | [] => [(k, v)]
  | (k', v') :: o' =>
      match array_index k' with
      | Some n' =>
          if (n' <? n)%N then (k', v') :: obj_insert_index n k v o'
          else (k, v) :: (k', v') :: o'
      | None => (k, v) :: (k', v') :: o'
      end
  end.

(** [o[k] = v] *)
Definition obj_set (k : string) (v : A) (o : obj A) : obj A :=
  match obj_get k o with
  | Some _ => obj_update k v o
  | None =>
      match array_index k with
      | Some n => obj_insert_index n k v o
      | None => o ++ [(k, v)]
      end
  end.

(** [delete o[k]] *)
Definition obj_delete (k : string) (o : obj A) : obj A :=
  filter (λ kv, kv.1 ≠ k) (o : list (string * A)).

End objects.

(** ** Reading properties *)

Definition char_props (s : string) : list (string * val) :=
  imap (λ i c, (index_key i, VStr (String c EmptyString))) (list_ascii_of_string s).

(** The own enumerable properties of a value, in enumeration order: what
    [Object.keys], [for ... in] and [Object.assign] see. *)
Definition own_props (h : heap) (v : val) : list (string * val) :=
  match v with
  | VRef l =>
      match h !! l with
      | Some (Obj o) => o
      | Some (Arr vs) => imap (λ i x, (index_key i, x)) vs
      | None => []
      end
  | VStr s => char_props s
  | _ => []
  end.

(** [v[k]] for a value [v] that is neither [null] nor [undefined]. *)
Definition get_prop (h : heap) (v : val) (k : string) : val :=
  match v with
  | VRef l =>
      match h !! l with
      | Some (Obj o) => default VUndef (obj_get k o)
      | Some (Arr vs) =>
          if decide (k = "length") then VNum (Z.of_nat (length vs))
          else match array_index k with
               | Some i => default VUndef (vs !! N.to_nat i)
               | None => VUndef
               end
      | None => VUndef
      end
  | VStr s =>
      if decide (k = "length") then VNum (Z.of_nat (String.length s))
      else match array_index k with
           | Some i =>
               match String.get (N.to_nat i) s with
               | Some c => VStr (String c EmptyString)
               | None => VUndef
               end
           | None => VUndef
           end
  | _ => VUndef
  end.

Definition own_keys (h : heap) (v : val) : list string := (own_props h v).*1.

(** [Object.assign(target, source)]: every own key of [source], in
    enumeration order, is read from [source] and written to [target].
    [f] injects the values read into the type of the target's fields. *)
Definition obj_assign {A} (f : val → A) (h : heap) (target : obj A) (source : val)
    : obj A :=
  foldl (λ acc k, obj_set k (f (get_prop h source k)) acc) target (own_keys h source).

(** ** Outcomes and the state monad *)

Inductive error :=
  | InvalidReferenceFormat   (* assert: first segment is not '#' *)
  | InvalidReference         (* assert: a looked-up value is falsy *)
  | TypeError                (* thrown by the JavaScript runtime *)
  | OutOfModel.              (* a store or a value the model does not cover *)

Inductive outcome (A : Type) :=
  | Ok (a : A) (s : state)
  | Throw (e : error)
  | OutOfFuel.
Arguments Ok {A} a s.
Arguments Throw {A} e.
Arguments OutOfFuel {A}.

Definition M (A : Type) := state → outcome A.

Definition ret {A} (a : A) : M A := λ s, Ok a s.
Definition throw {A} (e : error) : M A := λ _, Throw e.

Definition bind {A B} (m : M A) (k : A → M B) : M B :=
  λ s, match m s with
       | Ok a s' => k a s'
       | Throw e => Throw e
       | OutOfFuel => OutOfFuel
       end.

Notation "'let!' x ':=' m 'in' k" := (bind m (λ x, k))
  (at level 10, x pattern, m at level 100, k at level 200).

Fixpoint mapM {A B} (f : A → M B) (xs : list A) : M (list B) :=
  match xs with
  | [] => ret []
  | x :: xs' =>
      let! y := f x in
      let! ys := mapM f xs' in
      ret (y :: ys)
  end.

(** Store primitives. *)
Definition alloc (x : hobj) : M addr :=
  λ s, Ok (length (st_heap s)) (State (st_heap s ++ [x]) (st_cache s)).

Definition store (l : addr) (x : hobj) : M unit :=
  λ s, Ok tt (State (<[l := x]> (st_heap s)) (st_cache s)).

Definition load_obj (l : addr) : M (obj val) :=
  λ s, match st_heap s !! l with
       | Some (Obj o) => Ok o s
       | _ => Throw OutOfModel
       end.

Definition cache_add (l : addr) : M unit :=
  λ s, Ok tt (State (st_heap s) ({[l]} ∪ st_cache s)).

(** ** [resolveRef] *)

(** [s.split(sep)] for a one-character separator. *)
Fixpoint split_on (sep : ascii) (s : string) : list string :=
  match s with
  | EmptyString => [EmptyString]
  | String c s' =>
      if Ascii.eqb c sep then EmptyString :: split_on sep s'
      else match split_on sep s' with
           | seg :: rest => String c seg :: rest
           | [] => [String c EmptyString]
           end
  end.

(** The [while (parts.length)] loop: one lookup per segment, each result
    asserted truthy. *)
Fixpoint walk (h : heap) (value : val) (parts : list string) : error + val :=
  match parts with
  | [] => inr value
  | p :: parts' =>
      if nullish value then inl TypeError
      else
        let value' := get_prop h value p in
        if truthy value' then walk h value' parts' else inl InvalidReference
  end.

Definition resolveRef (ref : string) (spec : val) (h : heap) : error + val :=
  match split_on "/"%char ref with
  | first :: parts =>
      if decide (first = "#") then walk h spec parts
      else inl InvalidReferenceFormat
  | [] => inl InvalidReferenceFormat
  end.

(** ** [resolveRefs] *)

(** The [for (let name in data)] loop over the keys [ks] of the object at
    [l], with [f] the recursive call: [data[name] = f(data[name])]. *)
Fixpoint resolve_fields (f : val → M val) (l : addr) (ks : list string) : M unit :=
  match ks with
  | [] => ret tt
  | k :: ks' =>
      let! o := load_obj l in
      let! v := f (default VUndef (obj_get k o)) in
      let! o' := load_obj l in
      let! _ := store l (Obj (obj_set k v o')) in
      resolve_fields f l ks'
  end.

(** [fuel] bounds the depth of the recursion. *)
Fixpoint resolveRefs (fuel : nat) (spec : val) (data : val) : M val :=
  match fuel with
  | O => λ _, OutOfFuel
  | S fuel' =>
      λ s,
      match data with
      | VRef l =>
          (* if (!data || dataCache.has(data)) return data *)
          if decide (l ∈ st_cache s) then Ok data s
          else
            match st_heap s !! l with
            | None => Throw OutOfModel
            | Some (Arr vs) =>
                (* return data.map(item => resolveRefs(item, spec)) *)
                (let! vs' := mapM (resolveRefs fuel' spec) vs in
                 let! l' := alloc (Arr vs') in
                 ret (VRef l')) s
            | Some (Obj o) =>
                let ref := default VUndef (obj_get "$ref" o) in
                (* if (data.$ref) *)
                if truthy ref then
                  match ref with
                  | VStr r =>
                      (* const resolved = resolveRef(data.$ref, spec) *)
                      match resolveRef r spec (st_heap s) with
                      | inl e => Throw e
                      | inr resolved =>
                          (* delete data.$ref *)
                          (let! _ := store l (Obj (obj_delete "$ref" o)) in
                           (* data = Object.assign({}, resolved, data) *)
                           let! m := (λ s1, alloc (Obj (obj_assign id (st_heap s1)
                                        (obj_assign id (st_heap s1) [] resolved)
                                        data)) s1) in
                           (* dataCache.add(data) *)
                           let! _ := cache_add m in
                           (* for (let name in data) ... *)
                           let! merged := load_obj m in
                           let! _ := resolve_fields (resolveRefs fuel' spec) m
                                       (obj_keys merged) in
                           ret (VRef m)) s
                      end
                  | _ => Throw TypeError   (* ref.split is not a function *)
                  end
                else
                  (* dataCache.add(data); for (let name in data) ... *)
                  (let! _ := cache_add l in
                   let! _ := resolve_fields (resolveRefs fuel' spec) l (obj_keys o) in
                   ret data) s
            end
      | _ =>
          (* falsy, or neither an array nor an object: return data *)
          Ok data s
      end
  end.

(** ** Pure computations that can throw *)

Definition bindE {A B} (m : error + A) (k : A → error + B) : error + B :=
  match m with
  | inl e => inl e
  | inr a => k a
  end.

Notation "'try!' x ':=' m 'in' k" := (bindE m (λ x, k))
  (at level 10, x pattern, m at level 100, k at level 200).

Fixpoint mapE {A B} (f : A → error + B) (xs : list A) : error + list B :=
  match xs with
  | [] => inr []
  | x :: xs' =>
      try! y := f x in
      try! ys := mapE f xs' in
      inr (y :: ys)
  end.

Fixpoint filterE {A} (f : A → error + bool) (xs : list A) : error + list A :=
  match xs with
  | [] => inr []
  | x :: xs' =>
      try! b := f x in
      try! ys := filterE f xs' in
      inr (if b : bool then x :: ys else ys)
  end.

(** [base.k] as an expression: a [TypeError] on [null] and [undefined]. *)
Definition get_member (h : heap) (base : val) (k : string) : error + val :=
  if nullish base then inl TypeError else inr (get_prop h base k).

Definition string_of_Z (n : Z) : string := NilEmpty.string_of_int (Z.to_int n).

(** [String(v)], as a template literal or a computed property key applies
    it.  Arrays are not covered. *)
Definition to_string (h : heap) (v : val) : error + string :=
  match v with
  | VUndef => inr "undefined"
  | VNull => inr "null"
  | VBool true => inr "true"
  | VBool false => inr "false"
  | VNum n => inr (string_of_Z n)
  | VStr s => inr s
  | VRef l =>
      match h !! l with
      | Some (Obj _) => inr "[object Object]"
      | _ => inl OutOfModel
      end
  end.

(** ** [applyDefaults] *)

Definition applyDefaults (spec : val) : M val :=
  λ s,
  if nullish spec then Throw TypeError
  else if truthy (get_prop (st_heap s) spec "basePath") then Ok spec s
  else
    match spec with
    | VRef l =>
        match st_heap s !! l with
        | Some (Obj o) =>
            Ok spec (State (<[l := Obj (obj_set "basePath" (VStr "/") o)]> (st_heap s))
                           (st_cache s))
        | _ => Throw OutOfModel
        end
    | _ => Throw TypeError   (* strict mode: property assignment on a primitive *)
    end.

(** ** [getOperationProperty] *)

Definition getOperationProperty (h : heap) (prop : string) (pathInfo spec : val)
    : error + val :=
  if truthy pathInfo && truthy (get_prop h pathInfo prop)
  then inr (get_prop h pathInfo prop)
  else get_member h spec prop.

(** ** Parameter schemas *)

Definition PARAM_GROUPS : list string :=
  ["header"; "path"; "query"; "body"; "formData"].

Record params_schema := ParamsSchema {
  ps_type : string;
  ps_properties : obj (obj val);
  ps_required : list val
}.

(** The [reduce] that fills [properties]: one shallow copy per parameter,
    under the parameter's name. *)
Fixpoint params_properties (h : heap) (params : list val) (props : obj (obj val))
    : error + obj (obj val) :=
  match params with
  | [] => inr props
  | param :: params' =>
      try! name := get_member h param "name" in
      try! k := to_string h name in
      params_properties h params'
        (obj_set k (obj_assign id h [] param) props)
  end.

Definition createParamsSchema (h : heap) (params : list val) : error + params_schema :=
  try! props := params_properties h params [] in
  try! req := filterE (λ param,
                try! r := get_member h param "required" in inr (truthy r)) params in
  try! names := mapE (λ param, get_member h param "name") req in
  inr (ParamsSchema "object" props names).

(** The elements of [parameters], on which [filter] is called. *)
Definition array_elems (h : heap) (v : val) : error + list val :=
  match v with
  | VRef l =>
      match h !! l with
      | Some (Arr vs) => inr vs
      | Some (Obj _) => inl TypeError
      | None => inl OutOfModel
      end
  | _ => inl TypeError
  end.

Definition createParamGroupSchemas (h : heap) (parameters : val)
    : error + obj params_schema :=
  try! groups := mapE (λ loc,
      try! elems := array_elems h parameters in
      try! params := filterE (λ param,
          try! i := get_member h param "in" in
          inr (bool_decide (i = VStr loc))) elems in
      try! schema := createParamsSchema h params in
      inr (loc, schema)) PARAM_GROUPS in
  inr (foldl (λ map param, obj_set param.1 param.2 map) []
         (filter (λ param, length (obj_keys (ps_properties param.2)) ≠ 0) groups)).

(** ** Response schemas *)

Record headers_schema := HeadersSchema {
  hs_type : string;
  hs_properties : val;
  hs_required : list string
}.

Record response_schema := ResponseSchema {
  rs_id : string;
  rs_bodySchema : val;
  rs_headersSchema : option headers_schema   (* [None] is [undefined] *)
}.

Definition createResponseHeadersSchema (h : heap) (headers : val)
    : error + option headers_schema :=
  if negb (truthy headers) then inr None
  else
    try! req := filterE (λ name,
                  try! r := get_member h (get_prop h headers name) "required" in
                  inr (truthy r))
                  (own_keys h headers) in
    inr (Some (HeadersSchema "object" headers req)).

Definition createResponseSchemas (h : heap) (responses : val)
    : error + obj response_schema :=
  if nullish responses then inl TypeError
  else
    try! rs := mapE (λ id,
        try! body := get_member h (get_prop h responses id) "schema" in
        try! headers := get_member h (get_prop h responses id) "headers" in
        try! hschema := createResponseHeadersSchema h headers in
        inr (ResponseSchema id body hschema)) (own_keys h responses) in
    inr (foldl (λ result response, obj_set (rs_id response) response result) [] rs).

(** ** [path.normalize] (POSIX flavour of the Node.js library) *)

(** [res] is the array of kept segments, last one first. *)
Fixpoint normalizeArray (allowAboveRoot : bool) (parts res : list string) : list string :=
  match parts with
  | [] => reverse res
  | p :: parts' =>
      if decide (p = "" ∨ p = ".") then normalizeArray allowAboveRoot parts' res
      else if decide (p = "..") then
        match res with
        | last :: res' =>
            if decide (last = "..") then
              normalizeArray allowAboveRoot parts'
                (if allowAboveRoot then ".." :: res else res)
            else normalizeArray allowAboveRoot parts' res'
        | [] =>
            normalizeArray allowAboveRoot parts'
              (if allowAboveRoot then [".."] else [])
        end
      else normalizeArray allowAboveRoot parts' (p :: res)
  end.

Definition starts_with_slash (s : string) : bool :=
  match s with
  | String c _ => Ascii.eqb c "/"%char
  | EmptyString => false
  end.

Fixpoint ends_with_slash (s : string) : bool :=
  match s with
  | EmptyString => false
  | String c EmptyString => Ascii.eqb c "/"%char
  | String _ s' => ends_with_slash s'
  end.

Definition join_slash (segs : list string) : string := String.concat "/" segs.

Definition normalize (path : string) : string :=
  let isAbsolute := starts_with_slash path in
  let trailingSlash := ends_with_slash path in
  let p := join_slash (normalizeArray (negb isAbsolute) (split_on "/"%char path) []) in
  let p := if bool_decide (p = "") && negb isAbsolute then "." else p in
  let p := if negb (bool_decide (p = "")) && trailingSlash then p +:+ "/" else p in
  (if isAbsolute then "/" else "") +:+ p.

(** ** [createPathOperation] *)

(** A field of an operation descriptor: a value of the document, or one
    of the two freshly built schema tables. *)
Inductive dval :=
  | DVal (v : val)
  | DParamGroups (g : obj params_schema)
  | DResponses (r : obj response_schema).

(** [if (!node.k) node.k = fresh], with [fresh] a new empty array or object. *)
Definition default_field (node : val) (k : string) (fresh : hobj) : M unit :=
  λ s,
  if nullish node then Throw TypeError
  else if truthy (get_prop (st_heap s) node k) then Ok tt s
  else
    match node with
    | VRef l =>
        match st_heap s !! l with
        | Some (Obj o) =>
            (let! l' := alloc fresh in
             store l (Obj (obj_set k (VRef l') o))) s
        | _ => Throw OutOfModel
        end
    | _ => Throw TypeError
    end.

Definition fullPath_of (h : heap) (spec pathInfo : val) : error + string :=
  try! basePath := get_member h spec "basePath" in
  try! b := to_string h basePath in
  try! path := get_member h pathInfo "path" in
  try! p := to_string h path in
  inr (normalize ("/" +:+ b +:+ "/" +:+ p)).

Definition operation_fields (h : heap) (method : string)
    (pathInfo spec operationInfo : val) : error + obj dval :=
  try! id := get_member h operationInfo "operationId" in
  try! path := get_member h pathInfo "path" in
  try! fullPath := fullPath_of h spec pathInfo in
  try! consumes := getOperationProperty h "consumes" operationInfo spec in
  try! produces := getOperationProperty h "produces" operationInfo spec in
  try! parameters := get_member h operationInfo "parameters" in
  try! paramGroupSchemas := createParamGroupSchemas h parameters in
  try! responses := get_member h operationInfo "responses" in
  try! responseSchemas := createResponseSchemas h responses in
  inr [("id", DVal id);
       ("path", DVal path);
       ("fullPath", DVal (VStr fullPath));
       ("consumes", DVal consumes);
       ("produces", DVal produces);
       ("paramGroupSchemas", DParamGroups paramGroupSchemas);
       ("responseSchemas", DResponses responseSchemas);
       ("method", DVal (VStr method))].

(** The object literal, [Object.assign] over it, and the [delete]. *)
Definition build_operation (h : heap) (method : string)
    (pathInfo pathsXProps spec operationInfo : val) : error + obj dval :=
  try! computed := operation_fields h method pathInfo spec operationInfo in
  let operation :=
    obj_assign DVal h (obj_assign DVal h computed pathsXProps) operationInfo in
  inr (obj_delete "operationId" operation).

Definition createPathOperation (fuel : nat) (method : string)
    (pathInfo pathsXProps spec : val) : M (obj dval) :=
  let! raw := (λ s, match get_member (st_heap s) pathInfo method with
                    | inl e => Throw e
                    | inr v => Ok v s
                    end) in
  let! operationInfo := resolveRefs fuel spec raw in
  let! _ := default_field operationInfo "parameters" (Arr []) in
  let! _ := default_field operationInfo "responses" (Obj []) in
  λ s,
  match build_operation (st_heap s) method pathInfo pathsXProps spec operationInfo with
  | inl e => Throw e
  | inr operation => Ok operation s
  end.

(** ** [getAllOperations] and its helpers *)

Definition HTTP_METHODS : list string :=
  ["get"; "put"; "post"; "delete"; "options"; "head"; "patch"].

(** A computation that reads the store and can throw. *)
Definition lift {A} (f : heap → error + A) : M A :=
  λ s, match f (st_heap s) with
       | inl e => Throw e
       | inr a => Ok a s
       end.

(** [Object.keys(v)] as an expression: a [TypeError] on [null] and
    [undefined]. *)
Definition object_keys (h : heap) (v : val) : error + list string :=
  if nullish v then inl TypeError else inr (own_keys h v).

(** [reduce] with a callback that runs in the state monad. *)
Fixpoint foldM {A B} (f : B → A → M B) (acc : B) (xs : list A) : M B :=
  match xs with
  | [] => ret acc
  | x :: xs' =>
      let! acc' := f acc x in
      foldM f acc' xs'
  end.

(** The fields [getXProps] collects: [xProps[prop] = data[prop]] for each
    kept key, starting from [{}]. *)
Definition x_props (h : heap) (data : val) (keys : list string) : obj val :=
  foldl (λ xProps prop, obj_set prop (get_prop h data prop) xProps) []
        (filter (λ prop, String.prefix "x-" prop = true) keys).

Definition getXProps (data : val) : M val :=
  let! keys := lift (λ h, object_keys h data) in
  let! xProps := lift (λ h, inr (x_props h data keys)) in
  let! l := alloc (Obj xProps) in
  ret (VRef l).

(** [Object.keys(spec.paths || {})]: the fresh [{}] has no key and is not
    reachable afterwards; it is not put in the store. *)
Definition getPaths (spec : val) : M (list val) :=
  let! paths := lift (λ h, get_member h spec "paths") in
  let! keys := lift (λ h, inr (if truthy paths then own_keys h paths else [])) in
  mapM (λ path,
      (* Object.assign({ path }, spec.paths[path]) *)
      let! item := lift (λ h, try! paths := get_member h spec "paths" in
                               get_member h paths path) in
      let! pathInfo := lift (λ h, inr (obj_assign id h [("path", VStr path)] item)) in
      let! l := alloc (Obj pathInfo) in
      ret (VRef l)) keys.

Definition getPathOperations (fuel : nat) (pathInfo spec : val) : M (list (obj dval)) :=
  let! xProps := getXProps pathInfo in
  let! keys := lift (λ h, object_keys h pathInfo) in
  mapM (λ method, createPathOperation fuel method pathInfo xProps spec)
       (filter (λ key, key ∈ HTTP_METHODS) keys).

Definition getAllOperations (fuel : nat) (spec : val) : M (list (obj dval)) :=
  let! paths := getPaths spec in
  foldM (λ ops pathInfo,
      (* ops.concat(getPathOperations(pathInfo, spec)) *)
      let! more := getPathOperations fuel pathInfo spec in
      ret (ops ++ more)) [] paths.

(** * The vocabulary of the properties *)

(** ** Walking a reference *)




(** ** The states a call goes through *)

(** The merged node of a reference-bearing node [l] whose fields were [o]:
    [delete data.$ref], then [Object.assign({}, resolved, data)]. *)
Definition merged_node (h : heap) (l : addr) (o : obj val) (resolved : val) : obj val :=
  let h1 := <[l := Obj (obj_delete "$ref" o)]> h in
  obj_assign id h1 (obj_assign id h1 [] resolved) (VRef l).

(** The state once the merged node is created and marked visited. *)
Definition merge_state (s : state) (l : addr) (o : obj val) (resolved : val) : state :=
  State (<[l := Obj (obj_delete "$ref" o)]> (st_heap s)
           ++ [Obj (merged_node (st_heap s) l o resolved)])
        ({[length (st_heap s)]} ∪ st_cache s).

(** The state once the node [l], which has no reference, is marked visited. *)
Definition visit_state (s : state) (l : addr) : state :=
  State (st_heap s) ({[l]} ∪ st_cache s).

(** The state once a resolved field is written back: [data[name] = ...]. *)
Definition write_state (s : state) (l : addr) (o : obj val) : state :=
  State (<[l := Obj o]> (st_heap s)) (st_cache s).

(** The state once [data.map] has built its new array. *)
Definition alloc_state (s : state) (x : hobj) : state :=
  State (st_heap s ++ [x]) (st_cache s).

(** A function [f] (a recursive call of the resolver) respects a state
    invariant [I], a relation [R] between the states before and after, and
    a property [Q] of returned values. *)
Definition respects (I : state → Prop) (R : state → state → Prop)
    (Q : state → val → Prop) (f : val → M val) : Prop :=
  ∀ v s v' s', I s → f v s = Ok v' s' → I s' ∧ R s s' ∧ Q s' v'.

(** The branch one call of [resolveRefs] takes, whatever the fuel. *)
Inductive call_shape (spec : val) (v : val) (s : state) : Prop :=
  | shape_return :
      (∀ fuel, resolveRefs (S fuel) spec v s = Ok v s) →
      call_shape spec v s
  | shape_throw e :
      (∀ fuel, resolveRefs (S fuel) spec v s = Throw e) →
      call_shape spec v s
  | shape_array l vs :
      v = VRef l → l ∉ st_cache s → st_heap s !! l = Some (Arr vs) →
      call_shape spec v s
  | shape_visit l o :
      v = VRef l → l ∉ st_cache s → st_heap s !! l = Some (Obj o) →
      truthy (default VUndef (obj_get "$ref" o)) = false →
      call_shape spec v s
  | shape_merge l o r resolved :
      v = VRef l → l ∉ st_cache s → st_heap s !! l = Some (Obj o) →
      obj_get "$ref" o = Some (VStr r) → r ≠ "" →
      resolveRef r spec (st_heap s) = inr resolved →
      call_shape spec v s.

(** An outcome that is a result or an exception. *)
Definition settled {A} (r : outcome A) : Prop := r ≠ OutOfFuel.

(** [g] agrees with [f] wherever [f] settles. *)
Definition refines (f g : val → M val) : Prop :=
  ∀ v s, settled (f v s) → g v s = f v s.

(** ** What a run preserves *)

(** Nothing is deallocated, arrays are never written, objects stay
    objects. *)
Definition heap_ext (h h' : heap) : Prop :=
  length h ≤ length h' ∧
  (∀ l vs, h !! l = Some (Arr vs) → h' !! l = Some (Arr vs)) ∧
  (∀ l o, h !! l = Some (Obj o) → ∃ o', h' !! l = Some (Obj o')).

Definition state_ext (s s' : state) : Prop :=
  heap_ext (st_heap s) (st_heap s') ∧ st_cache s ⊆ st_cache s'.

(** A value is resolved when it is a primitive, a visited node, or an
    array of resolved values: what [resolveRefs] returns. *)
Inductive resolved (h : heap) (c : gset nat) : val → Prop :=
  | resolved_prim v : (∀ l, v ≠ VRef l) → resolved h c v
  | resolved_cached l : l ∈ c → resolved h c (VRef l)
  | resolved_array l vs :
      h !! l = Some (Arr vs) → (∀ v, v ∈ vs → resolved h c v) →
      resolved h c (VRef l).

(** The nodes that are in the memo of [s] are the same in [s']. *)
Definition frame (s s' : state) : Prop :=
  ∀ l, l ∈ st_cache s → st_heap s' !! l = st_heap s !! l.

(** ** Identical structures *)

(** Two values have the same structure when they are the same value (the
    same primitive, the same node) or arrays whose elements have,
    position by position, the same structure. *)
Inductive same_structure (h : heap) : val → val → Prop :=
  | same_value v : same_structure h v v
  | same_array l1 l2 vs1 vs2 :
      h !! l1 = Some (Arr vs1) → h !! l2 = Some (Arr vs2) →
      length vs1 = length vs2 →
      (∀ i v1 v2, vs1 !! i = Some v1 → vs2 !! i = Some v2 →
         same_structure h v1 v2) →
      same_structure h (VRef l1) (VRef l2).

Definition is_array (x : hobj) : Prop := ∃ vs, x = Arr vs.

(** ** Finite array nesting and pending work *)

(** Arrays nested in arrays bottom out: the array nesting below [v] is
    finite.  A node (a keyed object) ends the nesting. *)
Inductive array_finite (h : heap) : val → Prop :=
  | array_finite_prim v : (∀ l, v ≠ VRef l) → array_finite h v
  | array_finite_obj l o : h !! l = Some (Obj o) → array_finite h (VRef l)
  | array_finite_arr l vs :
      h !! l = Some (Arr vs) → (∀ v, v ∈ vs → array_finite h v) →
      array_finite h (VRef l).

(** No array of the store contains itself through arrays alone. *)
Definition arrays_finite (h : heap) : Prop :=
  ∀ l vs, h !! l = Some (Arr vs) → array_finite h (VRef l).

(** The memo only holds addresses of the store. *)
Definition cache_wf (s : state) : Prop :=
  ∀ l, l ∈ st_cache s → l < length (st_heap s).

(** The states on which termination is proved. *)
Definition state_wf (s : state) : Prop :=
  cache_wf s ∧ arrays_finite (st_heap s).

(** The work still to be done: a node outside the memo counts for one
    visit, and for one more when it still carries a truthy [$ref]. *)
Definition weight (s : state) (l : nat) : nat :=
  if decide (l ∈ st_cache s) then 0
  else match st_heap s !! l with
       | Some (Obj o) =>
           if truthy (default VUndef (obj_get "$ref" o)) then 2 else 1
       | _ => 0
       end.

(** The termination measure. *)
Definition pending (s : state) : nat :=
  sum_list_with (weight s) (seq 0 (length (st_heap s))).

(** Progress of one run: the state is extended and the pending work
    does not grow. *)
Definition advances (s s' : state) : Prop :=
  state_ext s s' ∧ pending s' ≤ pending s.

(** Some amount of fuel lets the call return or throw. *)
Definition terminates (spec v : val) (s : state) : Prop :=
  ∃ fuel, settled (resolveRefs fuel spec v s).

(** ** Sample documents *)

(** A document whose definitions refer to each other, and an array that
    leads back to them: [arrays_finite] holds, cycles through nodes are
    allowed. *)
Definition mutual_doc : heap :=
  [ Obj [("definitions", VRef 1)];
    Obj [("A", VRef 2); ("B", VRef 3)];
    Obj [("$ref", VStr "#/definitions/B")];
    Obj [("$ref", VStr "#/definitions/A"); ("items", VRef 4)];
    Arr [VRef 2; VRef 3] ].

(** A reference to a definition that is itself a reference, as in
    [definitions: {A: {$ref: '#/definitions/B'}, B: {a: 1}}]. *)
Definition chained_doc : heap :=
  [ Obj [("definitions", VRef 1)];
    Obj [("A", VRef 2); ("B", VRef 3)];
    Obj [("$ref", VStr "#/definitions/B")];
    Obj [("a", VNum 1)];
    Obj [("$ref", VStr "#/definitions/A"); ("b", VNum 3)] ].

(** ** Descriptors *)

(** "Present and non-empty", as the specification words it: an empty
    list is empty. *)
Definition present_nonempty (h : heap) (v : val) : bool :=
  match v with
  | VRef l =>
      match h !! l with
      | Some (Arr []) => false
      | _ => true
      end
  | _ => truthy v
  end.

(** The rule on [consumes] and [produces] as the specification words
    it, for the field [field] of a descriptor. *)
Definition inherits_unless_nonempty (h : heap) (prop : string)
    (operationInfo spec : val) (field : option dval) : Prop :=
  let own := get_prop h operationInfo prop in
  field = Some (DVal (if present_nonempty h own then own else get_prop h spec prop)).

(** An operation that declares [consumes: []] in a document that declares
    [consumes: ['application/json']]. *)
Definition empty_consumes_doc : heap :=
  [ Obj [("basePath", VStr "/"); ("consumes", VRef 1)];
    Arr [VStr "application/json"];
    Obj [("path", VStr "/pets"); ("get", VRef 3)];
    Obj [("operationId", VStr "listPets"); ("consumes", VRef 4)];
    Arr [] ].

(** A small document: [basePath: '/api'], a document-level [consumes], and
    [GET /users/{id}] with a required path parameter, an optional query
    parameter and one response with a required header.  Address 12 is the
    path item as [getPaths] builds it, address 11 the operation node. *)
Definition users_doc : heap :=
  [ Arr [VRef 1; VRef 2];
    Obj [("name", VStr "id"); ("in", VStr "path"); ("required", VBool true)];
    Obj [("name", VStr "q"); ("in", VStr "query")];
    Obj [("200", VRef 4)];
    Obj [("headers", VRef 5)];
    Obj [("X-Rate", VRef 6)];
    Obj [("required", VBool true)];
    Obj [("basePath", VStr "/api"); ("consumes", VRef 8); ("paths", VRef 9)];
    Arr [VStr "application/json"];
    Obj [("/users/{id}", VRef 10)];
    Obj [("get", VRef 11); ("x-owner", VStr "team-a")];
    Obj [("operationId", VStr "getUser"); ("produces", VRef 14);
         ("parameters", VRef 0); ("responses", VRef 3)];
    Obj [("path", VStr "/users/{id}"); ("get", VRef 11); ("x-owner", VStr "team-a")];
    Obj [("x-owner", VStr "team-a")];
    Arr [VStr "text/plain"] ].






(** ** Further vocabulary: schema errors, kept keys, path items *)

(** The response maps on which [createResponseSchemas] returns: the map,
    every response and every entry of a response's headers is something
    other than [null] or [undefined]. *)
Definition responses_ok (h : heap) (responses : val) : Prop :=
  nullish responses = false ∧
  ∀ id, id ∈ own_keys h responses →
    let response := get_prop h responses id in
    nullish response = false ∧
    ∀ name, name ∈ own_keys h (get_prop h response "headers") →
      nullish (get_prop h (get_prop h response "headers") name) = false.

(** The parameter names the model can turn into a property key. *)
Definition names_printable (h : heap) (elems : list val) : Prop :=
  Forall (λ p, ∃ k, to_string h (get_prop h p "name") = inr k) elems.

(** Every object of [s] is still an object in [s'], with the same keys in
    the same order, or with these keys less [$ref]. *)
Definition keys_kept (s s' : state) : Prop :=
  ∀ l o, st_heap s !! l = Some (Obj o) →
    ∃ o', st_heap s' !! l = Some (Obj o') ∧
          (obj_keys o' = obj_keys o ∨
           obj_keys o' = filter (λ k, k ≠ "$ref") (obj_keys o)).

(** An address that is in the store. *)
Definition val_closed (h : heap) (v : val) : Prop :=
  ∀ l, v = VRef l → l < length h.

(** The fields of the path information [getPaths] builds for the path
    [path] and the path item [item]. *)
Definition path_info_fields (h : heap) (path : string) (item : val)
    (info : obj val) : Prop :=
  NoDup (obj_keys info) ∧
  ∀ k, obj_get k info =
         if decide (k ∈ own_keys h item) then Some (get_prop h item k)
         else if decide (k = "path") then Some (VStr path)
         else None.

(** The keys of a path item that name an operation, in the item's order. *)
Definition method_keys (keys : list string) : list string :=
  filter (λ key, key ∈ HTTP_METHODS) keys.

(** Every object of [s] is still an object in [s'], with the same method
    keys. *)
Definition methods_kept (s s' : state) : Prop :=
  ∀ l o, st_heap s !! l = Some (Obj o) →
    ∃ o', st_heap s' !! l = Some (Obj o') ∧
          method_keys (obj_keys o') = method_keys (obj_keys o).

(** The paths of a document: the keys of [spec.paths || {}]. *)
Definition path_keys (h : heap) (spec : val) : list string :=
  let paths := get_prop h spec "paths" in
  if truthy paths then own_keys h paths else [].

(** The path item under a path. *)
Definition path_item (h : heap) (spec : val) (path : string) : val :=
  get_prop h (get_prop h spec "paths") path.

(** ** Computations bounded by fuel *)

(** A fuel-indexed computation is well behaved when more fuel does not
    change an outcome that is a result or an exception, when on every
    well-formed state some amount of fuel gives such an outcome, and when
    its results are well-formed states again. *)
Definition fuel_bounded {A} (m : nat → M A) : Prop :=
  (∀ s fuel fuel', fuel ≤ fuel' → settled (m fuel s) → m fuel' s = m fuel s) ∧
  (∀ s, state_wf s → ∃ fuel, settled (m fuel s)) ∧
  (∀ s fuel a s', state_wf s → m fuel s = Ok a s' → state_wf s').

(** ** Objects nothing refers to *)

(** No field of an object and no element of an array of the store holds
    the address [n]. *)
Definition unreferenced (n : addr) (h : heap) : Prop :=
  ∀ l x, h !! l = Some x →
    match x with
    | Obj o => ∀ k, obj_get k o ≠ Some (VRef n)
    | Arr vs => VRef n ∉ vs
    end.

(** The object at [n] is in the store, outside the memo, and nothing
    refers to it: only a local variable of the caller holds it. *)
Definition private (n : addr) (s : state) : Prop :=
  n < length (st_heap s) ∧ (n ∉ st_cache s) ∧ unreferenced n (st_heap s).

(** [s'] has the private object [n] of [s] as it was. *)
Definition keeps_private (n : addr) (s s' : state) : Prop :=
  private n s' ∧ st_heap s' !! n = st_heap s !! n.

(** Every address held in the store is an address of the store. *)
Definition heap_closed (h : heap) : Prop :=
  ∀ l x, h !! l = Some x →
    match x with
    | Obj o => ∀ k v, obj_get k o = Some v → val_closed h v
    | Arr vs => ∀ v, v ∈ vs → val_closed h v
    end.

(** A decision procedure for [heap_closed], for concrete stores. *)
Definition val_closedb (h : heap) (v : val) : bool :=
  match v with
  | VRef l => l <? length h
  | _ => true
  end.

Definition heap_closedb (h : heap) : bool :=
  forallb (λ x, match x with
                | Obj o => forallb (λ kv, val_closedb h kv.2) o
                | Arr vs => forallb (val_closedb h) vs
                end) h.



(** * Properties *)

(** ** Objects as finite maps *)

Section object_facts.
Context {A : Type}.
Implicit Types (o : obj A) (k : string) (v : A).

Lemma obj_get_app k o1 o2 :
  obj_get k (o1 ++ o2) =
    match obj_get k o1 with Some v => Some v | None => obj_get k o2 end.
Proof.
  induction o1 as [|[k' v'] o1 IH]; simpl; [done|].
  by destruct (decide (k = k')).
Qed.

Lemma obj_get_update k k' v o :
  obj_get k' (obj_update k v o) =
    if decide (k = k') then (λ _, v) <$> obj_get k o else obj_get k' o.
Proof.
  induction o as [|[k0 v0] o IH]; simpl.
  - by destruct (decide (k = k')).
  - destruct (decide (k = k0)) as [->|Hk0]; simpl.
    + destruct (decide (k' = k0)) as [->|Hne].
      * by rewrite decide_True.
      * by rewrite decide_False by congruence.
    + destruct (decide (k' = k0)) as [->|Hne].
      * by rewrite decide_False by done.
      * apply IH.
Qed.

Lemma obj_get_insert_index n k k' v o :
  obj_get k o = None →
  obj_get k' (obj_insert_index n k v o) =
    if decide (k' = k) then Some v else obj_get k' o.
Proof.
  induction o as [|[k0 v0] o IH]; simpl; [done|].
  destruct (decide (k = k0)) as [->|Hk0]; [done|]. intros Hk.
  destruct (array_index k0) as [n'|]; [destruct (n' <? n)%N|]; simpl;
    rewrite ?IH by done;
    repeat (case_decide; simplify_eq; try done).
Qed.

(** Reading after writing. *)
Lemma obj_get_set k k' v o :
  obj_get k' (obj_set k v o) = if decide (k' = k) then Some v else obj_get k' o.
Proof.
  unfold obj_set. destruct (obj_get k o) as [w|] eqn:Hk.
  - rewrite obj_get_update. rewrite Hk.
    repeat (case_decide; simplify_eq; try done).
  - destruct (array_index k) as [n|].
    + by rewrite obj_get_insert_index.
    + rewrite obj_get_app. simpl.
      destruct (decide (k' = k)) as [->|].
      * by rewrite Hk.
      * by destruct (obj_get k' o).
Qed.

Lemma obj_get_delete k k' o :
  obj_get k' (obj_delete k o) = if decide (k' = k) then None else obj_get k' o.
Proof.
  unfold obj_delete. induction o as [|[k0 v0] o IH]; simpl.
  - by destruct (decide (k' = k)).
  - rewrite filter_cons. simpl. destruct (decide (k0 ≠ k)) as [Hne|Heq]; simpl.
    + rewrite IH. repeat (case_decide; simplify_eq; try done).
    + apply dec_stable in Heq as ->. rewrite IH.
      repeat (case_decide; simplify_eq; try done).
Qed.

Lemma elem_of_obj_keys k o : k ∈ obj_keys o ↔ is_Some (obj_get k o).
Proof.
  unfold obj_keys. induction o as [|[k0 v0] o IH]; simpl.
  - rewrite elem_of_nil. split; [done|]. by intros [? ?].
  - rewrite elem_of_cons, IH. destruct (decide (k = k0)); naive_solver.
Qed.


Lemma obj_get_Some_elem k v o : obj_get k o = Some v → (k, v) ∈ o.
Proof.
  induction o as [|[k0 v0] o IH]; simpl; [done|].
  destruct (decide (k = k0)) as [->|]; intros.
  - simplify_eq. apply list_elem_of_here.
  - apply list_elem_of_further. auto.
Qed.

(** Updating a key that is there keeps the enumeration order. *)
Lemma obj_keys_update k v o : obj_keys (obj_update k v o) = obj_keys o.
Proof.
  unfold obj_keys. induction o as [|[k0 v0] o IH]; simpl; [done|].
  destruct (decide (k = k0)) as [->|]; [done|].
  rewrite !fmap_cons. by rewrite IH.
Qed.

Lemma obj_keys_set_present k v o :
  is_Some (obj_get k o) → obj_keys (obj_set k v o) = obj_keys o.
Proof.
  intros [w Hw]. unfold obj_set. rewrite Hw. apply obj_keys_update.
Qed.

End object_facts.

(** [Object.assign]: a key of the source takes the source's value, any
    other key keeps the target's. *)
Lemma obj_get_assign {A} (f : val → A) h (target : obj A) source k :
  obj_get k (obj_assign f h target source) =
    if decide (k ∈ own_keys h source) then Some (f (get_prop h source k))
    else obj_get k target.
Proof.
  unfold obj_assign. generalize (own_keys h source) as ks. intros ks. revert target.
  induction ks as [|k0 ks IH]; intros target; simpl; [done|].
  - rewrite IH, obj_get_set.
    destruct (decide (k ∈ ks)) as [Hin|Hnin].
    + by rewrite decide_True by (by apply list_elem_of_further).
    + destruct (decide (k = k0)) as [->|Hne].
      * by rewrite decide_True by apply list_elem_of_here.
      * rewrite decide_False; [done|]. intros [?|?]%elem_of_cons; done.
Qed.

(** ** [resolveRef], as the specification describes it *)




Lemma split_on_nonempty sep s : split_on sep s ≠ [].
Proof.
  destruct s as [|c s]; simpl; [done|].
  destruct (Ascii.eqb c sep); [done|]. by destruct (split_on sep s).
Qed.






(** ** Reasoning about the state monad *)

Lemma bind_Ok {A B} (m : M A) (k : A → M B) s b s' :
  bind m k s = Ok b s' ↔ ∃ a s1, m s = Ok a s1 ∧ k a s1 = Ok b s'.
Proof.
  unfold bind. destruct (m s) as [a s1| |]; [|naive_solver..].
  split; [eauto|]. by intros (? & ? & [= <- <-] & ?).
Qed.

Lemma bind_run {A B} (m : M A) (k : A → M B) s r :
  m s = r →
  bind m k s = match r with
               | Ok a s' => k a s'
               | Throw e => Throw e
               | OutOfFuel => OutOfFuel
               end.
Proof. intros <-. reflexivity. Qed.

Lemma load_obj_Ok l s o s' :
  load_obj l s = Ok o s' ↔ st_heap s !! l = Some (Obj o) ∧ s' = s.
Proof.
  unfold load_obj. destruct (st_heap s !! l) as [[o'|vs]|]; naive_solver.
Qed.

Lemma load_obj_cases l s :
  (∃ o, st_heap s !! l = Some (Obj o) ∧ load_obj l s = Ok o s) ∨
  load_obj l s = Throw OutOfModel.
Proof.
  unfold load_obj. destruct (st_heap s !! l) as [[o|vs]|]; eauto.
Qed.

Lemma val_ref_or_prim (v : val) : (∃ l, v = VRef l) ∨ (∀ l, v ≠ VRef l).
Proof. destruct v; eauto. Qed.

(** The equations of [resolveRefs], one per branch of the source. *)
Lemma resolveRefs_prim fuel spec v s :
  (∀ l, v ≠ VRef l) → resolveRefs (S fuel) spec v s = Ok v s.
Proof. intros Hv. destruct v; try done. by destruct (Hv l). Qed.

Lemma resolveRefs_cached fuel spec l s :
  l ∈ st_cache s → resolveRefs (S fuel) spec (VRef l) s = Ok (VRef l) s.
Proof. intros Hl. simpl. by rewrite decide_True. Qed.

Lemma resolveRefs_array fuel spec l s vs :
  l ∉ st_cache s → st_heap s !! l = Some (Arr vs) →
  resolveRefs (S fuel) spec (VRef l) s =
    match mapM (resolveRefs fuel spec) vs s with
    | Ok vs' s' => Ok (VRef (length (st_heap s'))) (alloc_state s' (Arr vs'))
    | Throw e => Throw e
    | OutOfFuel => OutOfFuel
    end.
Proof.
  intros Hc Hl. simpl. rewrite decide_False, Hl by done. unfold bind.
  by destruct (mapM (resolveRefs fuel spec) vs s).
Qed.

Lemma resolveRefs_visit fuel spec l s o :
  l ∉ st_cache s → st_heap s !! l = Some (Obj o) →
  truthy (default VUndef (obj_get "$ref" o)) = false →
  resolveRefs (S fuel) spec (VRef l) s =
    match resolve_fields (resolveRefs fuel spec) l (obj_keys o) (visit_state s l) with
    | Ok _ s' => Ok (VRef l) s'
    | Throw e => Throw e
    | OutOfFuel => OutOfFuel
    end.
Proof.
  intros Hc Hl Href. simpl. rewrite decide_False, Hl, Href by done.
  unfold bind, cache_add, visit_state.
  by destruct (resolve_fields _ _ _ _).
Qed.

Lemma resolveRefs_merge fuel spec l s o r resolved :
  l ∉ st_cache s → st_heap s !! l = Some (Obj o) →
  obj_get "$ref" o = Some (VStr r) → r ≠ "" →
  resolveRef r spec (st_heap s) = inr resolved →
  resolveRefs (S fuel) spec (VRef l) s =
    match resolve_fields (resolveRefs fuel spec) (length (st_heap s))
            (obj_keys (merged_node (st_heap s) l o resolved))
            (merge_state s l o resolved) with
    | Ok _ s' => Ok (VRef (length (st_heap s))) s'
    | Throw e => Throw e
    | OutOfFuel => OutOfFuel
    end.
Proof.
  intros Hc Hl Href Hr Hres. simpl. rewrite decide_False, Hl, Href by done.
  simpl. destruct r as [|a r]; [done|]. rewrite Hres.
  unfold bind, store, alloc, cache_add, load_obj. simpl.
  rewrite length_insert.
  rewrite lookup_app_r by (rewrite length_insert; lia).
  rewrite length_insert, Nat.sub_diag. simpl.
  unfold merge_state, merged_node.
  by destruct (resolve_fields _ _ _ _).
Qed.

Lemma resolveRefs_failures fuel spec l s o :
  l ∉ st_cache s → st_heap s !! l = Some (Obj o) →
  truthy (default VUndef (obj_get "$ref" o)) = true →
  (∀ r resolved, obj_get "$ref" o = Some (VStr r) →
     resolveRef r spec (st_heap s) ≠ inr resolved) →
  ∃ e, resolveRefs (S fuel) spec (VRef l) s = Throw e.
Proof.
  intros Hc Hl Href Hfail. simpl. rewrite decide_False, Hl, Href by done.
  destruct (obj_get "$ref" o) as [[| |b|n|r|l']|] eqn:Hget; simpl; eauto.
  destruct (resolveRef r spec (st_heap s)) as [e|resolved] eqn:Hres; eauto.
  by destruct (Hfail r resolved).
Qed.

(** ** A generic invariant of [resolveRefs]

    [I] is a state invariant, [R] relates the state before to the state
    after, [Q] holds of returned values.  Once each elementary step of
    the resolver is shown to respect them, every successful run does. *)
Section resolveRefs_invariant.
Variable I : state → Prop.
Variable R : state → state → Prop.
Variable Q : state → val → Prop.

Hypothesis R_refl : ∀ s, R s s.
Hypothesis R_trans : ∀ s1 s2 s3, R s1 s2 → R s2 s3 → R s1 s3.
Hypothesis R_cache : ∀ s s', R s s' → st_cache s ⊆ st_cache s'.
Hypothesis Q_mono : ∀ s s' v, R s s' → Q s v → Q s' v.
Hypothesis Q_prim : ∀ s v, (∀ l, v ≠ VRef l) → Q s v.
Hypothesis Q_cached : ∀ s l, l ∈ st_cache s → Q s (VRef l).
Hypothesis step_array : ∀ s vs,
  I s → Forall (Q s) vs →
  I (alloc_state s (Arr vs)) ∧ R s (alloc_state s (Arr vs)) ∧
  Q (alloc_state s (Arr vs)) (VRef (length (st_heap s))).
Hypothesis step_visit : ∀ s l o,
  I s → l ∉ st_cache s → st_heap s !! l = Some (Obj o) →
  truthy (default VUndef (obj_get "$ref" o)) = false →
  I (visit_state s l) ∧ R s (visit_state s l).
Hypothesis step_merge : ∀ s l o r resolved,
  I s → l ∉ st_cache s → st_heap s !! l = Some (Obj o) →
  obj_get "$ref" o = Some (VStr r) → r ≠ "" →
  I (merge_state s l o resolved) ∧ R s (merge_state s l o resolved).
Hypothesis step_write : ∀ s l o k v,
  I s → l ∈ st_cache s → st_heap s !! l = Some (Obj o) → Q s v →
  I (write_state s l (obj_set k v o)) ∧ R s (write_state s l (obj_set k v o)).

Lemma mapM_respects f vs :
  respects I R Q f →
  ∀ s vs' s', I s → mapM f vs s = Ok vs' s' →
    I s' ∧ R s s' ∧ Forall (Q s') vs'.
Proof using R_refl R_trans Q_mono.
  intros Hf. induction vs as [|v vs IH]; intros s vs' s' HI Hrun; simpl in Hrun.
  - injection Hrun as <- <-. by split_and!.
  - apply bind_Ok in Hrun as (v' & s1 & Hv & Hrun).
    apply bind_Ok in Hrun as (vs1 & s2 & Hvs & Hrun).
    injection Hrun as <- <-.
    destruct (Hf _ _ _ _ HI Hv) as (HI1 & HR1 & HQ1).
    destruct (IH _ _ _ HI1 Hvs) as (HI2 & HR2 & HQ2).
    split_and!; eauto.
Qed.

Lemma resolve_fields_respects f l ks :
  respects I R Q f →
  ∀ s u s', I s → l ∈ st_cache s → resolve_fields f l ks s = Ok u s' →
    I s' ∧ R s s'.
Proof using R_refl R_trans R_cache step_write.
  intros Hf. induction ks as [|k ks IH]; intros s u s' HI Hl Hrun; simpl in Hrun.
  - injection Hrun as <- <-. by split.
  - apply bind_Ok in Hrun as (o & s0 & Ho & Hrun).
    apply load_obj_Ok in Ho as [Ho ->].
    apply bind_Ok in Hrun as (v' & s1 & Hv & Hrun).
    apply bind_Ok in Hrun as (o' & s1' & Ho' & Hrun).
    apply load_obj_Ok in Ho' as [Ho' ->].
    apply bind_Ok in Hrun as ([] & s2 & Hst & Hrun).
    injection Hst as <-.
    destruct (Hf _ _ _ _ HI Hv) as (HI1 & HR1 & HQ1).
    assert (l ∈ st_cache s1) as Hl1 by (by apply (R_cache _ _ HR1)).
    destruct (step_write s1 l o' k v' HI1 Hl1 Ho' HQ1) as [HI2 HR2].
    destruct (IH _ _ _ HI2 Hl1 Hrun) as [HI3 HR3].
    split; eauto.
Qed.

Theorem resolveRefs_respects fuel spec : respects I R Q (resolveRefs fuel spec).
Proof using All.
  induction fuel as [|fuel IH]; intros v s v' s' HI Hrun; [done|].
  destruct (val_ref_or_prim v) as [[l ->]|Hprim]; cycle 1.
  { rewrite resolveRefs_prim in Hrun by done.
    injection Hrun as <- <-. split_and!; auto. }
  destruct (decide (l ∈ st_cache s)) as [Hc|Hc].
  { rewrite resolveRefs_cached in Hrun by done.
    injection Hrun as <- <-. split_and!; auto. }
  destruct (st_heap s !! l) as [[o|vs]|] eqn:Hl; cycle 2.
  { simpl in Hrun. by rewrite decide_False, Hl in Hrun. }
  - destruct (truthy (default VUndef (obj_get "$ref" o))) eqn:Href.
    + destruct (obj_get "$ref" o) as [[| |b|n|r|l']|] eqn:Hget;
        try (simpl in Hrun; rewrite decide_False, Hl, Hget in Hrun by done;
             simpl in Hrun; simpl in Href; by rewrite ?Href in Hrun).
      destruct (resolveRef r spec (st_heap s)) as [e|resolved] eqn:Hres.
      { simpl in Hrun. rewrite decide_False, Hl, Hget in Hrun by done.
        simpl in Hrun, Href. by rewrite Href, Hres in Hrun. }
      assert (r ≠ "") as Hr by (by intros ->).
      rewrite (resolveRefs_merge _ _ _ _ _ _ _ Hc Hl Hget Hr Hres) in Hrun.
      destruct (resolve_fields _ _ _ _) as [u s1| |] eqn:Hloop; [|done..].
      injection Hrun as <- <-.
      destruct (step_merge s l o r resolved HI Hc Hl Hget Hr) as [HI1 HR1].
      assert (length (st_heap s) ∈ st_cache (merge_state s l o resolved)) as Hm
        by (simpl; set_solver).
      destruct (resolve_fields_respects _ _ _ IH _ _ _ HI1 Hm Hloop) as [HI2 HR2].
      split_and!; [done|by eapply R_trans|].
      apply Q_cached. by apply (R_cache _ _ HR2).
    + rewrite (resolveRefs_visit _ _ _ _ _ Hc Hl Href) in Hrun.
      destruct (resolve_fields _ _ _ _) as [u s1| |] eqn:Hloop; [|done..].
      injection Hrun as <- <-.
      destruct (step_visit s l o HI Hc Hl Href) as [HI1 HR1].
      assert (l ∈ st_cache (visit_state s l)) as Hm by (simpl; set_solver).
      destruct (resolve_fields_respects _ _ _ IH _ _ _ HI1 Hm Hloop) as [HI2 HR2].
      split_and!; [done|by eapply R_trans|].
      apply Q_cached. by apply (R_cache _ _ HR2).
  - rewrite (resolveRefs_array _ _ _ _ _ Hc Hl) in Hrun.
    destruct (mapM _ _ _) as [vs' s1| |] eqn:Hmap; [|done..].
    injection Hrun as <- <-.
    destruct (mapM_respects _ _ IH _ _ _ HI Hmap) as (HI1 & HR1 & HQ1).
    destruct (step_array s1 vs' HI1 HQ1) as (HI2 & HR2 & HQ2).
    split_and!; eauto.
Qed.
End resolveRefs_invariant.

Lemma resolveRefs_shape spec v s : call_shape spec v s.
Proof.
  destruct (val_ref_or_prim v) as [[l ->]|Hprim].
  2: { apply shape_return. intros. by apply resolveRefs_prim. }
  destruct (decide (l ∈ st_cache s)) as [Hc|Hc].
  { apply shape_return. intros. by apply resolveRefs_cached. }
  destruct (st_heap s !! l) as [[o|vs]|] eqn:Hl.
  - destruct (truthy (default VUndef (obj_get "$ref" o))) eqn:Href.
    + destruct (obj_get "$ref" o) as [[| |b|n|r|l']|] eqn:Hget; try done;
        try (apply (shape_throw _ _ _ TypeError); intros fuel; simpl;
             rewrite decide_False, Hl, Hget by done; simpl in *;
             by rewrite ?Href).
      destruct (resolveRef r spec (st_heap s)) as [e|resolved] eqn:Hres.
      * apply (shape_throw _ _ _ e). intros. simpl.
        rewrite decide_False, Hl, Hget by done. simpl in *.
        by rewrite Href, Hres.
      * eapply shape_merge; eauto. by intros ->.
    + by eapply shape_visit.
  - by eapply shape_array.
  - apply (shape_throw _ _ _ OutOfModel). intros. simpl.
    by rewrite decide_False, Hl by done.
Qed.

(** ** More fuel does not change an outcome *)

Lemma mapM_refines f g vs s :
  refines f g → settled (mapM f vs s) → mapM g vs s = mapM f vs s.
Proof.
  intros Hfg. revert s. induction vs as [|v vs IH]; intros s; simpl; [done|].
  destruct (f v s) as [v' s1| |] eqn:Hv.
  - assert (g v s = Ok v' s1) as Hg by (rewrite <-Hv; apply Hfg; by rewrite Hv).
    rewrite (bind_run _ _ _ _ Hv), (bind_run _ _ _ _ Hg).
    destruct (mapM f vs s1) as [vs' s2| |] eqn:Hvs.
    + intros _.
      assert (mapM g vs s1 = Ok vs' s2) as Hgs by (rewrite <-Hvs; apply IH; by rewrite Hvs).
      by rewrite (bind_run _ _ _ _ Hvs), (bind_run _ _ _ _ Hgs).
    + intros _.
      assert (mapM g vs s1 = Throw e) as Hgs by (rewrite <-Hvs; apply IH; by rewrite Hvs).
      by rewrite (bind_run _ _ _ _ Hvs), (bind_run _ _ _ _ Hgs).
    + rewrite (bind_run _ _ _ _ Hvs). by intros [].
  - assert (g v s = Throw e) as Hg by (rewrite <-Hv; apply Hfg; by rewrite Hv).
    by rewrite (bind_run _ _ _ _ Hv), (bind_run _ _ _ _ Hg).
  - rewrite (bind_run _ _ _ _ Hv). by intros [].
Qed.

Lemma resolve_fields_refines f g l ks s :
  refines f g →
  settled (resolve_fields f l ks s) →
  resolve_fields g l ks s = resolve_fields f l ks s.
Proof.
  intros Hfg. revert s. induction ks as [|k ks IH]; intros s; simpl; [done|].
  destruct (load_obj l s) as [o s0| |] eqn:Ho;
    rewrite !(bind_run _ _ _ _ Ho); [|done..].
  destruct (f (default VUndef (obj_get k o)) s0) as [v' s1| |] eqn:Hv.
  - assert (g (default VUndef (obj_get k o)) s0 = Ok v' s1) as Hg
      by (rewrite <-Hv; apply Hfg; by rewrite Hv).
    rewrite (bind_run _ _ _ _ Hv), (bind_run _ _ _ _ Hg).
    destruct (load_obj l s1) as [o' s1'| |] eqn:Ho';
      rewrite !(bind_run _ _ _ _ Ho'); [|done..].
    rewrite !(bind_run _ _ _ _ eq_refl). apply IH.
  - assert (g (default VUndef (obj_get k o)) s0 = Throw e) as Hg
      by (rewrite <-Hv; apply Hfg; by rewrite Hv).
    by rewrite (bind_run _ _ _ _ Hv), (bind_run _ _ _ _ Hg).
  - rewrite (bind_run _ _ _ _ Hv). by intros [].
Qed.

Lemma resolveRefs_fuel_mono spec fuel fuel' v s :
  fuel ≤ fuel' → settled (resolveRefs fuel spec v s) →
  resolveRefs fuel' spec v s = resolveRefs fuel spec v s.
Proof.
  revert fuel' v s. induction fuel as [|fuel IH]; intros fuel' v s Hle Hs; [done|].
  destruct fuel' as [|fuel']; [lia|].
  assert (refines (resolveRefs fuel spec) (resolveRefs fuel' spec)) as Href.
  { intros v1 s1 Hs1. apply IH; [lia|done]. }
  destruct (resolveRefs_shape spec v s)
    as [Hret|e Hthrow|l vs -> Hc Hl|l o -> Hc Hl Hno|l o r resolved -> Hc Hl Hget Hr Hres].
  - by rewrite !Hret.
  - by rewrite !Hthrow.
  - rewrite !(resolveRefs_array _ _ _ _ _ Hc Hl) in *.
    rewrite (mapM_refines _ _ _ _ Href); [done|].
    intros Hoof. apply Hs. by rewrite Hoof.
  - rewrite !(resolveRefs_visit _ _ _ _ _ Hc Hl Hno) in *.
    rewrite (resolve_fields_refines _ _ _ _ _ Href); [done|].
    intros Hoof. apply Hs. by rewrite Hoof.
  - rewrite !(resolveRefs_merge _ _ _ _ _ _ _ Hc Hl Hget Hr Hres) in *.
    rewrite (resolve_fields_refines _ _ _ _ _ Href); [done|].
    intros Hoof. apply Hs. by rewrite Hoof.
Qed.

(** ** What a run leaves in place *)

Lemma heap_ext_refl h : heap_ext h h.
Proof. split_and!; eauto. Qed.

Lemma heap_ext_trans h1 h2 h3 : heap_ext h1 h2 → heap_ext h2 h3 → heap_ext h1 h3.
Proof.
  intros (Hlen1 & Ha1 & Ho1) (Hlen2 & Ha2 & Ho2). split_and!; [lia|eauto|].
  intros l o Hl. destruct (Ho1 _ _ Hl) as [o' Hl']. eauto.
Qed.

Lemma heap_ext_app h xs : heap_ext h (h ++ xs).
Proof.
  split_and!.
  - rewrite length_app. lia.
  - intros l vs Hl. by apply lookup_app_l_Some.
  - intros l o Hl. exists o. by apply lookup_app_l_Some.
Qed.

Lemma heap_ext_write h l o o' :
  h !! l = Some (Obj o) → heap_ext h (<[l := Obj o']> h).
Proof.
  intros Hl. split_and!.
  - by rewrite length_insert.
  - intros l' vs Hl'. rewrite list_lookup_insert_ne; [done|]. congruence.
  - intros l' o1 Hl'. destruct (decide (l = l')) as [->|Hne].
    + exists o'. apply list_lookup_insert_eq. by eapply lookup_lt_Some.
    + exists o1. by rewrite list_lookup_insert_ne.
Qed.

Lemma state_ext_refl s : state_ext s s.
Proof. split; [apply heap_ext_refl|done]. Qed.

Lemma state_ext_trans s1 s2 s3 : state_ext s1 s2 → state_ext s2 s3 → state_ext s1 s3.
Proof.
  intros [Hh1 Hc1] [Hh2 Hc2]. split; [by eapply heap_ext_trans|set_solver].
Qed.

Lemma state_ext_alloc s x : state_ext s (alloc_state s x).
Proof. split; [apply heap_ext_app|done]. Qed.

Lemma state_ext_visit s l : state_ext s (visit_state s l).
Proof. split; [apply heap_ext_refl|simpl; set_solver]. Qed.

Lemma state_ext_write s l o o' :
  st_heap s !! l = Some (Obj o) → state_ext s (write_state s l o').
Proof. intros Hl. split; [by eapply heap_ext_write|done]. Qed.

Lemma state_ext_merge s l o resolved :
  st_heap s !! l = Some (Obj o) → state_ext s (merge_state s l o resolved).
Proof.
  intros Hl. split; [|simpl; set_solver]. simpl.
  eapply heap_ext_trans; [by eapply heap_ext_write|apply heap_ext_app].
Qed.

Lemma resolved_mono h c h' c' v :
  heap_ext h h' → c ⊆ c' → resolved h c v → resolved h' c' v.
Proof.
  intros (_ & Harr & _) Hc. induction 1 as [v Hv|l Hl|l vs Hl _ IH].
  - by apply resolved_prim.
  - apply resolved_cached. set_solver.
  - eapply resolved_array; eauto.
Qed.

(** Every successful call extends the state and returns a resolved value. *)
Lemma resolveRefs_resolved fuel spec v s v' s' :
  resolveRefs fuel spec v s = Ok v' s' →
  state_ext s s' ∧ resolved (st_heap s') (st_cache s') v'.
Proof.
  intros Hrun.
  apply (resolveRefs_respects (λ _, True) state_ext
           (λ s v, resolved (st_heap s) (st_cache s) v)) in Hrun; [tauto|..|done].
  - apply state_ext_refl.
  - apply state_ext_trans.
  - by intros s1 s2 [_ ?].
  - intros s1 s2 v1 [? ?]. by apply resolved_mono.
  - intros. by apply resolved_prim.
  - intros. by apply resolved_cached.
  - intros s1 vs _ Hvs. split_and!; [done|apply state_ext_alloc|].
    eapply resolved_array.
    + simpl. apply list_lookup_middle. done.
    + intros v1 Hv1. rewrite Forall_forall in Hvs.
      eapply resolved_mono; [apply heap_ext_app|done|by apply Hvs].
  - intros. split; [done|apply state_ext_visit].
  - intros. split; [done|by apply state_ext_merge].
  - intros. split; [done|by eapply state_ext_write].
Qed.

(** ** Idempotence *)

Lemma same_structure_app h xs v1 v2 :
  same_structure h v1 v2 → same_structure (h ++ xs) v1 v2.
Proof.
  induction 1 as [v|l1 l2 vs1 vs2 Hl1 Hl2 Hlen _ IH].
  - apply same_value.
  - eapply same_array; eauto using lookup_app_l_Some.
Qed.

(** The second pass over a list of resolved values. *)
Lemma mapM_second_pass spec h c vs :
  (∀ v, v ∈ vs → ∀ xs, Forall is_array xs →
     ∃ fuel ys v2,
       resolveRefs fuel spec v (State (h ++ xs) c) = Ok v2 (State (h ++ xs ++ ys) c) ∧
       Forall is_array ys ∧
       same_structure (h ++ xs ++ ys) v v2) →
  ∀ xs, Forall is_array xs →
    ∃ fuel ys vs2,
      mapM (resolveRefs fuel spec) vs (State (h ++ xs) c)
        = Ok vs2 (State (h ++ xs ++ ys) c) ∧
      Forall is_array ys ∧
      Forall2 (same_structure (h ++ xs ++ ys)) vs vs2.
Proof.
  induction vs as [|v vs IH]; intros Hvs xs Hxs.
  - exists 0, [], []. rewrite app_nil_r. by split_and!.
  - destruct (Hvs v (list_elem_of_here _ _) xs Hxs) as (fuel1 & ys1 & v2 & Hv & Hys1 & Hsame).
    destruct (IH (λ v' Hv', Hvs v' (list_elem_of_further _ _ _ Hv')) (xs ++ ys1))
      as (fuel2 & ys2 & vs2 & Hrest & Hys2 & Hsames).
    { by apply Forall_app. }
    exists (fuel1 `max` fuel2), (ys1 ++ ys2), (v2 :: vs2).
    rewrite <-!(assoc_L (++)) in Hrest, Hsames.
    split_and!.
    + simpl.
      assert (resolveRefs (fuel1 `max` fuel2) spec v (State (h ++ xs) c)
              = Ok v2 (State (h ++ xs ++ ys1) c)) as Hv'.
      { rewrite <-Hv. apply resolveRefs_fuel_mono; [lia|]. by rewrite Hv. }
      rewrite (bind_run _ _ _ _ Hv').
      assert (mapM (resolveRefs (fuel1 `max` fuel2) spec) vs (State (h ++ xs ++ ys1) c)
              = Ok vs2 (State (h ++ xs ++ ys1 ++ ys2) c)) as Hrest'.
      { rewrite <-Hrest. apply mapM_refines; [|by rewrite Hrest].
        intros v' s' Hs'. apply resolveRefs_fuel_mono; [lia|done]. }
      by rewrite (bind_run _ _ _ _ Hrest').
    + by apply Forall_app.
    + constructor; [|done].
      replace (h ++ xs ++ ys1 ++ ys2) with ((h ++ xs ++ ys1) ++ ys2)
        by (by rewrite <-!(assoc_L (++))).
      by apply same_structure_app.
Qed.

Lemma resolved_second_pass spec h c v :
  resolved h c v →
  ∀ xs, Forall is_array xs →
    ∃ fuel ys v2,
      resolveRefs fuel spec v (State (h ++ xs) c) = Ok v2 (State (h ++ xs ++ ys) c) ∧
      Forall is_array ys ∧
      same_structure (h ++ xs ++ ys) v v2.
Proof.
  induction 1 as [v Hv|l Hl|l vs Hl _ IH]; intros xs Hxs.
  - exists 1, [], v. rewrite app_nil_r.
    split_and!; [by apply resolveRefs_prim|done|apply same_value].
  - exists 1, [], (VRef l). rewrite app_nil_r.
    split_and!; [by apply resolveRefs_cached|done|apply same_value].
  - destruct (decide (l ∈ c)) as [Hc|Hc].
    { exists 1, [], (VRef l). rewrite app_nil_r.
      split_and!; [by apply resolveRefs_cached|done|apply same_value]. }
    destruct (mapM_second_pass spec h c vs IH xs Hxs)
      as (fuel & ys & vs2 & Hmap & Hys & Hsames).
    exists (S fuel), (ys ++ [Arr vs2]), (VRef (length (h ++ xs ++ ys))).
    assert ((h ++ xs) !! l = Some (Arr vs)) as Hl' by (by apply lookup_app_l_Some).
    split_and!.
    + rewrite (resolveRefs_array fuel spec l (State (h ++ xs) c) vs Hc Hl'), Hmap.
      unfold alloc_state. simpl. by rewrite <-!(assoc_L (++)).
    + apply Forall_app. split; [done|]. repeat constructor. by eexists.
    + replace (h ++ xs ++ ys ++ [Arr vs2]) with ((h ++ xs ++ ys) ++ [Arr vs2])
        by (by rewrite <-!(assoc_L (++))).
      eapply (same_array _ _ _ vs vs2).
      * apply lookup_app_l_Some. rewrite (assoc_L (++)).
        by apply lookup_app_l_Some.
      * by apply list_lookup_middle.
      * by eapply Forall2_length.
      * intros i v1 v2 Hv1 Hv2. apply same_structure_app.
        by eapply Forall2_lookup_lr.
Qed.

(** C3: once [resolveRefs] has returned, applying it again to its result
    succeeds, leaves every node of the store and the visited-node memo as
    they are (the store only gains fresh copies of arrays) and returns a
    structure identical to the one it was given. *)
Theorem resolveRefs_idempotent fuel spec v s v1 s1 :
  resolveRefs fuel spec v s = Ok v1 s1 →
  ∃ fuel' copies v2,
    resolveRefs fuel' spec v1 s1
      = Ok v2 (State (st_heap s1 ++ copies) (st_cache s1)) ∧
    Forall is_array copies ∧
    same_structure (st_heap s1 ++ copies) v1 v2.
Proof.
  intros Hrun. apply resolveRefs_resolved in Hrun as [_ Hres].
  destruct (resolved_second_pass spec _ _ _ Hres [] (Forall_nil_2 _))
    as (fuel' & ys & v2 & Hrun2 & Hys & Hsame).
  rewrite app_nil_r in Hrun2. simpl in Hrun2, Hsame.
  exists fuel', ys, v2. by destruct s1.
Qed.

(** ** Termination *)

Lemma array_finite_ext h h' v :
  heap_ext h h' → array_finite h v → array_finite h' v.
Proof.
  intros (_ & Harr & Hobj). induction 1 as [v Hv|l o Hl|l vs Hl _ IH].
  - by apply array_finite_prim.
  - destruct (Hobj _ _ Hl) as [o' Hl']. by eapply array_finite_obj.
  - eapply array_finite_arr; eauto.
Qed.

Lemma arrays_finite_ext h h' :
  arrays_finite h → heap_ext h h' →
  (∀ l vs, h' !! l = Some (Arr vs) →
     h !! l = Some (Arr vs) ∨ ∀ v, v ∈ vs → array_finite h' v) →
  arrays_finite h'.
Proof.
  intros Hfin Hext Hnew l vs Hl. destruct (Hnew _ _ Hl) as [Hold|Hvs].
  - eapply array_finite_ext; eauto.
  - by eapply array_finite_arr.
Qed.

(** Under [state_wf], whatever [resolveRefs] returns has finite nesting. *)
Lemma resolved_array_finite s v :
  state_wf s → resolved (st_heap s) (st_cache s) v → array_finite (st_heap s) v.
Proof.
  intros [Hc Hfin] Hres. destruct Hres as [v Hv|l Hl|l vs Hl _].
  - by apply array_finite_prim.
  - apply Hc in Hl. apply lookup_lt_is_Some in Hl as [[o|vs] Hx].
    + by eapply array_finite_obj.
    + by eapply Hfin.
  - by eapply Hfin.
Qed.

(** *** The measure *)

Lemma sum_list_with_le (f g : nat → nat) (ls : list nat) :
  (∀ i, i ∈ ls → f i ≤ g i) → sum_list_with f ls ≤ sum_list_with g ls.
Proof.
  induction ls as [|i ls IH]; intros Hle; simpl; [done|].
  pose proof (Hle i (list_elem_of_here _ _)).
  pose proof (IH (λ j Hj, Hle j (list_elem_of_further _ _ _ Hj))). lia.
Qed.

Lemma sum_list_with_lt (f g : nat → nat) (ls : list nat) i0 :
  i0 ∈ ls → f i0 < g i0 → (∀ i, i ∈ ls → f i ≤ g i) →
  sum_list_with f ls < sum_list_with g ls.
Proof.
  induction ls as [|i ls IH]; intros Hin Hlt Hle; simpl.
  - by apply elem_of_nil in Hin.
  - pose proof (Hle i (list_elem_of_here _ _)).
    pose proof (sum_list_with_le f g ls (λ j Hj, Hle j (list_elem_of_further _ _ _ Hj))).
    apply elem_of_cons in Hin as [->|Hin]; [lia|].
    pose proof (IH Hin Hlt (λ j Hj, Hle j (list_elem_of_further _ _ _ Hj))). lia.
Qed.

Lemma weight_unallocated s l : length (st_heap s) ≤ l → weight s l = 0.
Proof.
  intros Hl. unfold weight. destruct (decide _); [done|].
  by rewrite lookup_ge_None_2.
Qed.

Lemma pending_split s n :
  length (st_heap s) ≤ n → pending s = sum_list_with (weight s) (seq 0 n).
Proof.
  intros Hn. unfold pending.
  replace n with (length (st_heap s) + (n - length (st_heap s))) at 1 by lia.
  rewrite seq_app, sum_list_with_app. simpl.
  assert (sum_list_with (weight s)
            (seq (length (st_heap s)) (n - length (st_heap s))) ≤ 0) as Hzero.
  { etrans; [apply (sum_list_with_le _ (λ _, 0))|].
    - intros i Hi. apply elem_of_seq in Hi. rewrite weight_unallocated; lia.
    - clear. induction (seq _ _); simpl; lia. }
  lia.
Qed.

Lemma pending_le s s' :
  length (st_heap s) ≤ length (st_heap s') →
  (∀ l, weight s' l ≤ weight s l) → pending s' ≤ pending s.
Proof.
  intros Hlen Hw. rewrite (pending_split s (length (st_heap s'))) by done.
  unfold pending. by apply sum_list_with_le.
Qed.

Lemma pending_lt s s' l0 :
  length (st_heap s) ≤ length (st_heap s') →
  (∀ l, weight s' l ≤ weight s l) → weight s' l0 < weight s l0 →
  pending s' < pending s.
Proof.
  intros Hlen Hw Hlt. rewrite (pending_split s (length (st_heap s'))) by done.
  unfold pending. apply (sum_list_with_lt _ _ _ l0); [|done|done].
  apply elem_of_seq. split; [lia|]. simpl.
  destruct (decide (l0 < length (st_heap s'))) as [|Hge]; [done|].
  rewrite (weight_unallocated s l0) in Hlt by lia. lia.
Qed.

Lemma weight_alloc s vs l :
  weight (alloc_state s (Arr vs)) l ≤ weight s l.
Proof.
  unfold weight, alloc_state. simpl.
  destruct (decide (l ∈ st_cache s)); [done|].
  destruct (decide (l < length (st_heap s))) as [Hlt|Hge].
  - by rewrite lookup_app_l.
  - destruct (decide (l = length (st_heap s))) as [->|Hne].
    + rewrite list_lookup_middle by done. lia.
    + rewrite lookup_ge_None_2; [lia|]. rewrite length_app. simpl. lia.
Qed.

Lemma weight_visit s l l' : weight (visit_state s l) l' ≤ weight s l'.
Proof.
  unfold weight, visit_state. simpl.
  destruct (decide (l' ∈ {[l]} ∪ st_cache s)); [lia|].
  rewrite decide_False by set_solver. done.
Qed.

Lemma weight_visit_lt s l o :
  l ∉ st_cache s → st_heap s !! l = Some (Obj o) →
  weight (visit_state s l) l < weight s l.
Proof.
  intros Hc Hl. unfold weight, visit_state. simpl.
  rewrite decide_True by set_solver. rewrite decide_False, Hl by done.
  destruct (truthy _); lia.
Qed.

Lemma weight_write s l o l' :
  l ∈ st_cache s → weight (write_state s l o) l' = weight s l'.
Proof.
  intros Hc. unfold weight, write_state. simpl.
  destruct (decide (l' ∈ st_cache s)); [done|].
  rewrite list_lookup_insert_ne; [done|]. congruence.
Qed.

Lemma weight_merge s l o resolved l' :
  st_heap s !! l = Some (Obj o) →
  weight (merge_state s l o resolved) l' ≤ weight s l'.
Proof.
  intros Hl. unfold weight, merge_state. simpl.
  destruct (decide (l' ∈ {[length (st_heap s)]} ∪ st_cache s)) as [|Hnc]; [lia|].
  rewrite decide_False by set_solver.
  assert (l' ≠ length (st_heap s)) by set_solver.
  destruct (decide (l' < length (st_heap s))) as [Hlt|Hge].
  - rewrite lookup_app_l by (by rewrite length_insert).
    destruct (decide (l = l')) as [->|Hne].
    + rewrite list_lookup_insert_eq, Hl by done.
      rewrite obj_get_delete. simpl. destruct (truthy _); lia.
    + by rewrite list_lookup_insert_ne.
  - rewrite lookup_ge_None_2; [lia|].
    rewrite length_app, length_insert. simpl. lia.
Qed.

Lemma weight_merge_lt s l o r resolved :
  l ∉ st_cache s → st_heap s !! l = Some (Obj o) →
  obj_get "$ref" o = Some (VStr r) → r ≠ "" →
  weight (merge_state s l o resolved) l < weight s l.
Proof.
  intros Hc Hl Hget Hr. unfold weight, merge_state. simpl.
  pose proof (lookup_lt_Some _ _ _ Hl) as Hlt.
  rewrite (decide_False (P := l ∈ st_cache s)), Hl, Hget by done.
  assert (truthy (default VUndef (Some (VStr r))) = true) as ->
    by (by destruct r).
  destruct (decide (l ∈ _)); [lia|].
  rewrite lookup_app_l by (by rewrite length_insert).
  rewrite list_lookup_insert_eq by done.
  rewrite obj_get_delete. simpl. lia.
Qed.

Lemma resolveRefs_advances fuel spec v s v' s' :
  state_wf s → resolveRefs fuel spec v s = Ok v' s' →
  state_wf s' ∧ advances s s'.
Proof.
  intros Hwf Hrun.
  apply (resolveRefs_respects state_wf advances
           (λ s v, resolved (st_heap s) (st_cache s) v)) in Hrun; [tauto|..|done].
  - intros s1. split; [apply state_ext_refl|done].
  - intros s1 s2 s3 [? ?] [? ?]. split; [by eapply state_ext_trans|lia].
  - by intros s1 s2 [[_ ?] _].
  - intros s1 s2 v1 [[? ?] _]. by apply resolved_mono.
  - intros. by apply resolved_prim.
  - intros. by apply resolved_cached.
  - intros s1 vs [Hc Hfin] Hvs.
    assert (∀ v, v ∈ vs → array_finite (st_heap s1 ++ [Arr vs]) v) as Hvs'.
    { intros v1 Hv1. rewrite Forall_forall in Hvs.
      eapply array_finite_ext; [apply heap_ext_app|].
      apply resolved_array_finite; [done|by apply Hvs]. }
    split_and!.
    + split.
      * intros l Hl. simpl in *. rewrite length_app. apply Hc in Hl. lia.
      * eapply arrays_finite_ext; [done|apply heap_ext_app|]. simpl.
        intros l vs1 Hl. destruct (decide (l < length (st_heap s1))) as [Hlt|Hge].
        -- left. by rewrite lookup_app_l in Hl.
        -- right. apply lookup_lt_Some in Hl as Hlt. rewrite length_app in Hlt.
           simpl in Hlt. assert (l = length (st_heap s1)) as -> by lia.
           rewrite list_lookup_middle in Hl by done. by simplify_eq.
    + split; [apply state_ext_alloc|]. apply pending_le.
      * simpl. rewrite length_app. lia.
      * intros l. apply weight_alloc.
    + eapply resolved_array.
      * simpl. by apply list_lookup_middle.
      * intros v1 Hv1. rewrite Forall_forall in Hvs.
        eapply resolved_mono; [apply heap_ext_app|done|by apply Hvs].
  - intros s1 l o [Hc Hfin] Hnc Hl Href. split.
    + split; [|done]. intros l1 Hl1. simpl in *.
      apply elem_of_union in Hl1 as [->%elem_of_singleton|?]; [|by apply Hc].
      by eapply lookup_lt_Some.
    + split; [apply state_ext_visit|]. apply pending_le; [done|].
      intros. apply weight_visit.
  - intros s1 l o r res1 [Hc Hfin] Hnc Hl Hget Hr. split.
    + split.
      * intros l1 Hl1. simpl in *. rewrite length_app, length_insert. simpl.
        apply elem_of_union in Hl1 as [->%elem_of_singleton|?]; [lia|].
        assert (l1 < length (st_heap s1)) by (by apply Hc). lia.
      * eapply arrays_finite_ext; [done|by eapply state_ext_merge|]. simpl.
        intros l1 vs1 Hl1. left.
        destruct (decide (l1 < length (st_heap s1))) as [Hlt|Hge].
        -- rewrite lookup_app_l in Hl1 by (by rewrite length_insert).
           destruct (decide (l = l1)) as [->|Hne].
           ++ by rewrite list_lookup_insert_eq in Hl1.
           ++ by rewrite list_lookup_insert_ne in Hl1.
        -- apply lookup_lt_Some in Hl1 as Hlt.
           rewrite length_app, length_insert in Hlt. simpl in Hlt.
           assert (l1 = length (<[l:=Obj (obj_delete "$ref" o)]> (st_heap s1))) as ->
             by (rewrite length_insert; lia).
           by rewrite list_lookup_middle in Hl1.
    + split; [by eapply state_ext_merge|]. apply pending_le.
      * simpl. rewrite length_app, length_insert. lia.
      * intros. by apply weight_merge.
  - intros s1 l o k v1 [Hc Hfin] Hin Hl HQ. split.
    + split.
      * intros l1 Hl1. simpl in *. rewrite length_insert. by apply Hc.
      * eapply arrays_finite_ext; [done|by eapply heap_ext_write|]. simpl.
        intros l1 vs1 Hl1. left. destruct (decide (l = l1)) as [->|Hne].
        -- rewrite list_lookup_insert_eq in Hl1 by (by eapply lookup_lt_Some). done.
        -- by rewrite list_lookup_insert_ne in Hl1.
    + split; [by eapply state_ext_write|]. apply pending_le.
      * simpl. by rewrite length_insert.
      * intros l1. by rewrite weight_write.
Qed.

Lemma advances_refl s : advances s s.
Proof. split; [apply state_ext_refl|done]. Qed.

Lemma advances_trans s1 s2 s3 : advances s1 s2 → advances s2 s3 → advances s1 s3.
Proof. intros [? ?] [? ?]. split; [by eapply state_ext_trans|lia]. Qed.

Lemma heap_ext_arrays_only h h' :
  heap_ext h h' →
  (∀ l vs, h' !! l = Some (Arr vs) → h !! l = Some (Arr vs)) →
  arrays_finite h → arrays_finite h'.
Proof.
  intros Hext Hold Hfin. eapply arrays_finite_ext; [done..|].
  intros l vs Hl. left. by apply Hold.
Qed.

(** The three state changes a node goes through, seen from the measure. *)
Lemma visit_state_wf s l o :
  state_wf s → l ∉ st_cache s → st_heap s !! l = Some (Obj o) →
  state_wf (visit_state s l) ∧ pending (visit_state s l) < pending s.
Proof.
  intros [Hc Hfin] Hnc Hl. split_and!.
  - split; [|done]. intros l1 Hl1. simpl in *.
    apply elem_of_union in Hl1 as [->%elem_of_singleton|?]; [|by apply Hc].
    by eapply lookup_lt_Some.
  - apply (pending_lt _ _ l); [done| |by eapply weight_visit_lt].
    intros. apply weight_visit.
Qed.

Lemma merge_state_wf s l o r resolved :
  state_wf s → l ∉ st_cache s → st_heap s !! l = Some (Obj o) →
  obj_get "$ref" o = Some (VStr r) → r ≠ "" →
  state_wf (merge_state s l o resolved) ∧
  pending (merge_state s l o resolved) < pending s.
Proof.
  intros [Hc Hfin] Hnc Hl Hget Hr. split_and!.
  - split.
    + intros l1 Hl1. simpl in *. rewrite length_app, length_insert. simpl.
      apply elem_of_union in Hl1 as [->%elem_of_singleton|?]; [lia|].
      assert (l1 < length (st_heap s)) by (by apply Hc). lia.
    + eapply heap_ext_arrays_only; [by eapply state_ext_merge| |done]. simpl.
      intros l1 vs1 Hl1.
      destruct (decide (l1 < length (st_heap s))) as [Hlt|Hge].
      * rewrite lookup_app_l in Hl1 by (by rewrite length_insert).
        destruct (decide (l = l1)) as [->|Hne].
        -- by rewrite list_lookup_insert_eq in Hl1.
        -- by rewrite list_lookup_insert_ne in Hl1.
      * apply lookup_lt_Some in Hl1 as Hlt.
        rewrite length_app, length_insert in Hlt. simpl in Hlt.
        assert (l1 = length (<[l:=Obj (obj_delete "$ref" o)]> (st_heap s))) as ->
          by (rewrite length_insert; lia).
        by rewrite list_lookup_middle in Hl1.
  - apply (pending_lt _ _ l).
    + simpl. rewrite length_app, length_insert. lia.
    + intros. by apply weight_merge.
    + by eapply weight_merge_lt.
Qed.

Lemma write_state_wf s l o o' :
  state_wf s → l ∈ st_cache s → st_heap s !! l = Some (Obj o) →
  state_wf (write_state s l o') ∧ advances s (write_state s l o').
Proof.
  intros [Hc Hfin] Hin Hl. split.
  - split.
    + intros l1 Hl1. simpl in *. rewrite length_insert. by apply Hc.
    + eapply heap_ext_arrays_only; [by eapply heap_ext_write| |done]. simpl.
      intros l1 vs1 Hl1. destruct (decide (l = l1)) as [->|Hne].
      * rewrite list_lookup_insert_eq in Hl1 by (by eapply lookup_lt_Some). done.
      * by rewrite list_lookup_insert_ne in Hl1.
  - split; [by eapply state_ext_write|]. apply pending_le.
    + simpl. by rewrite length_insert.
    + intros l1. by rewrite weight_write.
Qed.

Lemma mapM_terminates spec vs :
  ∀ s, state_wf s →
    (∀ v, v ∈ vs → ∀ s1, state_wf s1 → advances s s1 → terminates spec v s1) →
    ∃ fuel, settled (mapM (resolveRefs fuel spec) vs s).
Proof.
  induction vs as [|v vs IH]; intros s Hwf Hvs.
  - by exists 0.
  - destruct (Hvs v (list_elem_of_here _ _) s Hwf (advances_refl s)) as [fuel1 Hs1].
    destruct (resolveRefs fuel1 spec v s) as [v' s1|e|] eqn:Hv; [| |done].
    + destruct (resolveRefs_advances _ _ _ _ _ _ Hwf Hv) as [Hwf1 Hadv1].
      destruct (IH s1 Hwf1) as [fuel2 Hs2].
      { intros v1 Hv1 s2 Hwf2 Hadv2.
        apply Hvs; [by apply list_elem_of_further|done|by eapply advances_trans]. }
      exists (fuel1 `max` fuel2). simpl.
      assert (resolveRefs (fuel1 `max` fuel2) spec v s = Ok v' s1) as Hv'.
      { rewrite <-Hv. apply resolveRefs_fuel_mono; [lia|]. by rewrite Hv. }
      rewrite (bind_run _ _ _ _ Hv').
      assert (mapM (resolveRefs (fuel1 `max` fuel2) spec) vs s1
              = mapM (resolveRefs fuel2 spec) vs s1) as Hrest.
      { apply mapM_refines; [|done].
        intros v1 s2 Hs. apply resolveRefs_fuel_mono; [lia|done]. }
      destruct (mapM (resolveRefs fuel2 spec) vs s1) as [vs' s2|e|] eqn:Hvs2; [| |done].
      * by rewrite (bind_run _ _ _ _ Hrest).
      * by rewrite (bind_run _ _ _ _ Hrest).
    + exists fuel1. simpl. by rewrite (bind_run _ _ _ _ Hv).
Qed.

Lemma resolve_fields_terminates spec l ks :
  ∀ s, state_wf s → l ∈ st_cache s →
    (∀ v s1, state_wf s1 → advances s s1 → terminates spec v s1) →
    ∃ fuel, settled (resolve_fields (resolveRefs fuel spec) l ks s).
Proof.
  induction ks as [|k ks IH]; intros s Hwf Hl Hall.
  - by exists 0.
  - simpl. destruct (load_obj_cases l s) as [(o & Hlo & Ho)|Ho];
      [|exists 0; by rewrite (bind_run _ _ _ _ Ho)].
    destruct (Hall (default VUndef (obj_get k o)) s Hwf (advances_refl s))
      as [fuel1 Hs1].
    destruct (resolveRefs fuel1 spec _ s) as [v' s1|e|] eqn:Hv; [| |done].
    + destruct (resolveRefs_advances _ _ _ _ _ _ Hwf Hv) as [Hwf1 Hadv1].
      assert (l ∈ st_cache s1) as Hl1 by (destruct Hadv1 as [[_ ?] _]; set_solver).
      destruct (load_obj_cases l s1) as [(o' & Hlo1 & Ho1)|Ho1]; cycle 1.
      { exists fuel1. rewrite (bind_run _ _ _ _ Ho), (bind_run _ _ _ _ Hv).
        by rewrite (bind_run _ _ _ _ Ho1). }
      destruct (write_state_wf s1 l o' (obj_set k v' o') Hwf1 Hl1 Hlo1) as [Hwf2 Hadv2].
      destruct (IH _ Hwf2 Hl1) as [fuel2 Hs2].
      { intros v1 s3 Hwf3 Hadv3. apply Hall; [done|].
        eapply advances_trans; [done|]. by eapply advances_trans. }
      exists (fuel1 `max` fuel2).
      assert (resolveRefs (fuel1 `max` fuel2) spec (default VUndef (obj_get k o)) s
              = Ok v' s1) as Hv'.
      { rewrite <-Hv. apply resolveRefs_fuel_mono; [lia|]. by rewrite Hv. }
      rewrite (bind_run _ _ _ _ Ho), (bind_run _ _ _ _ Hv'), (bind_run _ _ _ _ Ho1).
      rewrite (bind_run _ _ _ _ eq_refl). unfold store.
      fold (write_state s1 l (obj_set k v' o')).
      rewrite (resolve_fields_refines (resolveRefs fuel2 spec)); [done| |done].
      intros v1 s3 Hs. apply resolveRefs_fuel_mono; [lia|done].
    + exists fuel1. by rewrite (bind_run _ _ _ _ Ho), (bind_run _ _ _ _ Hv).
Qed.

(** A node terminates once everything with less pending work does. *)
Lemma node_terminates spec n l o s :
  (∀ m, m < n → ∀ s, pending s ≤ m → state_wf s → ∀ v, terminates spec v s) →
  pending s ≤ n → state_wf s → st_heap s !! l = Some (Obj o) →
  terminates spec (VRef l) s.
Proof.
  intros IHn Hn Hwf Hl.
  destruct (resolveRefs_shape spec (VRef l) s)
    as [Hret|e Hthrow|l' vs Heq Hc Hl'|l' o' Heq Hc Hl' Hno
       |l' o' r resolved Heq Hc Hl' Hget Hr Hres].
  - exists 1. by rewrite Hret.
  - exists 1. by rewrite Hthrow.
  - congruence.
  - assert (l' = l) as -> by congruence. assert (o' = o) as -> by congruence.
    destruct (visit_state_wf s l o Hwf Hc Hl) as [Hwf1 Hlt].
    destruct (resolve_fields_terminates spec l (obj_keys o) (visit_state s l) Hwf1)
      as [fuel Hs].
    { simpl. set_solver. }
    { intros v s1 Hwf2 [_ Hle]. apply (IHn (pending (visit_state s l))); [lia|lia|done]. }
    exists (S fuel). rewrite (resolveRefs_visit _ _ _ _ _ Hc Hl Hno).
    by destruct (resolve_fields _ _ _ _).
  - assert (l' = l) as -> by congruence. assert (o' = o) as -> by congruence.
    destruct (merge_state_wf s l o r resolved Hwf Hc Hl Hget Hr) as [Hwf1 Hlt].
    destruct (resolve_fields_terminates spec (length (st_heap s))
                (obj_keys (merged_node (st_heap s) l o resolved))
                (merge_state s l o resolved) Hwf1) as [fuel Hs].
    { simpl. set_solver. }
    { intros v s1 Hwf2 [_ Hle].
      apply (IHn (pending (merge_state s l o resolved))); [lia|lia|done]. }
    exists (S fuel). rewrite (resolveRefs_merge _ _ _ _ _ _ _ Hc Hl Hget Hr Hres).
    by destruct (resolve_fields _ _ _ _).
Qed.

Lemma terminates_below spec n :
  ∀ s, pending s ≤ n → state_wf s → ∀ v, terminates spec v s.
Proof.
  induction n as [n IHn] using lt_wf_ind. intros s Hn Hwf v.
  assert (∀ v, array_finite (st_heap s) v →
            ∀ s1, state_wf s1 → advances s s1 → terminates spec v s1) as Hfinite.
  { clear v. induction 1 as [v Hv|l o Hl|l vs Hl _ IH]; intros s1 Hwf1 Hadv.
    - exists 1. by rewrite resolveRefs_prim.
    - destruct Hadv as [[(_ & _ & Hobj) _] Hle].
      destruct (Hobj _ _ Hl) as [o' Hl'].
      apply (node_terminates spec n l o'); [|lia|done|done].
      intros m Hm s2 Hs2 Hwf2 v. by apply (IHn m).
    - destruct (decide (l ∈ st_cache s1)) as [Hc|Hc].
      { exists 1. by rewrite resolveRefs_cached. }
      assert (st_heap s1 !! l = Some (Arr vs)) as Hl1.
      { destruct Hadv as [[(_ & Harr & _) _] _]. by apply Harr. }
      destruct (mapM_terminates spec vs s1 Hwf1) as [fuel Hs].
      { intros v Hv s2 Hwf2 Hadv2. apply IH; [done|done|].
        by eapply advances_trans. }
      exists (S fuel). rewrite (resolveRefs_array _ _ _ _ _ Hc Hl1).
      by destruct (mapM _ _ _). }
  destruct (val_ref_or_prim v) as [[l ->]|Hprim].
  2: { exists 1. by rewrite resolveRefs_prim. }
  destruct (st_heap s !! l) as [[o|vs]|] eqn:Hl.
  - apply (Hfinite _ (array_finite_obj _ _ _ Hl) s Hwf (advances_refl s)).
  - destruct Hwf as [Hc Hfin].
    apply (Hfinite _ (Hfin _ _ Hl) s (conj Hc Hfin) (advances_refl s)).
  - exists 1. simpl. destruct (decide _); [done|]. by rewrite Hl.
Qed.

Lemma self_containing_array_diverges fuel :
  resolveRefs fuel (VRef 1) (VRef 0) (State [Arr [VRef 0]; Obj []] ∅) = OutOfFuel.
Proof.
  induction fuel as [|fuel IH]; [done|].
  rewrite (resolveRefs_array fuel (VRef 1) 0 (State [Arr [VRef 0]; Obj []] ∅) [VRef 0]);
    [|set_solver|done].
  simpl. by rewrite (bind_run _ _ _ _ IH).
Qed.

(** C4, counterexample: an array that is its own first element,
    [a = []; a[0] = a], resolved against the empty document [{}] with an
    empty memo.  Arrays are never recorded in [dataCache], so every call maps
    over the array again: no amount of fuel lets the model return (the
    JavaScript stack overflows). *)
Lemma resolveRefs_terminates_counterexample :
  ¬ terminates (VRef 1) (VRef 0) (State [Arr [VRef 0]; Obj []] ∅).
Proof.
  intros [fuel Hs]. apply Hs. apply self_containing_array_diverges.
Qed.

(** C4 (amended): on every store in which no array contains itself
    through arrays alone, and with a memo that only holds nodes of the
    store, [resolveRefs] terminates: from some fuel on the outcome is the
    same and is a result or an exception.  A node already in the memo is
    returned unchanged, which is what bounds the recursion through nodes. *)
Theorem resolveRefs_terminates spec v s :
  state_wf s →
  (∃ fuel r, settled r ∧ ∀ fuel', fuel ≤ fuel' → resolveRefs fuel' spec v s = r) ∧
  (∀ l fuel, v = VRef l → l ∈ st_cache s → resolveRefs (S fuel) spec v s = Ok v s).
Proof.
  intros Hwf. split.
  - destruct (terminates_below spec (pending s) s (le_n _) Hwf v) as [fuel Hs].
    exists fuel, (resolveRefs fuel spec v s). split; [done|].
    intros fuel' Hle. by apply resolveRefs_fuel_mono.
  - intros l fuel -> Hl. by apply resolveRefs_cached.
Qed.

Lemma resolveRefs_terminates_witness :
  (∃ fuel r, settled r ∧
     ∀ fuel', fuel ≤ fuel' →
       resolveRefs fuel' (VRef 0) (VRef 3) (State mutual_doc ∅) = r) ∧
  (∀ l fuel, VRef 3 = VRef l → l ∈ (∅ : gset nat) →
     resolveRefs (S fuel) (VRef 0) (VRef 3) (State mutual_doc ∅)
       = Ok (VRef 3) (State mutual_doc ∅)).
Proof.
  apply (resolveRefs_terminates (VRef 0) (VRef 3) (State mutual_doc ∅)).
  split.
  - intros l Hl. simpl in Hl. set_solver.
  - intros l vs Hl.
    destruct l as [|[|[|[|[|l]]]]]; simpl in Hl; simplify_eq.
    eapply array_finite_arr; [done|]. intros v Hv.
    apply elem_of_cons in Hv as [->|Hv]; [by eapply array_finite_obj|].
    apply elem_of_cons in Hv as [->|Hv]; [by eapply array_finite_obj|].
    by apply elem_of_nil in Hv.
Defined.

Lemma resolveRefs_idempotent_witness :
  ∃ v1 s1,
    resolveRefs 8 (VRef 0) (VRef 3) (State mutual_doc ∅) = Ok v1 s1 ∧
    ∃ fuel' copies v2,
      resolveRefs fuel' (VRef 0) v1 s1
        = Ok v2 (State (st_heap s1 ++ copies) (st_cache s1)) ∧
      Forall is_array copies ∧
      same_structure (st_heap s1 ++ copies) v1 v2.
Proof.
  eexists _, _. split; [vm_compute; reflexivity|].
  eapply (resolveRefs_idempotent 8 (VRef 0) (VRef 3) (State mutual_doc ∅)).
  vm_compute. reflexivity.
Defined.

(** ** Reference merging *)


(** ** Visited nodes are left alone *)

(** A call never writes to a node that is in the memo when it starts. *)
Lemma mapM_frame (f : val → M val) vs :
  (∀ v s v' s', cache_wf s → f v s = Ok v' s' →
     frame s s' ∧ cache_wf s' ∧ state_ext s s') →
  ∀ s vs' s', cache_wf s → mapM f vs s = Ok vs' s' →
    frame s s' ∧ cache_wf s' ∧ state_ext s s'.
Proof.
  intros Hf. induction vs as [|v vs IH]; intros s vs' s' Hwf Hrun; simpl in Hrun.
  - injection Hrun as <- <-. split_and!; [done|done|apply state_ext_refl].
  - apply bind_Ok in Hrun as (v' & s1 & Hv & Hrun).
    apply bind_Ok in Hrun as (vs1 & s2 & Hvs & Hrun).
    injection Hrun as <- <-.
    destruct (Hf _ _ _ _ Hwf Hv) as (Hfr1 & Hwf1 & Hext1).
    destruct (IH _ _ _ Hwf1 Hvs) as (Hfr2 & Hwf2 & Hext2).
    split_and!; [|done|by eapply state_ext_trans].
    intros l Hl. rewrite Hfr2, Hfr1; [done|done|]. destruct Hext1 as [_ ?]. set_solver.
Qed.

Lemma resolve_fields_frame (f : val → M val) l ks :
  (∀ v s v' s', cache_wf s → f v s = Ok v' s' →
     frame s s' ∧ cache_wf s' ∧ state_ext s s') →
  ∀ s u s', cache_wf s → l ∈ st_cache s → resolve_fields f l ks s = Ok u s' →
    (∀ l', l' ∈ st_cache s → l' ≠ l → st_heap s' !! l' = st_heap s !! l') ∧
    cache_wf s' ∧ state_ext s s'.
Proof.
  intros Hf. induction ks as [|k ks IH]; intros s u s' Hwf Hl Hrun; simpl in Hrun.
  - injection Hrun as <- <-. split_and!; [done|done|apply state_ext_refl].
  - apply bind_Ok in Hrun as (o & s0 & Ho & Hrun).
    apply load_obj_Ok in Ho as [Ho ->].
    apply bind_Ok in Hrun as (v' & s1 & Hv & Hrun).
    apply bind_Ok in Hrun as (o' & s1' & Ho' & Hrun).
    apply load_obj_Ok in Ho' as [Ho' ->].
    apply bind_Ok in Hrun as ([] & s2 & Hst & Hrun).
    injection Hst as <-.
    destruct (Hf _ _ _ _ Hwf Hv) as (Hfr1 & Hwf1 & Hext1).
    assert (st_cache s ⊆ st_cache s1) as Hsub by (by destruct Hext1).
    assert (cache_wf (write_state s1 l (obj_set k v' o'))) as Hwf2.
    { intros l1 Hl1. simpl in *. rewrite length_insert. by apply Hwf1. }
    destruct (IH (write_state s1 l (obj_set k v' o')) _ _ Hwf2 (Hsub _ Hl) Hrun)
      as (Hfr3 & Hwf3 & Hext3).
    split_and!; [|done|].
    + intros l' Hl' Hne. rewrite Hfr3 by (simpl; set_solver). simpl.
      rewrite list_lookup_insert_ne by done. by apply Hfr1.
    + eapply state_ext_trans; [done|].
      eapply state_ext_trans; [by eapply state_ext_write|done].
Qed.

Lemma resolveRefs_frame fuel spec :
  ∀ v s v' s', cache_wf s → resolveRefs fuel spec v s = Ok v' s' →
    frame s s' ∧ cache_wf s' ∧ state_ext s s'.
Proof.
  induction fuel as [|fuel IH]; intros v s v' s' Hwf Hrun; [done|].
  destruct (resolveRefs_shape spec v s)
    as [Hret|e Hthrow|l vs -> Hc Hl|l o -> Hc Hl Hno|l o r target -> Hc Hl Hget Hr Hres].
  - rewrite Hret in Hrun. injection Hrun as <- <-.
    split_and!; [done|done|apply state_ext_refl].
  - by rewrite Hthrow in Hrun.
  - rewrite (resolveRefs_array _ _ _ _ _ Hc Hl) in Hrun.
    destruct (mapM _ _ _) as [vs' s1| |] eqn:Hmap; [|done..].
    injection Hrun as <- <-.
    destruct (mapM_frame _ _ IH _ _ _ Hwf Hmap) as (Hfr1 & Hwf1 & Hext1).
    split_and!.
    + intros l' Hl'. simpl. rewrite <-Hfr1 by done.
      apply lookup_app_l. apply Hwf1. destruct Hext1 as [_ ?]. set_solver.
    + intros l' Hl'. simpl in *. rewrite length_app. apply Hwf1 in Hl'. lia.
    + eapply state_ext_trans; [done|apply state_ext_alloc].
  - rewrite (resolveRefs_visit _ _ _ _ _ Hc Hl Hno) in Hrun.
    destruct (resolve_fields _ _ _ _) as [u s1| |] eqn:Hloop; [|done..].
    injection Hrun as <- <-.
    assert (cache_wf (visit_state s l)) as Hwf1.
    { intros l1 Hl1. simpl in *.
      apply elem_of_union in Hl1 as [->%elem_of_singleton|?]; [|by apply Hwf].
      by eapply lookup_lt_Some. }
    assert (l ∈ st_cache (visit_state s l)) as Hin by (simpl; set_solver).
    destruct (resolve_fields_frame _ _ _ IH _ _ _ Hwf1 Hin Hloop)
      as (Hfr & Hwf2 & Hext).
    split_and!; [|done|].
    + intros l' Hl'. rewrite Hfr; [done|simpl; set_solver|set_solver].
    + eapply state_ext_trans; [apply state_ext_visit|done].
  - rewrite (resolveRefs_merge _ _ _ _ _ _ _ Hc Hl Hget Hr Hres) in Hrun.
    destruct (resolve_fields _ _ _ _) as [u s1| |] eqn:Hloop; [|done..].
    injection Hrun as <- <-.
    assert (cache_wf (merge_state s l o target)) as Hwf1.
    { intros l1 Hl1. simpl in *. rewrite length_app, length_insert. simpl.
      apply elem_of_union in Hl1 as [->%elem_of_singleton|?]; [lia|].
      assert (l1 < length (st_heap s)) by (by apply Hwf). lia. }
    assert (length (st_heap s) ∈ st_cache (merge_state s l o target)) as Hin
      by (simpl; set_solver).
    destruct (resolve_fields_frame _ _ _ IH _ _ _ Hwf1 Hin Hloop)
      as (Hfr & Hwf2 & Hext).
    split_and!; [|done|].
    + intros l' Hl'. pose proof (Hwf _ Hl') as Hlt.
      rewrite Hfr; [|simpl; set_solver|lia]. simpl.
      rewrite lookup_app_l by (by rewrite length_insert).
      rewrite list_lookup_insert_ne; [done|]. set_solver.
    + eapply state_ext_trans; [by eapply state_ext_merge|done].
Qed.

(** ** The node returned for a reference *)

(** The loop over the fields of a visited node [m] keeps its keys and
    every field that holds a primitive. *)
Lemma resolve_fields_keeps fuel spec m ks :
  ∀ s o u s',
    cache_wf s → m ∈ st_cache s → st_heap s !! m = Some (Obj o) →
    (∀ k, k ∈ ks → k ∈ obj_keys o) →
    resolve_fields (resolveRefs fuel spec) m ks s = Ok u s' →
    ∃ o', st_heap s' !! m = Some (Obj o') ∧ obj_keys o' = obj_keys o ∧
          ∀ k v, obj_get k o = Some v → (∀ l, v ≠ VRef l) → obj_get k o' = Some v.
Proof.
  induction ks as [|k ks IH]; intros s o u s' Hwf Hm Ho Hks Hrun; simpl in Hrun.
  - injection Hrun as <- <-. by exists o.
  - apply bind_Ok in Hrun as (o0 & s0 & Ho0 & Hrun).
    apply load_obj_Ok in Ho0 as [Ho0 ->].
    assert (o0 = o) as -> by congruence.
    apply bind_Ok in Hrun as (v' & s1 & Hv & Hrun).
    apply bind_Ok in Hrun as (o1 & s1' & Ho1 & Hrun).
    apply load_obj_Ok in Ho1 as [Ho1 ->].
    apply bind_Ok in Hrun as ([] & s2 & Hst & Hrun).
    injection Hst as <-.
    destruct (resolveRefs_frame _ _ _ _ _ _ Hwf Hv) as (Hfr & Hwf1 & [_ Hsub]).
    assert (o1 = o) as -> by (rewrite Hfr, Ho in Ho1 by done; congruence).
    assert (k ∈ obj_keys o) as Hk by (apply Hks, list_elem_of_here).
    assert (cache_wf (write_state s1 m (obj_set k v' o))) as Hwf2.
    { intros l1 Hl1. simpl in *. rewrite length_insert. by apply Hwf1. }
    destruct (IH (write_state s1 m (obj_set k v' o)) (obj_set k v' o) u s' Hwf2)
      as (o' & Ho' & Hkeys & Hprims); [by apply Hsub| | |done|].
    { simpl. apply list_lookup_insert_eq. by eapply lookup_lt_Some. }
    { intros k0 Hk0. rewrite obj_keys_set_present by (by apply elem_of_obj_keys).
      apply Hks. by apply list_elem_of_further. }
    exists o'. split_and!; [done| |].
    + rewrite Hkeys. apply obj_keys_set_present. by apply elem_of_obj_keys.
    + intros k0 v0 Hget Hprim. apply Hprims; [|done].
      rewrite obj_get_set. destruct (decide (k0 = k)) as [->|]; [|done].
      rewrite Hget in Hv. simpl in Hv.
      destruct fuel as [|fuel]; [done|].
      rewrite resolveRefs_prim in Hv by done. by injection Hv as <- _.
Qed.


(** The specification's own example: target [{a:1, b:2}], referencing node
    [{$ref: '#/definitions/T', b:3}]; the result is [{a:1, b:3}]. *)
Example merge_precedence_example :
  let h := [ Obj [("definitions", VRef 1)];
             Obj [("T", VRef 2)];
             Obj [("a", VNum 1); ("b", VNum 2)];
             Obj [("$ref", VStr "#/definitions/T"); ("b", VNum 3)] ] in
  ∃ s', resolveRefs 2 (VRef 0) (VRef 3) (State h ∅) = Ok (VRef 4) s' ∧
        st_heap s' !! 4 = Some (Obj [("a", VNum 1); ("b", VNum 3)]).
Proof. eexists. split; [vm_compute; reflexivity|reflexivity]. Qed.

(** C1, at the failing input: resolving the node
    [{$ref: '#/definitions/A', b: 3}] against [chained_doc] returns the
    merged node [{$ref: '#/definitions/B', b: 3}]: the sibling [b] is kept,
    but the merged node still carries a reference field, the one copied
    from the target, and the fields of [B] are not there. *)
Theorem resolveRefs_chained_reference_kept :
  ∃ s', resolveRefs 3 (VRef 0) (VRef 4) (State chained_doc ∅) = Ok (VRef 5) s' ∧
        st_heap s' !! 5 =
          Some (Obj [("$ref", VStr "#/definitions/B"); ("b", VNum 3)]).
Proof. eexists. split; [vm_compute; reflexivity|reflexivity]. Qed.

(** ** [applyDefaults] *)

(** C9: on a document (an object of the store), [applyDefaults] returns
    the document itself; [basePath] becomes ['/'] exactly when it was absent
    or falsy and keeps its value otherwise; no other field of the document,
    no other object of the store and nothing in the memo changes. *)
Theorem applyDefaults_spec (l : addr) (o : obj val) (s : state) :
  st_heap s !! l = Some (Obj o) →
  let basePath := default VUndef (obj_get "basePath" o) in
  ∃ s' o',
    applyDefaults (VRef l) s = Ok (VRef l) s' ∧
    st_cache s' = st_cache s ∧
    (∀ l', l' ≠ l → st_heap s' !! l' = st_heap s !! l') ∧
    st_heap s' !! l = Some (Obj o') ∧
    obj_get "basePath" o' = Some (if truthy basePath then basePath else VStr "/") ∧
    (∀ k, k ≠ "basePath" → obj_get k o' = obj_get k o) ∧
    (truthy basePath = true → s' = s).
Proof.
  intros Hl basePath. unfold applyDefaults. simpl. rewrite Hl. fold basePath.
  destruct (truthy basePath) eqn:Ht.
  - exists s, o. split_and!; try done.
    subst basePath. destruct (obj_get "basePath" o); [done|discriminate].
  - eexists _, _. split_and!; [done|done| | | | |done].
    + intros l' Hne. simpl. by rewrite list_lookup_insert_ne.
    + simpl. apply list_lookup_insert_eq. by eapply lookup_lt_Some.
    + by rewrite obj_get_set, decide_True.
    + intros k Hk. by rewrite obj_get_set, decide_False.
Qed.

Lemma applyDefaults_spec_witness :
  let s := State [Obj [("swagger", VStr "2.0")]] ∅ in
  let basePath := default VUndef (obj_get "basePath" [("swagger", VStr "2.0")]) in
  ∃ s' o',
    applyDefaults (VRef 0) s = Ok (VRef 0) s' ∧
    st_cache s' = st_cache s ∧
    (∀ l', l' ≠ 0 → st_heap s' !! l' = st_heap s !! l') ∧
    st_heap s' !! 0 = Some (Obj o') ∧
    obj_get "basePath" o' = Some (if truthy basePath then basePath else VStr "/") ∧
    (∀ k, k ≠ "basePath" → obj_get k o' = obj_get k [("swagger", VStr "2.0")]) ∧
    (truthy basePath = true → s' = s).
Proof.
  apply (applyDefaults_spec 0 [("swagger", VStr "2.0")]
           (State [Obj [("swagger", VStr "2.0")]] ∅)).
  reflexivity.
Defined.

(** ** The descriptor assembled by [createPathOperation] *)

Lemma createPathOperation_Ok fuel method pathInfo pathsXProps spec s d s' :
  createPathOperation fuel method pathInfo pathsXProps spec s = Ok d s' →
  ∃ raw operationInfo s1,
    get_member (st_heap s) pathInfo method = inr raw ∧
    resolveRefs fuel spec raw s = Ok operationInfo s1 ∧
    build_operation (st_heap s') method pathInfo pathsXProps spec operationInfo = inr d.
Proof.
  unfold createPathOperation. intros Hrun.
  apply bind_Ok in Hrun as (raw & s1 & Hraw & Hrun).
  apply bind_Ok in Hrun as (operationInfo & s2 & Hres & Hrun).
  apply bind_Ok in Hrun as ([] & s3 & _ & Hrun).
  apply bind_Ok in Hrun as ([] & s4 & _ & Hrun).
  exists raw, operationInfo, s2.
  destruct (get_member (st_heap s) pathInfo method) as [e|raw'] eqn:Hget; [done|].
  injection Hraw as -> ->.
  destruct (build_operation _ _ _ _ _ _) as [e|d'] eqn:Hbuild; [done|].
  by injection Hrun as <- <-.
Qed.

(** Every field of the descriptor: an own field of the operation node
    wins, then one of the path-level extensions, then the computed one;
    [operationId] is removed. *)
Lemma build_operation_fields h method pathInfo pathsXProps spec operationInfo d :
  build_operation h method pathInfo pathsXProps spec operationInfo = inr d →
  ∃ computed,
    operation_fields h method pathInfo spec operationInfo = inr computed ∧
    ∀ k, obj_get k d =
      if decide (k = "operationId") then None
      else if decide (k ∈ own_keys h operationInfo)
           then Some (DVal (get_prop h operationInfo k))
      else if decide (k ∈ own_keys h pathsXProps)
           then Some (DVal (get_prop h pathsXProps k))
      else obj_get k computed.
Proof.
  unfold build_operation. intros Hd.
  destruct (operation_fields h method pathInfo spec operationInfo) as [e|computed];
    [done|].
  simpl in Hd. injection Hd as <-. exists computed. split; [done|].
  intros k. by rewrite obj_get_delete, !obj_get_assign.
Qed.

(** A key that is neither [length] nor an array index is read as
    [undefined] unless it is an own key. *)
Lemma get_prop_not_own h v k :
  k ≠ "length" → array_index k = None → k ∉ own_keys h v → get_prop h v k = VUndef.
Proof.
  intros Hlen Hidx Hk. destruct v as [| | | |s|l]; simpl; try done.
  - by rewrite decide_False, Hidx by done.
  - unfold own_keys in Hk. simpl in Hk.
    destruct (h !! l) as [[o|vs]|]; [|by rewrite decide_False, Hidx by done|done].
    destruct (obj_get k o) as [v|] eqn:Hget; [|done].
    destruct Hk. apply elem_of_obj_keys. by eexists.
Qed.

(** ** [consumes] and [produces] *)

Lemma getOperationProperty_cases h prop operationInfo spec :
  nullish spec = false →
  let own := get_prop h operationInfo prop in
  getOperationProperty h prop operationInfo spec =
    inr (if truthy operationInfo && truthy own then own else get_prop h spec prop).
Proof.
  intros Hspec own. unfold getOperationProperty, get_member. fold own.
  rewrite Hspec. by destruct (truthy operationInfo && truthy own).
Qed.

(** C5, counterexample: the operation's own [consumes] is present and
    empty, so the specification asks for the document-level list; the code keeps
    the operation's empty list, both in [getOperationProperty] (an empty
    array is truthy) and in the descriptor [createPathOperation] returns. *)
Lemma consumes_empty_list_counterexample :
  getOperationProperty empty_consumes_doc "consumes" (VRef 3) (VRef 0) = inr (VRef 4) ∧
  ¬ inherits_unless_nonempty empty_consumes_doc "consumes" (VRef 3) (VRef 0)
      (Some (DVal (VRef 4))) ∧
  ∃ d s', createPathOperation 3 "get" (VRef 2) VUndef (VRef 0)
            (State empty_consumes_doc ∅) = Ok d s' ∧
          ¬ inherits_unless_nonempty (st_heap s') "consumes" (VRef 3) (VRef 0)
              (obj_get "consumes" d).
Proof.
  split_and!.
  - reflexivity.
  - intros H. vm_compute in H. discriminate.
  - eexists _, _. split; [vm_compute; reflexivity|].
    intros H. vm_compute in H. discriminate.
Qed.

(** C5 (amended): in every operation descriptor, for [consumes] and for
    [produces], the field is the operation node's own value whenever that
    value is truthy, an empty list included, and it is the document-level
    value whenever the operation node has no such field (and no path-level
    extension of that name exists); [getOperationProperty] itself returns
    the own value when it is truthy and the document-level value
    otherwise. *)
Theorem consumes_produces_inheritance h method pathInfo pathsXProps spec operationInfo d prop :
  prop = "consumes" ∨ prop = "produces" →
  build_operation h method pathInfo pathsXProps spec operationInfo = inr d →
  let own := get_prop h operationInfo prop in
  (truthy own = true → obj_get prop d = Some (DVal own)) ∧
  (prop ∉ own_keys h operationInfo → prop ∉ own_keys h pathsXProps →
     obj_get prop d = Some (DVal (get_prop h spec prop))) ∧
  getOperationProperty h prop operationInfo spec =
    inr (if truthy operationInfo && truthy own then own else get_prop h spec prop).
Proof.
  intros Hprop Hd own.
  assert (prop ≠ "length" ∧ array_index prop = None ∧ prop ≠ "operationId")
    as (Hlen & Hidx & Hid) by (by destruct Hprop as [-> | ->]).
  destruct (build_operation_fields _ _ _ _ _ _ _ Hd) as (computed & Hc & Hget).
  assert (nullish spec = false) as Hspec.
  { unfold operation_fields, fullPath_of, get_member in Hc.
    destruct (nullish operationInfo); [done|]. simpl in Hc.
    destruct (nullish pathInfo); [done|]. simpl in Hc.
    by destruct (nullish spec). }
  assert (∀ consumes produces,
            getOperationProperty h "consumes" operationInfo spec = inr consumes →
            getOperationProperty h "produces" operationInfo spec = inr produces →
            obj_get prop computed = Some (DVal (if decide (prop = "consumes")
                                                then consumes else produces)))
    as Hcomputed.
  { intros consumes produces Hcons Hprod.
    unfold operation_fields in Hc. rewrite Hcons, Hprod in Hc.
    repeat match type of Hc with
           | bindE ?m _ = _ => destruct m; simpl in Hc; [done|]
           end.
    injection Hc as <-. by destruct Hprop as [-> | ->]. }
  rewrite !getOperationProperty_cases in Hcomputed by done.
  specialize (Hcomputed _ _ eq_refl eq_refl).
  split_and!.
  - intros Hown. rewrite Hget, decide_False by done.
    destruct (decide (prop ∈ own_keys h operationInfo)) as [|Hnot]; [done|].
    unfold own in Hown. by rewrite get_prop_not_own in Hown.
  - intros Hno Hnox. rewrite Hget. rewrite !decide_False by done.
    rewrite Hcomputed.
    destruct Hprop as [-> | ->]; case_decide; try done;
      rewrite (get_prop_not_own h operationInfo) by done;
      by rewrite andb_false_r.
  - by apply getOperationProperty_cases.
Qed.

(** Non-membership in a concrete list of keys. *)
Ltac not_a_key :=
  let H := fresh in
  vm_compute; intros H;
  repeat (apply elem_of_cons in H as [H|H]; [discriminate|]);
  by apply elem_of_nil in H.

Lemma consumes_produces_inheritance_witness :
  ∃ d, build_operation users_doc "get" (VRef 12) (VRef 13) (VRef 7) (VRef 11) = inr d ∧
       obj_get "produces" d = Some (DVal (VRef 14)) ∧
       obj_get "consumes" d = Some (DVal (VRef 8)).
Proof.
  eexists. split; [vm_compute; reflexivity|].
  pose proof (consumes_produces_inheritance users_doc "get" (VRef 12) (VRef 13)
                (VRef 7) (VRef 11) _ "produces" (or_intror eq_refl) eq_refl)
    as (Hown & _ & _).
  pose proof (consumes_produces_inheritance users_doc "get" (VRef 12) (VRef 13)
                (VRef 7) (VRef 11) _ "consumes" (or_introl eq_refl) eq_refl)
    as (_ & Hdoc & _).
  split.
  - apply Hown. reflexivity.
  - apply Hdoc; not_a_key.
Defined.

(** ** Facts about [mapE] and [filterE] *)

Lemma mapE_inr {A B} (f : A → error + B) xs ys :
  mapE f xs = inr ys → Forall2 (λ x y, f x = inr y) xs ys.
Proof.
  revert ys. induction xs as [|x xs IH]; intros ys; simpl.
  - intros [= <-]. constructor.
  - destruct (f x) as [e|y] eqn:Hx; [done|]. simpl.
    destruct (mapE f xs) as [e|ys'] eqn:Hxs; [done|]. simpl.
    intros [= <-]. constructor; [done|by apply IH].
Qed.

Lemma filterE_inr {A} (f : A → error + bool) (g : A → bool) xs ys :
  (∀ x b, f x = inr b → b = g x) →
  filterE f xs = inr ys → ys = filter (λ x, g x = true) xs.
Proof.
  intros Hfg. revert ys. induction xs as [|x xs IH]; intros ys; simpl.
  - by intros [= <-].
  - destruct (f x) as [e|b] eqn:Hx; [done|]. simpl.
    destruct (filterE f xs) as [e|ys'] eqn:Hxs; [done|]. simpl.
    intros [= <-]. rewrite filter_cons. rewrite (IH ys' eq_refl).
    rewrite (Hfg _ _ Hx). by destruct (g x).
Qed.

Lemma filterE_get_member h k (P : val → bool) xs ys :
  filterE (λ x, try! i := get_member h x k in inr (P i)) xs = inr ys →
  ys = filter (λ x, P (get_prop h x k) = true) xs.
Proof.
  apply filterE_inr. intros x b. unfold get_member.
  destruct (nullish x); simpl; [done|]. by intros [= <-].
Qed.




(** ** Response schemas *)



Lemma Forall2_elem_of_l {A B} (P : A → B → Prop) xs ys x :
  Forall2 P xs ys → x ∈ xs → ∃ y, y ∈ ys ∧ P x y.
Proof.
  intros HF Hx. apply list_elem_of_lookup in Hx as [i Hi].
  destruct (Forall2_lookup_l _ _ _ _ _ HF Hi) as (y & Hy & HP).
  exists y. split; [|done]. apply list_elem_of_lookup. eauto.
Qed.



(** ** Parameter schemas *)





(** ** When the schema builders return *)

Lemma mapE_returns {A B} (f : A → error + B) xs :
  (∀ x, x ∈ xs → ∃ y, f x = inr y) → ∃ ys, mapE f xs = inr ys.
Proof.
  induction xs as [|x xs IH]; intros Hall; simpl; [by eexists|].
  destruct (Hall x (list_elem_of_here _ _)) as [y ->].
  destruct IH as [ys ->]; [|by eexists].
  intros x' Hx'. apply Hall. by apply list_elem_of_further.
Qed.

Lemma filterE_returns {A} (f : A → error + bool) xs :
  (∀ x, x ∈ xs → ∃ b, f x = inr b) → ∃ ys, filterE f xs = inr ys.
Proof.
  induction xs as [|x xs IH]; intros Hall; simpl; [by eexists|].
  destruct (Hall x (list_elem_of_here _ _)) as [b ->].
  destruct IH as [ys ->]; [|by eexists].
  intros x' Hx'. apply Hall. by apply list_elem_of_further.
Qed.

(** [createResponseSchemas] returns as soon as the response map, every
    response and every header entry is something other than [null] or
    [undefined]. *)
Lemma createResponseSchemas_returns h responses :
  nullish responses = false →
  (∀ id, id ∈ own_keys h responses →
     let response := get_prop h responses id in
     nullish response = false ∧
     ∀ name, name ∈ own_keys h (get_prop h response "headers") →
       nullish (get_prop h (get_prop h response "headers") name) = false) →
  ∃ result, createResponseSchemas h responses = inr result.
Proof.
  intros Hresp Hall. unfold createResponseSchemas. rewrite Hresp.
  destruct (mapE_returns (λ id,
      try! body := get_member h (get_prop h responses id) "schema" in
      try! headers := get_member h (get_prop h responses id) "headers" in
      try! hschema := createResponseHeadersSchema h headers in
      inr (ResponseSchema id body hschema)) (own_keys h responses)) as [rs Hrs].
  - intros id Hid. destruct (Hall id Hid) as [Hr Hheaders].
    unfold get_member. rewrite Hr. simpl.
    unfold createResponseHeadersSchema.
    destruct (truthy (get_prop h (get_prop h responses id) "headers")); simpl;
      [|by eexists].
    destruct (filterE_returns (λ name,
        try! r := get_member h
                    (get_prop h (get_prop h (get_prop h responses id) "headers") name)
                    "required" in
        inr (truthy r))
        (own_keys h (get_prop h (get_prop h responses id) "headers"))) as [req Hreq].
    + intros name Hname. unfold get_member. rewrite (Hheaders name Hname). simpl.
      by eexists.
    + rewrite Hreq. simpl. by eexists.
  - rewrite Hrs. simpl. by eexists.
Qed.

Lemma params_properties_returns h params :
  Forall (λ p, nullish p = false ∧ ∃ k, to_string h (get_prop h p "name") = inr k)
    params →
  ∀ props0, ∃ props, params_properties h params props0 = inr props.
Proof.
  induction 1 as [|p params [Hp [k Hk]] _ IH]; intros props0; simpl; [by eexists|].
  unfold get_member. rewrite Hp. simpl. rewrite Hk. simpl. apply IH.
Qed.

(** [createParamGroupSchemas] returns as soon as [parameters] is an array
    of values other than [null] and [undefined] whose names have a
    string form. *)
Lemma createParamGroupSchemas_returns h parameters elems :
  array_elems h parameters = inr elems →
  Forall (λ p, nullish p = false ∧ ∃ k, to_string h (get_prop h p "name") = inr k)
    elems →
  ∃ groups, createParamGroupSchemas h parameters = inr groups.
Proof.
  intros Helems Hall. unfold createParamGroupSchemas. rewrite Helems.
  assert (∀ xs, Forall (λ p, nullish p = false) xs → ∀ k (P : val → bool),
            filterE (λ x, try! i := get_member h x k in inr (P i)) xs
            = inr (filter (λ x, P (get_prop h x k) = true) xs)) as Hfilter.
  { intros xs Hxs k P.
    destruct (filterE_returns (λ x, try! i := get_member h x k in inr (P i)) xs)
      as [ys Hys].
    - intros x Hx. rewrite Forall_forall in Hxs. unfold get_member.
      rewrite (Hxs x Hx). simpl. by eexists.
    - rewrite Hys. f_equal. by apply filterE_get_member in Hys. }
  assert (Forall (λ p, nullish p = false) elems) as Hnn
    by (eapply Forall_impl; [done|]; by intros p [? _]).
  destruct (mapE_returns (λ loc,
      try! elems := inr elems in
      try! params := filterE (λ param,
          try! i := get_member h param "in" in
          inr (bool_decide (i = VStr loc))) elems in
      try! schema := createParamsSchema h params in
      inr (loc, schema)) PARAM_GROUPS) as [gs Hgs].
  - intros loc _. simpl.
    rewrite (Hfilter elems Hnn "in" (λ i, bool_decide (i = VStr loc))). simpl.
    set (params := filter _ elems).
    assert (Forall (λ p, nullish p = false ∧
                         ∃ k, to_string h (get_prop h p "name") = inr k) params)
      as Hparams.
    { apply Forall_forall. intros p Hp%list_elem_of_filter.
      rewrite Forall_forall in Hall. apply Hall. by destruct Hp. }
    unfold createParamsSchema.
    destruct (params_properties_returns h params Hparams []) as [props ->]. simpl.
    assert (Forall (λ p, nullish p = false) params) as Hnn'
      by (eapply Forall_impl; [done|]; by intros p [? _]).
    rewrite (Hfilter params Hnn' "required" truthy). simpl.
    destruct (mapE_returns (λ param, get_member h param "name")
                (filter (λ x, truthy (get_prop h x "required") = true) params))
      as [names ->]; [|by eexists].
    intros p Hp%list_elem_of_filter. destruct Hp as [_ Hp].
    rewrite Forall_forall in Hnn'. unfold get_member. rewrite (Hnn' p Hp).
    by eexists.
  - rewrite Hgs. simpl. by eexists.
Qed.

(** ** [fullPath] *)







(** * Further properties of the code *)

(** ** References as strings *)

Lemma split_on_sep sep s : split_on sep (String sep s) = "" :: split_on sep s.
Proof. simpl. by rewrite Ascii.eqb_refl. Qed.

Lemma split_on_other sep c s :
  c ≠ sep →
  ∃ seg rest, split_on sep s = seg :: rest ∧
              split_on sep (String c s) = String c seg :: rest.
Proof.
  intros Hc. simpl.
  assert (Ascii.eqb c sep = false) as -> by (by apply Ascii.eqb_neq).
  pose proof (split_on_nonempty sep s) as Hne.
  destruct (split_on sep s) as [|seg rest]; [done|]. eauto.
Qed.




Lemma walk_error h parts :
  ∀ v e, walk h v parts = inl e → e = TypeError ∨ e = InvalidReference.
Proof.
  induction parts as [|p parts IH]; intros v e; simpl; [done|].
  destruct (nullish v); [naive_solver|].
  destruct (truthy (get_prop h v p)); [apply IH|naive_solver].
Qed.

Lemma walk_truthy h parts :
  ∀ v p w, walk h v (p :: parts) = inr w → truthy w = true.
Proof.
  induction parts as [|q parts IH]; intros v p w; simpl.
  - destruct (nullish v); [done|].
    destruct (truthy (get_prop h v p)) eqn:Ht; [|done]. by intros [= <-].
  - destruct (nullish v); [done|].
    destruct (truthy (get_prop h v p)) eqn:Ht; [|done]. apply IH.
Qed.

Lemma prefix_cons a s1 b s2 :
  String.prefix (String a s1) (String b s2) =
    if decide (a = b) then String.prefix s1 s2 else false.
Proof.
  change (String.prefix (String a s1) (String b s2))
    with (match ascii_dec a b with
          | left _ => String.prefix s1 s2
          | right _ => false
          end).
  destruct (ascii_dec a b), (decide (a = b)); done.
Qed.

(** The three shapes of a reference string. *)
Lemma resolveRef_shape ref spec h :
  (ref = "#" ∧ resolveRef ref spec h = inr spec) ∨
  (∃ t, ref = "#/" +:+ t ∧ String.prefix "#/" ref = true ∧
        resolveRef ref spec h = walk h spec (split_on "/"%char t)) ∨
  (ref ≠ "#" ∧ String.prefix "#/" ref = false ∧
   resolveRef ref spec h = inl InvalidReferenceFormat).
Proof.
  destruct ref as [|c s].
  { right; right. by split_and!. }
  destruct (decide (c = "#"%char)) as [->|Hc]; cycle 1.
  { right; right. split_and!; [congruence| |].
    - change "#/" with (String "#" "/"). rewrite prefix_cons.
      by rewrite decide_False.
    - unfold resolveRef. destruct (decide (c = "/"%char)) as [->|Hsl].
      + by rewrite split_on_sep.
      + destruct (split_on_other "/" c s Hsl) as (seg & rest & _ & ->).
        rewrite decide_False; [done|congruence]. }
  destruct s as [|c2 t]; [by left|].
  destruct (decide (c2 = "/"%char)) as [->|Hc2].
  - right; left. exists t. split_and!; [done| |].
    { change "#/" with (String "#" (String "/" "")).
      rewrite !prefix_cons, !decide_True by done. by destruct t. }
    unfold resolveRef.
    destruct (split_on_other "/" "#" (String "/" t)) as (seg & rest & Hs & ->); [done|].
    rewrite split_on_sep in Hs. injection Hs as <- <-. by rewrite decide_True.
  - right; right. split_and!; [done| |].
    + change "#/" with (String "#" (String "/" "")).
      rewrite !prefix_cons. rewrite decide_True by done.
      by rewrite decide_False.
    + unfold resolveRef.
      destruct (split_on_other "/" "#" (String c2 t)) as (seg & rest & Hs & ->); [done|].
      destruct (split_on_other "/" c2 t Hc2) as (seg' & rest' & _ & Hs').
      rewrite Hs' in Hs. injection Hs as <- <-.
      by rewrite decide_False.
Qed.

(** X1: [resolveRef] fails with [InvalidReferenceFormat] exactly when the
    reference is neither ['#'] nor a string that starts with ['#/'],
    whatever the document holds. *)
Theorem resolveRef_format_error (ref : string) (spec : val) (h : heap) :
  resolveRef ref spec h = inl InvalidReferenceFormat ↔
  ref ≠ "#" ∧ String.prefix "#/" ref = false.
Proof.
  destruct (resolveRef_shape ref spec h)
    as [[-> Hr]|[(t & -> & Hpre & Hr)|(Hne & Hpre & Hr)]]; rewrite Hr.
  - naive_solver.
  - split; [|intros [_ ?]; congruence].
    intros Hw. by destruct (walk_error _ _ _ _ Hw).
  - done.
Qed.

(** X2: a reference that resolves denotes the document itself when it is
    ['#'], and a truthy value otherwise: a successful lookup never yields
    [undefined], [null], [false], [0] or ['']. *)
Theorem resolveRef_result_truthy (ref : string) (spec : val) (h : heap) (v : val) :
  resolveRef ref spec h = inr v →
  (ref = "#" ∧ v = spec) ∨ truthy v = true.
Proof.
  destruct (resolveRef_shape ref spec h)
    as [[-> Hr]|[(t & -> & _ & Hr)|(Hne & Hpre & Hr)]]; rewrite Hr; [naive_solver| |done].
  intros Hw. right.
  pose proof (split_on_nonempty "/"%char t) as Hne.
  destruct (split_on "/"%char t) as [|p parts]; [done|].
  by eapply walk_truthy.
Qed.

Lemma resolveRef_result_truthy_witness :
  ("#/definitions/Pet" = "#" ∧ VRef 2 = VRef 0) ∨ truthy (VRef 2) = true.
Proof.
  apply (resolveRef_result_truthy "#/definitions/Pet" (VRef 0)
    [Obj [("definitions", VRef 1)]; Obj [("Pet", VRef 2)]; Obj [("type", VStr "object")]]).
  reflexivity.
Defined.

(** X3: against a document that is [null] or [undefined], every reference
    of the form ['#/...'] makes [resolveRef] throw a [TypeError] (the
    property read on the document), not an assertion error. *)
Theorem resolveRef_null_document (ref : string) (spec : val) (h : heap) :
  nullish spec = true → String.prefix "#/" ref = true →
  resolveRef ref spec h = inl TypeError.
Proof.
  intros Hspec Hpre.
  destruct (resolveRef_shape ref spec h)
    as [[-> Hr]|[(t & -> & _ & Hr)|(Hne & Hpre' & Hr)]]; [done| |congruence].
  rewrite Hr.
  pose proof (split_on_nonempty "/"%char t) as Hne.
  destruct (split_on "/"%char t) as [|p parts]; [done|].
  simpl. by rewrite Hspec.
Qed.

Lemma resolveRef_null_document_witness :
  resolveRef "#/definitions/Pet" VUndef [] = inl TypeError.
Proof. apply resolveRef_null_document; reflexivity. Defined.



(** ** [applyDefaults], again *)

(** X5: [applyDefaults] is idempotent.  When it returns, it returns its
    argument, the document's [basePath] is truthy, and a second call
    returns the same document and changes nothing. *)
Theorem applyDefaults_idempotent (spec v : val) (s s' : state) :
  applyDefaults spec s = Ok v s' →
  v = spec ∧
  truthy (get_prop (st_heap s') spec "basePath") = true ∧
  applyDefaults spec s' = Ok spec s'.
Proof.
  unfold applyDefaults. destruct (nullish spec) eqn:Hnull; [done|].
  destruct (truthy (get_prop (st_heap s) spec "basePath")) eqn:Ht.
  { intros [= <- <-]. by rewrite Ht. }
  destruct spec as [| | | | |l]; try done.
  destruct (st_heap s !! l) as [[o|vs]|] eqn:Hl; [|done..].
  intros [= <- <-]. simpl.
  rewrite list_lookup_insert_eq by (by eapply lookup_lt_Some). simpl.
  by rewrite obj_get_set, decide_True.
Qed.

Lemma applyDefaults_idempotent_witness :
  let s' := State [Obj [("swagger", VStr "2.0"); ("basePath", VStr "/")]] ∅ in
  VRef 0 = VRef 0 ∧
  truthy (get_prop (st_heap s') (VRef 0) "basePath") = true ∧
  applyDefaults (VRef 0) s' = Ok (VRef 0) s'.
Proof.
  apply (applyDefaults_idempotent (VRef 0) (VRef 0)
           (State [Obj [("swagger", VStr "2.0")]] ∅)).
  reflexivity.
Defined.

(** X6: [applyDefaults] throws a [TypeError] exactly when its argument
    is not an object: on [null] and [undefined] the property cannot be
    read, and on a boolean, a number or a string it cannot be set (the
    module is in strict mode). *)
Theorem applyDefaults_type_error (spec : val) (s : state) :
  applyDefaults spec s = Throw TypeError ↔ ∀ l, spec ≠ VRef l.
Proof.
  unfold applyDefaults. destruct spec as [| |b|n|str|l]; simpl; [by split..|].
  split; [|intros Hl; by destruct (Hl l)]. intros Hrun.
  destruct (st_heap s !! l) as [[o|vs]|]; simpl in Hrun; [|done..].
  by destruct (truthy _).
Qed.

(** ** More on the descriptor of an operation *)

(** [if (!node.k) node.k = fresh], for a key [k] that is not an array
    index: it returns on objects only, and leaves [node.k] truthy. *)
Lemma default_field_Ok node k fresh s s' :
  k ≠ "length" → array_index k = None →
  default_field node k fresh s = Ok tt s' →
  ∃ l o,
    node = VRef l ∧ st_heap s !! l = Some (Obj o) ∧ st_cache s' = st_cache s ∧
    ((truthy (default VUndef (obj_get k o)) = true ∧ s' = s) ∨
     (truthy (default VUndef (obj_get k o)) = false ∧
      st_heap s' = <[l := Obj (obj_set k (VRef (length (st_heap s))) o)]>
                     (st_heap s ++ [fresh]))).
Proof.
  intros Hlen Hidx. unfold default_field.
  destruct (nullish node) eqn:Hnull; [done|].
  destruct node as [| |b|n|str|l]; simpl; try done.
  { by rewrite decide_False, Hidx by done. }
  destruct (st_heap s !! l) as [[o|vs]|] eqn:Hl; simpl.
  - destruct (truthy (default VUndef (obj_get k o))) eqn:Ht.
    + intros [= <-]. exists l, o. split_and!; [done..|by left].
    + intros [= <-]. exists l, o. split_and!; [done..|by right].
  - by rewrite decide_False, Hidx by done.
  - done.
Qed.

(** The steps of a successful [createPathOperation]. *)
Lemma createPathOperation_steps fuel method pathInfo pathsXProps spec s d s' :
  createPathOperation fuel method pathInfo pathsXProps spec s = Ok d s' →
  ∃ raw operationInfo s1 s2,
    get_member (st_heap s) pathInfo method = inr raw ∧
    resolveRefs fuel spec raw s = Ok operationInfo s1 ∧
    default_field operationInfo "parameters" (Arr []) s1 = Ok tt s2 ∧
    default_field operationInfo "responses" (Obj []) s2 = Ok tt s' ∧
    build_operation (st_heap s') method pathInfo pathsXProps spec operationInfo = inr d.
Proof.
  unfold createPathOperation. intros Hrun.
  apply bind_Ok in Hrun as (raw & s1 & Hraw & Hrun).
  apply bind_Ok in Hrun as (operationInfo & s2 & Hres & Hrun).
  apply bind_Ok in Hrun as ([] & s3 & Hp & Hrun).
  apply bind_Ok in Hrun as ([] & s4 & Hr & Hrun).
  exists raw, operationInfo, s2, s3.
  destruct (get_member (st_heap s) pathInfo method) as [e|raw'] eqn:Hget; [done|].
  injection Hraw as -> ->.
  destruct (build_operation _ _ _ _ _ _) as [e|d'] eqn:Hbuild; [done|].
  by injection Hrun as <- <-.
Qed.

(** X7: when [createPathOperation] returns, the resolved operation is an
    object of the store whose [parameters] and [responses] are truthy (an
    empty array and an empty object were written into the document where
    they were missing), and the descriptor carries these two values. *)
Theorem createPathOperation_defaults fuel method pathInfo pathsXProps spec s d s' :
  createPathOperation fuel method pathInfo pathsXProps spec s = Ok d s' →
  ∃ raw l s1 o p r,
    get_member (st_heap s) pathInfo method = inr raw ∧
    resolveRefs fuel spec raw s = Ok (VRef l) s1 ∧
    st_heap s' !! l = Some (Obj o) ∧
    obj_get "parameters" o = Some p ∧ truthy p = true ∧
    obj_get "responses" o = Some r ∧ truthy r = true ∧
    obj_get "parameters" d = Some (DVal p) ∧
    obj_get "responses" d = Some (DVal r).
Proof.
  intros Hrun.
  apply createPathOperation_steps in Hrun
    as (raw & operationInfo & s1 & s2 & Hraw & Hres & Hp & Hr & Hbuild).
  apply default_field_Ok in Hp as (l & o1 & -> & Hl1 & _ & Hp); [|done..].
  apply default_field_Ok in Hr as (l' & o2 & [= <-] & Hl2 & _ & Hr); [|done..].
  assert (∃ p, obj_get "parameters" o2 = Some p ∧ truthy p = true) as (p & Hgp & Htp).
  { destruct Hp as [[Ht ->]|[_ Hh]].
    - assert (o2 = o1) as -> by congruence.
      destruct (obj_get "parameters" o1) as [p|]; [eauto|done].
    - rewrite Hh in Hl2.
      rewrite list_lookup_insert_eq in Hl2
        by (rewrite length_app; apply lookup_lt_Some in Hl1; lia).
      injection Hl2 as <-. eexists. by rewrite obj_get_set, decide_True. }
  assert (∃ o r, st_heap s' !! l = Some (Obj o) ∧
                 obj_get "parameters" o = Some p ∧
                 obj_get "responses" o = Some r ∧ truthy r = true)
    as (o & r & Hl & Hgp' & Hgr & Htr).
  { destruct Hr as [[Ht ->]|[_ Hh]].
    - destruct (obj_get "responses" o2) as [r|] eqn:Hgr; [|done].
      by exists o2, r.
    - eexists _, _. split_and!.
      + rewrite Hh. apply list_lookup_insert_eq.
        rewrite length_app. apply lookup_lt_Some in Hl2. lia.
      + by rewrite obj_get_set, decide_False.
      + by rewrite obj_get_set, decide_True.
      + done. }
  exists raw, l, s1, o, p, r. split_and!; try done.
  - apply build_operation_fields in Hbuild as (computed & _ & Hd).
    rewrite Hd, decide_False by done.
    assert (own_keys (st_heap s') (VRef l) = obj_keys o) as Hkeys
      by (unfold own_keys; simpl; by rewrite Hl).
    rewrite Hkeys, decide_True by (apply elem_of_obj_keys; eauto).
    simpl. by rewrite Hl, Hgp'.
  - apply build_operation_fields in Hbuild as (computed & _ & Hd).
    rewrite Hd, decide_False by done.
    assert (own_keys (st_heap s') (VRef l) = obj_keys o) as Hkeys
      by (unfold own_keys; simpl; by rewrite Hl).
    rewrite Hkeys, decide_True by (apply elem_of_obj_keys; eauto).
    simpl. by rewrite Hl, Hgr.
Qed.

(** Runs a computation of the state monad on a concrete state and records
    its result as the hypothesis [H]. *)
Ltac run_as H m :=
  let r := eval vm_compute in m in
  lazymatch r with
  | Ok ?a ?s' => assert (m = Ok a s') as H by (vm_compute; reflexivity)
  end.

Lemma createPathOperation_defaults_witness :
  ∃ d s',
    createPathOperation 6 "get" (VRef 12) (VRef 13) (VRef 7) (State users_doc ∅)
      = Ok d s' ∧
    ∃ raw l s1 o p r,
      get_member users_doc (VRef 12) "get" = inr raw ∧
      resolveRefs 6 (VRef 7) raw (State users_doc ∅) = Ok (VRef l) s1 ∧
      st_heap s' !! l = Some (Obj o) ∧
      obj_get "parameters" o = Some p ∧ truthy p = true ∧
      obj_get "responses" o = Some r ∧ truthy r = true ∧
      obj_get "parameters" d = Some (DVal p) ∧
      obj_get "responses" d = Some (DVal r).
Proof.
  run_as Hrun
    (createPathOperation 6 "get" (VRef 12) (VRef 13) (VRef 7) (State users_doc ∅)).
  eexists _, _. split; [exact Hrun|].
  exact (createPathOperation_defaults _ _ _ _ _ _ _ _ Hrun).
Defined.

(** The computed fields, read off [operation_fields]. *)
Lemma operation_fields_inr h method pathInfo spec operationInfo computed :
  operation_fields h method pathInfo spec operationInfo = inr computed →
  obj_get "id" computed = Some (DVal (get_prop h operationInfo "operationId")) ∧
  obj_get "path" computed = Some (DVal (get_prop h pathInfo "path")) ∧
  obj_get "method" computed = Some (DVal (VStr method)) ∧
  (∃ g, obj_get "paramGroupSchemas" computed = Some (DParamGroups g) ∧
        createParamGroupSchemas h (get_prop h operationInfo "parameters") = inr g) ∧
  (∃ r, obj_get "responseSchemas" computed = Some (DResponses r) ∧
        createResponseSchemas h (get_prop h operationInfo "responses") = inr r).
Proof.
  unfold operation_fields, get_member.
  destruct (nullish operationInfo); [done|]. simpl.
  destruct (nullish pathInfo); [done|]. simpl.
  destruct (fullPath_of h spec pathInfo) as [e|fullPath]; [done|]. simpl.
  destruct (getOperationProperty h "consumes" operationInfo spec) as [e|c]; [done|].
  simpl.
  destruct (getOperationProperty h "produces" operationInfo spec) as [e|p]; [done|].
  simpl.
  destruct (createParamGroupSchemas h _) as [e|g] eqn:Hg; [done|]. simpl.
  destruct (createResponseSchemas h _) as [e|r] eqn:Hr; [done|]. simpl.
  intros [= <-]. split_and!; [done..| |]; eexists; by split.
Qed.

(** X8: the descriptor never has an [operationId] field; its [id] is the
    operation's [operationId], its [path] the path item's [path] and
    its [method] the method asked for, each unless the operation node or
    the path-level extensions have an own field of that name. *)
Theorem createPathOperation_identity fuel method pathInfo pathsXProps spec s d s' :
  createPathOperation fuel method pathInfo pathsXProps spec s = Ok d s' →
  ∃ raw operationInfo s1,
    get_member (st_heap s) pathInfo method = inr raw ∧
    resolveRefs fuel spec raw s = Ok operationInfo s1 ∧
    obj_get "operationId" d = None ∧
    ∀ k v,
      (k, v) ∈ [("id", get_prop (st_heap s') operationInfo "operationId");
                ("path", get_prop (st_heap s') pathInfo "path");
                ("method", VStr method)] →
      k ∉ own_keys (st_heap s') operationInfo →
      k ∉ own_keys (st_heap s') pathsXProps →
      obj_get k d = Some (DVal v).
Proof.
  intros Hrun.
  apply createPathOperation_Ok in Hrun
    as (raw & operationInfo & s1 & Hraw & Hres & Hbuild).
  exists raw, operationInfo, s1. split_and!; [done..| |].
  - apply build_operation_fields in Hbuild as (computed & _ & Hd).
    by rewrite Hd, decide_True.
  - intros k v Hkv Hop Hx.
    apply build_operation_fields in Hbuild as (computed & Hcomp & Hd).
    apply operation_fields_inr in Hcomp as (Hid & Hpath & Hmethod & _).
    rewrite Hd, (decide_False (P := k ∈ own_keys _ operationInfo)),
      (decide_False (P := k ∈ own_keys _ pathsXProps)) by done.
    repeat (apply elem_of_cons in Hkv as [[= -> ->]|Hkv];
            [by rewrite decide_False by done|]).
    by apply elem_of_nil in Hkv.
Qed.

Lemma createPathOperation_identity_witness :
  ∃ d s',
    createPathOperation 6 "get" (VRef 12) (VRef 13) (VRef 7) (State users_doc ∅)
      = Ok d s' ∧
    obj_get "operationId" d = None ∧
    obj_get "id" d = Some (DVal (VStr "getUser")) ∧
    obj_get "method" d = Some (DVal (VStr "get")).
Proof.
  run_as Hrun
    (createPathOperation 6 "get" (VRef 12) (VRef 13) (VRef 7) (State users_doc ∅)).
  eexists _, _. split; [exact Hrun|].
  destruct (createPathOperation_identity _ _ _ _ _ _ _ _ Hrun)
    as (raw & operationInfo & s1 & Hraw & Hres & Hnone & Hfields).
  injection Hraw as <-.
  assert (operationInfo = VRef 11) as ->.
  { vm_compute in Hres. by injection Hres. }
  split_and!; [exact Hnone| |].
  - apply (Hfields "id" (VStr "getUser")); [|not_a_key..].
    apply list_elem_of_here.
  - apply (Hfields "method" (VStr "get")); [|not_a_key..].
    do 2 apply list_elem_of_further. apply list_elem_of_here.
Defined.





(** ** Errors of the schema builders *)

Lemma mapE_inl {A B} (f : A → error + B) xs e :
  mapE f xs = inl e → ∃ x, x ∈ xs ∧ f x = inl e.
Proof.
  induction xs as [|x xs IH]; simpl; [done|].
  destruct (f x) as [e'|y] eqn:Hx; simpl.
  - intros [= ->]. exists x. split; [apply list_elem_of_here|done].
  - destruct (mapE f xs) as [e'|ys]; simpl; [|done].
    intros [= ->]. destruct IH as (x' & Hin & Hx'); [done|].
    exists x'. split; [by apply list_elem_of_further|done].
Qed.

Lemma filterE_inl {A} (f : A → error + bool) xs e :
  filterE f xs = inl e → ∃ x, x ∈ xs ∧ f x = inl e.
Proof.
  induction xs as [|x xs IH]; simpl; [done|].
  destruct (f x) as [e'|y] eqn:Hx; simpl.
  - intros [= ->]. exists x. split; [apply list_elem_of_here|done].
  - destruct (filterE f xs) as [e'|ys]; simpl; [|done].
    intros [= ->]. destruct IH as (x' & Hin & Hx'); [done|].
    exists x'. split; [by apply list_elem_of_further|done].
Qed.

Lemma get_member_inl h v k e : get_member h v k = inl e → e = TypeError ∧ nullish v = true.
Proof. unfold get_member. destruct (nullish v); [by intros [= <-]|done]. Qed.

Lemma filterE_member_fails {A} h (base : A → val) k (g : val → bool) xs :
  Exists (λ x, nullish (base x) = true) xs →
  filterE (λ x, try! v := get_member h (base x) k in inr (g v)) xs = inl TypeError.
Proof.
  induction 1 as [x xs Hx|x xs _ IH]; simpl.
  - unfold get_member at 1. by rewrite Hx.
  - destruct (get_member h (base x) k) as [e|v] eqn:Hg; simpl.
    + by apply get_member_inl in Hg as [-> _].
    + by rewrite IH.
Qed.

Lemma own_keys_falsy h v : truthy v = false → own_keys h v = [].
Proof. destruct v as [| |b|n|[|c str]|l]; try done. Qed.

(** X11: [createResponseSchemas] returns exactly when the response map,
    every response in it and every entry of a response's [headers] is
    something other than [null] or [undefined]; when it does not return,
    what it throws is a [TypeError]. *)
Theorem createResponseSchemas_errors (h : heap) (responses : val) :
  ((∃ result, createResponseSchemas h responses = inr result) ↔
   responses_ok h responses) ∧
  (∀ e, createResponseSchemas h responses = inl e → e = TypeError).
Proof.
  split; [split|].
  - intros [result Hrun]. unfold createResponseSchemas in Hrun.
    destruct (nullish responses) eqn:Hnull; [done|]. split; [done|].
    destruct (mapE _ _) as [e|rs] eqn:Hrs; [done|].
    apply mapE_inr in Hrs. intros id Hid response.
    destruct (Forall2_elem_of_l _ _ _ _ Hrs Hid) as (entry & _ & Hentry).
    fold response in Hentry. unfold get_member in Hentry.
    destruct (nullish response) eqn:Hresp; [done|]. split; [done|].
    simpl in Hentry. unfold createResponseHeadersSchema in Hentry.
    destruct (truthy (get_prop h response "headers")) eqn:Hheaders; simpl in Hentry.
    + destruct (filterE _ _) as [e|req] eqn:Hreq; [done|].
      intros name Hname.
      destruct (nullish (get_prop h (get_prop h response "headers") name)) eqn:Hn;
        [|done].
      rewrite (filterE_member_fails h (get_prop h (get_prop h response "headers"))
                 "required" truthy) in Hreq; [done|].
      apply Exists_exists. eauto.
    + intros name Hname. rewrite own_keys_falsy in Hname by done.
      by apply elem_of_nil in Hname.
  - intros [Hnull Hall]. by apply createResponseSchemas_returns.
  - intros e. unfold createResponseSchemas.
    destruct (nullish responses); [by intros [= <-]|].
    destruct (mapE _ _) as [e'|rs] eqn:Hrs; [|done]. simpl. intros [= ->].
    apply mapE_inl in Hrs as (id & _ & Hid).
    destruct (get_member h (get_prop h responses id) "schema") as [e1|body] eqn:Hb.
    { simpl in Hid. injection Hid as <-. by apply get_member_inl in Hb as [-> _]. }
    destruct (get_member h (get_prop h responses id) "headers") as [e1|headers] eqn:Hh.
    { simpl in Hid. injection Hid as <-. by apply get_member_inl in Hh as [-> _]. }
    simpl in Hid. unfold createResponseHeadersSchema in Hid.
    destruct (truthy headers); simpl in Hid; [|done].
    destruct (filterE _ _) as [e1|req] eqn:Hreq; [|done].
    simpl in Hid. injection Hid as <-.
    apply filterE_inl in Hreq as (name & _ & Hname).
    destruct (get_member h (get_prop h headers name) "required") as [e2|r] eqn:Hr;
      [|done].
    simpl in Hname. injection Hname as <-. by apply get_member_inl in Hr as [-> _].
Qed.

(** X12: [createParamGroupSchemas] fails as [parameters.filter] does when
    [parameters] is not an array; on an array it throws a [TypeError] as
    soon as an element is [null] or [undefined], and it returns when no
    element is (an element that is not an object is in no group). *)
Theorem createParamGroupSchemas_errors (h : heap) (parameters : val) :
  match array_elems h parameters with
  | inl e => createParamGroupSchemas h parameters = inl e
  | inr elems =>
      (Exists (λ p, nullish p = true) elems →
         createParamGroupSchemas h parameters = inl TypeError) ∧
      (names_printable h elems → Forall (λ p, nullish p = false) elems →
         ∃ groups, createParamGroupSchemas h parameters = inr groups)
  end.
Proof.
  destruct (array_elems h parameters) as [e|elems] eqn:Helems.
  - unfold createParamGroupSchemas. simpl. by rewrite Helems.
  - split.
    + intros Hnull. unfold createParamGroupSchemas. simpl. rewrite Helems. simpl.
      pose proof (filterE_member_fails h id "in"
                    (λ i, bool_decide (i = VStr "header")) elems Hnull) as Hfail.
      simpl in Hfail. by rewrite Hfail.
    + intros Hnames Hnn. apply (createParamGroupSchemas_returns h parameters elems);
        [done|].
      apply Forall_forall. intros p Hp. unfold names_printable in Hnames.
      rewrite Forall_forall in Hnames, Hnn. split; [by apply Hnn|by apply Hnames].
Qed.

(** ** The properties of a parameter schema *)





(** ** What [resolveRefs] does to the document *)

Lemma obj_keys_delete {A} k (o : obj A) :
  obj_keys (obj_delete k o) = filter (λ k', k' ≠ k) (obj_keys o).
Proof.
  unfold obj_keys, obj_delete. induction o as [|[k0 v0] o IH]; [done|].
  rewrite fmap_cons. simpl.
  rewrite (filter_cons (λ k', k' ≠ k) k0), (filter_cons (λ kv, kv.1 ≠ k) (k0, v0)).
  simpl. destruct (decide (k0 ≠ k)); [rewrite fmap_cons|]; by rewrite IH.
Qed.

Lemma filter_twice {A} (P : A → Prop) `{∀ x, Decision (P x)} (xs : list A) :
  filter P (filter P xs) = filter P xs.
Proof.
  induction xs as [|x xs IH]; [done|].
  rewrite (filter_cons P x xs). destruct (decide (P x)) as [Hx|Hx]; [|done].
  rewrite (filter_cons P x (filter P xs)). rewrite decide_True by done.
  by rewrite IH.
Qed.

Lemma keys_kept_refl s : keys_kept s s.
Proof. intros l o Hl. exists o. split; [done|by left]. Qed.

Lemma keys_kept_trans s1 s2 s3 : keys_kept s1 s2 → keys_kept s2 s3 → keys_kept s1 s3.
Proof.
  intros H12 H23 l o Hl.
  destruct (H12 _ _ Hl) as (o2 & Hl2 & Hk2).
  destruct (H23 _ _ Hl2) as (o3 & Hl3 & Hk3).
  exists o3. split; [done|].
  destruct Hk2 as [Hk2|Hk2], Hk3 as [Hk3|Hk3]; rewrite Hk3, Hk2; auto.
  right. apply filter_twice.
Qed.

Lemma keys_kept_alloc s x : keys_kept s (alloc_state s x).
Proof.
  intros l o Hl. exists o. split; [|by left]. simpl. by apply lookup_app_l_Some.
Qed.

Lemma keys_kept_write s l o k v :
  st_heap s !! l = Some (Obj o) → k ∈ obj_keys o →
  keys_kept s (write_state s l (obj_set k v o)).
Proof.
  intros Hl Hk l' o' Hl'. simpl. destruct (decide (l' = l)) as [->|Hne].
  - assert (o' = o) as -> by congruence.
    exists (obj_set k v o). split.
    + apply list_lookup_insert_eq. by eapply lookup_lt_Some.
    + left. apply obj_keys_set_present. by apply elem_of_obj_keys.
  - exists o'. split; [|by left]. by rewrite list_lookup_insert_ne.
Qed.

Lemma keys_kept_merge s l o resolved :
  st_heap s !! l = Some (Obj o) → keys_kept s (merge_state s l o resolved).
Proof.
  intros Hl l' o' Hl'. simpl. destruct (decide (l' = l)) as [->|Hne].
  - assert (o' = o) as -> by congruence.
    exists (obj_delete "$ref" o). split.
    + apply lookup_app_l_Some, list_lookup_insert_eq. by eapply lookup_lt_Some.
    + right. apply obj_keys_delete.
  - exists o'. split; [|by left].
    apply lookup_app_l_Some. by rewrite list_lookup_insert_ne.
Qed.

Lemma cache_wf_visit s l o :
  cache_wf s → st_heap s !! l = Some (Obj o) → cache_wf (visit_state s l).
Proof.
  intros Hwf Hl l1 Hl1. simpl in *.
  apply elem_of_union in Hl1 as [->%elem_of_singleton|?]; [|by apply Hwf].
  by eapply lookup_lt_Some.
Qed.

Lemma cache_wf_merge s l o resolved :
  cache_wf s → cache_wf (merge_state s l o resolved).
Proof.
  intros Hwf l1 Hl1. simpl in *. rewrite length_app, length_insert. simpl.
  apply elem_of_union in Hl1 as [->%elem_of_singleton|?]; [lia|].
  assert (l1 < length (st_heap s)) by (by apply Hwf). lia.
Qed.

Lemma cache_wf_write s l o : cache_wf s → cache_wf (write_state s l o).
Proof. intros Hwf l1 Hl1. simpl in *. rewrite length_insert. by apply Hwf. Qed.

Lemma mapM_keys fuel spec vs :
  (∀ v s v' s', cache_wf s → resolveRefs fuel spec v s = Ok v' s' → keys_kept s s') →
  ∀ s vs' s', cache_wf s → mapM (resolveRefs fuel spec) vs s = Ok vs' s' →
    keys_kept s s'.
Proof.
  intros Hf. induction vs as [|v vs IH]; intros s vs' s' Hwf Hrun; simpl in Hrun.
  - injection Hrun as <- <-. apply keys_kept_refl.
  - apply bind_Ok in Hrun as (v' & s1 & Hv & Hrun).
    apply bind_Ok in Hrun as (vs1 & s2 & Hvs & Hrun).
    injection Hrun as <- <-.
    destruct (resolveRefs_frame _ _ _ _ _ _ Hwf Hv) as (_ & Hwf1 & _).
    eapply keys_kept_trans; [by eapply Hf|by eapply IH].
Qed.

Lemma resolve_fields_keys fuel spec m ks :
  (∀ v s v' s', cache_wf s → resolveRefs fuel spec v s = Ok v' s' → keys_kept s s') →
  ∀ s o u s',
    cache_wf s → m ∈ st_cache s → st_heap s !! m = Some (Obj o) →
    (∀ k, k ∈ ks → k ∈ obj_keys o) →
    resolve_fields (resolveRefs fuel spec) m ks s = Ok u s' →
    keys_kept s s'.
Proof.
  intros Hf. induction ks as [|k ks IH]; intros s o u s' Hwf Hm Ho Hks Hrun;
    simpl in Hrun.
  - injection Hrun as <- <-. apply keys_kept_refl.
  - apply bind_Ok in Hrun as (o0 & s0 & Ho0 & Hrun).
    apply load_obj_Ok in Ho0 as [Ho0 ->].
    assert (o0 = o) as -> by congruence.
    apply bind_Ok in Hrun as (v' & s1 & Hv & Hrun).
    apply bind_Ok in Hrun as (o1 & s1' & Ho1 & Hrun).
    apply load_obj_Ok in Ho1 as [Ho1 ->].
    apply bind_Ok in Hrun as ([] & s2 & Hst & Hrun).
    injection Hst as <-.
    destruct (resolveRefs_frame _ _ _ _ _ _ Hwf Hv) as (Hfr & Hwf1 & [_ Hsub]).
    assert (o1 = o) as -> by (rewrite Hfr, Ho in Ho1 by done; congruence).
    assert (k ∈ obj_keys o) as Hk by (apply Hks, list_elem_of_here).
    eapply keys_kept_trans; [by eapply Hf|].
    eapply keys_kept_trans; [by apply keys_kept_write|].
    apply (IH (write_state s1 m (obj_set k v' o)) (obj_set k v' o) u s').
    + by apply cache_wf_write.
    + by apply Hsub.
    + simpl. apply list_lookup_insert_eq. by eapply lookup_lt_Some.
    + intros k0 Hk0. rewrite obj_keys_set_present by (by apply elem_of_obj_keys).
      apply Hks. by apply list_elem_of_further.
    + done.
Qed.

Lemma merged_node_middle s l o resolved :
  st_heap (merge_state s l o resolved) !! length (st_heap s)
    = Some (Obj (merged_node (st_heap s) l o resolved)).
Proof.
  simpl. rewrite <-(length_insert (st_heap s) l (Obj (obj_delete "$ref" o))).
  by apply list_lookup_middle.
Qed.

Lemma resolveRefs_keys fuel spec :
  ∀ v s v' s', cache_wf s → resolveRefs fuel spec v s = Ok v' s' → keys_kept s s'.
Proof.
  induction fuel as [|fuel IH]; intros v s v' s' Hwf Hrun; [done|].
  destruct (resolveRefs_shape spec v s)
    as [Hret|e Hthrow|l vs -> Hc Hl|l o -> Hc Hl Hno|l o r target -> Hc Hl Hget Hr Hres].
  - rewrite Hret in Hrun. injection Hrun as <- <-. apply keys_kept_refl.
  - by rewrite Hthrow in Hrun.
  - rewrite (resolveRefs_array _ _ _ _ _ Hc Hl) in Hrun.
    destruct (mapM _ _ _) as [vs' s1| |] eqn:Hmap; [|done..].
    injection Hrun as <- <-.
    eapply keys_kept_trans; [by eapply mapM_keys|apply keys_kept_alloc].
  - rewrite (resolveRefs_visit _ _ _ _ _ Hc Hl Hno) in Hrun.
    destruct (resolve_fields _ _ _ _) as [u s1| |] eqn:Hloop; [|done..].
    injection Hrun as <- <-.
    apply (resolve_fields_keys fuel spec l (obj_keys o) IH (visit_state s l) o u);
      [by eapply cache_wf_visit|simpl; set_solver|done|done|done].
  - rewrite (resolveRefs_merge _ _ _ _ _ _ _ Hc Hl Hget Hr Hres) in Hrun.
    destruct (resolve_fields _ _ _ _) as [u s1| |] eqn:Hloop; [|done..].
    injection Hrun as <- <-.
    eapply keys_kept_trans; [by apply keys_kept_merge|].
    apply (resolve_fields_keys fuel spec (length (st_heap s))
             (obj_keys (merged_node (st_heap s) l o target)) IH
             (merge_state s l o target) (merged_node (st_heap s) l o target) u);
      [by apply cache_wf_merge|simpl; set_solver|apply merged_node_middle|done|done].
Qed.

(** X14: [resolveRefs] keeps the shape of the document.  After a call,
    every object that was in the store is still there, with the same
    field names in the same order; the one exception is a [$ref]
    field, which the call may have deleted. *)
Theorem resolveRefs_fields_preserved fuel spec v s v' s' l o :
  cache_wf s → resolveRefs fuel spec v s = Ok v' s' →
  st_heap s !! l = Some (Obj o) →
  ∃ o', st_heap s' !! l = Some (Obj o') ∧
        (obj_keys o' = obj_keys o ∨
         obj_keys o' = filter (λ k, k ≠ "$ref") (obj_keys o)).
Proof. intros Hwf Hrun Hl. by apply (resolveRefs_keys _ _ _ _ _ _ Hwf Hrun). Qed.

(** X15: the reference field is deleted from the document.  Once
    [resolveRefs] has returned the merged copy for a node that carried a
    reference, the node itself is left in the store without its [$ref]
    field, and resolving the same node again returns the node itself, not a
    merged copy. *)
Theorem resolveRefs_strips_reference fuel spec l o r s v' s' :
  cache_wf s → l ∉ st_cache s → st_heap s !! l = Some (Obj o) →
  obj_get "$ref" o = Some (VStr r) → r ≠ "" →
  resolveRefs fuel spec (VRef l) s = Ok v' s' →
  v' ≠ VRef l ∧
  (∃ o', st_heap s' !! l = Some (Obj o') ∧ "$ref" ∉ obj_keys o') ∧
  ∀ fuel2 v2 s2, resolveRefs fuel2 spec (VRef l) s' = Ok v2 s2 → v2 = VRef l.
Proof.
  intros Hwf Hc Hl Hget Hr Hrun.
  destruct fuel as [|fuel]; [done|].
  destruct (resolveRef r spec (st_heap s)) as [e|target] eqn:Hres.
  { simpl in Hrun. rewrite decide_False, Hl, Hget in Hrun by done.
    simpl in Hrun. destruct r; [done|]. by rewrite Hres in Hrun. }
  rewrite (resolveRefs_merge _ _ _ _ _ _ _ Hc Hl Hget Hr Hres) in Hrun.
  destruct (resolve_fields _ _ _ _) as [u s1| |] eqn:Hloop; [|done..].
  injection Hrun as <- <-.
  assert (∃ o', st_heap s1 !! l = Some (Obj o') ∧ "$ref" ∉ obj_keys o')
    as (o' & Hl' & Hnoref).
  { assert (keys_kept (merge_state s l o target) s1) as Hkept.
    { apply (resolve_fields_keys fuel spec (length (st_heap s))
               (obj_keys (merged_node (st_heap s) l o target))
               (resolveRefs_keys fuel spec)
               (merge_state s l o target) (merged_node (st_heap s) l o target) u);
        [by apply cache_wf_merge|simpl; set_solver|apply merged_node_middle|done|done]. }
    destruct (Hkept l (obj_delete "$ref" o)) as (o' & Hl' & Hkeys).
    { simpl. apply lookup_app_l_Some, list_lookup_insert_eq.
      by eapply lookup_lt_Some. }
    exists o'. split; [done|]. rewrite obj_keys_delete in Hkeys.
    destruct Hkeys as [->| ->]; rewrite ?filter_twice;
      intros Hin%list_elem_of_filter; by destruct Hin. }
  split_and!.
  - intros [= Heq]. apply lookup_lt_Some in Hl. lia.
  - by exists o'.
  - intros fuel2 v2 s2 Hrun2. destruct fuel2 as [|fuel2]; [done|].
    destruct (decide (l ∈ st_cache s1)) as [Hc1|Hc1].
    { rewrite resolveRefs_cached in Hrun2 by done. by injection Hrun2 as <- _. }
    assert (truthy (default VUndef (obj_get "$ref" o')) = false) as Hno.
    { destruct (obj_get "$ref" o') as [x|] eqn:Hx; [|done].
      destruct Hnoref. apply elem_of_obj_keys. by eexists. }
    rewrite (resolveRefs_visit _ _ _ _ _ Hc1 Hl' Hno) in Hrun2.
    destruct (resolve_fields _ _ _ (visit_state s1 l)) as [u2 s3| |]; [|done..].
    by injection Hrun2 as <- _.
Qed.

Lemma cache_wf_empty h : cache_wf (State h ∅).
Proof. intros l Hl. simpl in Hl. set_solver. Qed.

Lemma resolveRefs_fields_preserved_witness :
  ∃ v' s',
    resolveRefs 3 (VRef 0) (VRef 4) (State chained_doc ∅) = Ok v' s' ∧
    ∃ o', st_heap s' !! 4 = Some (Obj o') ∧
          (obj_keys o' = obj_keys [("$ref", VStr "#/definitions/A"); ("b", VNum 3)] ∨
           obj_keys o' = filter (λ k, k ≠ "$ref")
                           (obj_keys [("$ref", VStr "#/definitions/A"); ("b", VNum 3)])).
Proof.
  eexists _, _. split; [vm_compute; reflexivity|].
  apply (resolveRefs_fields_preserved 3 (VRef 0) (VRef 4) (State chained_doc ∅)
           (VRef 5) _ 4 _ (cache_wf_empty _)); [vm_compute|]; reflexivity.
Defined.

Lemma resolveRefs_strips_reference_witness :
  ∃ v' s',
    resolveRefs 3 (VRef 0) (VRef 4) (State chained_doc ∅) = Ok v' s' ∧
    v' ≠ VRef 4 ∧
    (∃ o', st_heap s' !! 4 = Some (Obj o') ∧ "$ref" ∉ obj_keys o') ∧
    ∀ fuel2 v2 s2, resolveRefs fuel2 (VRef 0) (VRef 4) s' = Ok v2 s2 → v2 = VRef 4.
Proof.
  eexists _, _. split; [vm_compute; reflexivity|].
  apply (resolveRefs_strips_reference 3 (VRef 0) 4
           [("$ref", VStr "#/definitions/A"); ("b", VNum 3)] "#/definitions/A"
           (State chained_doc ∅) (VRef 5) _ (cache_wf_empty _));
    [simpl; set_solver|reflexivity|reflexivity|done|vm_compute; reflexivity].
Defined.

(** ** The three kinds of value [resolveRefs] works on *)

Lemma mapM_Forall2 {A B} (f : A → M B) xs :
  ∀ s ys s', mapM f xs s = Ok ys s' →
    Forall2 (λ x y, ∃ s1 s2, f x s1 = Ok y s2) xs ys.
Proof.
  induction xs as [|x xs IH]; intros s ys s' Hrun; simpl in Hrun.
  - injection Hrun as <- <-. constructor.
  - apply bind_Ok in Hrun as (y & s1 & Hy & Hrun).
    apply bind_Ok in Hrun as (ys1 & s2 & Hys & Hrun).
    injection Hrun as <- <-. constructor; [eauto|by eapply IH].
Qed.

(** X16: an array is copied, never changed.  For an array,
    [resolveRefs] returns a new array of the same length, in which every
    element that is a primitive is kept; the array it was given is left as
    it was, and the new one is not put in the memo. *)
Theorem resolveRefs_array_copy fuel spec l vs s v' s' :
  cache_wf s → l ∉ st_cache s → st_heap s !! l = Some (Arr vs) →
  resolveRefs fuel spec (VRef l) s = Ok v' s' →
  ∃ l' vs',
    v' = VRef l' ∧ length (st_heap s) ≤ l' ∧ (l' ∉ st_cache s') ∧
    st_heap s' !! l' = Some (Arr vs') ∧
    length vs' = length vs ∧
    (∀ i v, vs !! i = Some v → (∀ l0, v ≠ VRef l0) → vs' !! i = Some v) ∧
    st_heap s' !! l = Some (Arr vs).
Proof.
  intros Hwf Hc Hl Hrun. destruct fuel as [|fuel]; [done|].
  rewrite (resolveRefs_array _ _ _ _ _ Hc Hl) in Hrun.
  destruct (mapM _ _ _) as [vs' s1| |] eqn:Hmap; [|done..].
  injection Hrun as <- <-.
  destruct (mapM_frame _ _ (resolveRefs_frame fuel spec) _ _ _ Hwf Hmap)
    as (_ & Hwf1 & [(Hlen & Harr & _) _]).
  apply mapM_Forall2 in Hmap.
  exists (length (st_heap s1)), vs'. split_and!; [done|done| | | | |].
  - simpl. intros Hin. apply Hwf1 in Hin. lia.
  - simpl. by apply list_lookup_middle.
  - symmetry. by eapply Forall2_length.
  - intros i v Hi Hprim.
    destruct (Forall2_lookup_l _ _ _ _ _ Hmap Hi) as (v1 & Hi1 & s2 & s3 & Hv).
    destruct fuel as [|fuel]; [done|].
    rewrite resolveRefs_prim in Hv by done. by injection Hv as <- _.
  - simpl. apply lookup_app_l_Some. by apply Harr.
Qed.

Lemma resolveRefs_array_copy_witness :
  ∃ v' s',
    resolveRefs 8 (VRef 0) (VRef 4) (State mutual_doc ∅) = Ok v' s' ∧
    ∃ l' vs',
      v' = VRef l' ∧ length mutual_doc ≤ l' ∧ (l' ∉ st_cache s') ∧
      st_heap s' !! l' = Some (Arr vs') ∧
      length vs' = length [VRef 2; VRef 3] ∧
      (∀ i v, [VRef 2; VRef 3] !! i = Some v → (∀ l0, v ≠ VRef l0) →
         vs' !! i = Some v) ∧
      st_heap s' !! 4 = Some (Arr [VRef 2; VRef 3]).
Proof.
  eexists _, _. split; [vm_compute; reflexivity|].
  apply (resolveRefs_array_copy 8 (VRef 0) 4 [VRef 2; VRef 3] (State mutual_doc ∅)
           _ _ (cache_wf_empty _));
    [simpl; set_solver|reflexivity|vm_compute; reflexivity].
Defined.

(** X17: a node without a reference is resolved in place.  For an
    object that is not in the memo and has no truthy [$ref], [resolveRefs]
    returns the object itself, now in the memo, with the same field names
    in the same order and with every field that held a primitive
    unchanged. *)
Theorem resolveRefs_plain_node fuel spec l o s v' s' :
  cache_wf s → l ∉ st_cache s → st_heap s !! l = Some (Obj o) →
  truthy (default VUndef (obj_get "$ref" o)) = false →
  resolveRefs fuel spec (VRef l) s = Ok v' s' →
  v' = VRef l ∧ l ∈ st_cache s' ∧
  ∃ o', st_heap s' !! l = Some (Obj o') ∧ obj_keys o' = obj_keys o ∧
        ∀ k v, obj_get k o = Some v → (∀ l0, v ≠ VRef l0) → obj_get k o' = Some v.
Proof.
  intros Hwf Hc Hl Hno Hrun.
  pose proof (resolveRefs_resolved _ _ _ _ _ _ Hrun) as [[_ Hsub] Hres].
  destruct fuel as [|fuel]; [done|].
  rewrite (resolveRefs_visit _ _ _ _ _ Hc Hl Hno) in Hrun.
  destruct (resolve_fields _ _ _ _) as [u s1| |] eqn:Hloop; [|done..].
  injection Hrun as <- <-.
  destruct (resolve_fields_keeps fuel spec l (obj_keys o) (visit_state s l) o u s1)
    as (o' & Hl' & Hkeys & Hprims);
    [by eapply cache_wf_visit|simpl; set_solver|done|done|done|].
  split_and!; [done| |by exists o'].
  inversion Hres as [v Hv|l0 Hin|l0 vs Harr _]; subst; [by destruct (Hv l)|done|].
  congruence.
Qed.

Lemma resolveRefs_plain_node_witness :
  ∃ v' s',
    resolveRefs 8 (VRef 0) (VRef 1) (State mutual_doc ∅) = Ok v' s' ∧
    v' = VRef 1 ∧ 1 ∈ st_cache s' ∧
    ∃ o', st_heap s' !! 1 = Some (Obj o') ∧
          obj_keys o' = obj_keys [("A", VRef 2); ("B", VRef 3)] ∧
          ∀ k v, obj_get k [("A", VRef 2); ("B", VRef 3)] = Some v →
                 (∀ l0, v ≠ VRef l0) → obj_get k o' = Some v.
Proof.
  eexists _, _. split; [vm_compute; reflexivity|].
  apply (resolveRefs_plain_node 8 (VRef 0) 1 [("A", VRef 2); ("B", VRef 3)]
           (State mutual_doc ∅) _ _ (cache_wf_empty _));
    [simpl; set_solver|reflexivity|reflexivity|vm_compute; reflexivity].
Defined.





(** X19: what a call leaves alone.  Whatever [resolveRefs] is given, an
    object that is in the memo when the call starts is the same after it,
    field by field; no array of the store is changed; nothing leaves the
    store or the memo. *)
Theorem resolveRefs_visited_untouched fuel spec v s v' s' :
  cache_wf s → resolveRefs fuel spec v s = Ok v' s' →
  (∀ l, l ∈ st_cache s → st_heap s' !! l = st_heap s !! l) ∧
  (∀ l vs, st_heap s !! l = Some (Arr vs) → st_heap s' !! l = Some (Arr vs)) ∧
  length (st_heap s) ≤ length (st_heap s') ∧
  st_cache s ⊆ st_cache s' ∧
  cache_wf s'.
Proof.
  intros Hwf Hrun.
  destruct (resolveRefs_frame _ _ _ _ _ _ Hwf Hrun)
    as (Hfr & Hwf' & (Hlen & Harr & _) & Hsub).
  by split_and!.
Qed.

Lemma resolveRefs_visited_untouched_witness :
  ∃ v' s',
    resolveRefs 8 (VRef 0) (VRef 3) (State mutual_doc {[1]}) = Ok v' s' ∧
    (∀ l, l ∈ ({[1]} : gset nat) → st_heap s' !! l = mutual_doc !! l) ∧
    (∀ l vs, mutual_doc !! l = Some (Arr vs) → st_heap s' !! l = Some (Arr vs)) ∧
    length mutual_doc ≤ length (st_heap s') ∧
    ({[1]} : gset nat) ⊆ st_cache s' ∧
    cache_wf s'.
Proof.
  assert (cache_wf (State mutual_doc {[1]})) as Hwf.
  { intros l Hl. simpl in *. apply elem_of_singleton in Hl as ->. lia. }
  run_as Hrun (resolveRefs 8 (VRef 0) (VRef 3) (State mutual_doc {[1]})).
  eexists _, _. split; [exact Hrun|].
  exact (resolveRefs_visited_untouched _ _ _ _ _ _ Hwf Hrun).
Defined.

(** X20: a reference that cannot be followed aborts the call.  For an
    object outside the memo whose [$ref] is truthy, [resolveRefs] throws a
    [TypeError] when the [$ref] is not a string, and the assertion error
    [InvalidReferenceFormat] when it is a string other than ['#'] that does
    not start with ['#/'] (a reference into another file, for one). *)
Theorem resolveRefs_bad_reference fuel spec l o ref s :
  l ∉ st_cache s → st_heap s !! l = Some (Obj o) →
  obj_get "$ref" o = Some ref → truthy ref = true →
  match ref with
  | VStr r =>
      r ≠ "#" → String.prefix "#/" r = false →
      resolveRefs (S fuel) spec (VRef l) s = Throw InvalidReferenceFormat
  | _ => resolveRefs (S fuel) spec (VRef l) s = Throw TypeError
  end.
Proof.
  intros Hc Hl Hget Ht. simpl. rewrite decide_False, Hl, Hget by done. simpl.
  rewrite Ht. destruct ref as [| |b|n|r|l0]; try done.
  intros Hne Hpre.
  destruct (resolveRef_shape r spec (st_heap s))
    as [[-> _]|[(t & _ & Hpre' & _)|(_ & _ & ->)]]; [done|congruence|done].
Qed.

Lemma resolveRefs_bad_reference_witness :
  resolveRefs 1 (VRef 0) (VRef 1)
    (State [Obj []; Obj [("$ref", VStr "pet.json#/definitions/Pet")]] ∅)
  = Throw InvalidReferenceFormat.
Proof.
  apply (resolveRefs_bad_reference 0 (VRef 0) 1
           [("$ref", VStr "pet.json#/definitions/Pet")]
           (VStr "pet.json#/definitions/Pet")
           (State [Obj []; Obj [("$ref", VStr "pet.json#/definitions/Pet")]] ∅));
    [simpl; set_solver|reflexivity|reflexivity|reflexivity|done|reflexivity].
Defined.

(** ** Path items and their extensions *)

Lemma lift_run {A} (f : heap → error + A) s :
  lift f s = match f (st_heap s) with
             | inl e => Throw e
             | inr a => Ok a s
             end.
Proof. done. Qed.

Lemma obj_get_x_props h data keys k :
  obj_get k (x_props h data keys) =
    if decide (k ∈ keys ∧ String.prefix "x-" k = true)
    then Some (get_prop h data k) else None.
Proof.
  unfold x_props.
  assert (∀ ks (o : obj val),
            obj_get k (foldl (λ xProps prop, obj_set prop (get_prop h data prop) xProps)
                         o ks) =
            if decide (k ∈ ks) then Some (get_prop h data k) else obj_get k o) as Hfold.
  { induction ks as [|k0 ks IH]; intros o; simpl; [done|].
    rewrite IH, obj_get_set.
    destruct (decide (k ∈ ks)) as [Hin|Hnin].
    - by rewrite decide_True by (by apply list_elem_of_further).
    - destruct (decide (k = k0)) as [->|Hne].
      + by rewrite decide_True by apply list_elem_of_here.
      + rewrite decide_False; [done|]. intros [?|?]%elem_of_cons; done. }
  rewrite Hfold. simpl.
  destruct (decide (k ∈ filter _ keys)) as [Hin|Hnin].
  - apply list_elem_of_filter in Hin as [Hpre Hin]. by rewrite decide_True.
  - rewrite decide_False; [done|]. intros [Hin Hpre]. apply Hnin.
    by apply list_elem_of_filter.
Qed.

(** X21: [getXProps] throws a [TypeError] on [null] and [undefined].  On
    anything else it returns a new object and leaves the rest of the store
    as it was; the fields of the new object are the own fields of its
    argument whose name starts with ['x-'], with the argument's values. *)
Theorem getXProps_spec (data : val) (s : state) :
  if nullish data then getXProps data s = Throw TypeError
  else
    ∃ xProps,
      getXProps data s
        = Ok (VRef (length (st_heap s)))
             (State (st_heap s ++ [Obj xProps]) (st_cache s)) ∧
      ∀ k, obj_get k xProps =
             if decide (k ∈ own_keys (st_heap s) data ∧ String.prefix "x-" k = true)
             then Some (get_prop (st_heap s) data k) else None.
Proof.
  unfold getXProps, object_keys.
  destruct (nullish data) eqn:Hnull.
  - done.
  - exists (x_props (st_heap s) data (own_keys (st_heap s) data)). split.
    + done.
    + apply obj_get_x_props.
Qed.

Lemma get_prop_app h extra v k :
  val_closed h v → get_prop (h ++ extra) v k = get_prop h v k.
Proof.
  intros Hv. destruct v as [| | | | |l]; try done.
  simpl. by rewrite lookup_app_l by (by apply Hv).
Qed.

Lemma own_keys_app h extra v :
  val_closed h v → own_keys (h ++ extra) v = own_keys h v.
Proof.
  intros Hv. destruct v as [| | | | |l]; try done.
  unfold own_keys. simpl. by rewrite lookup_app_l by (by apply Hv).
Qed.

Lemma obj_assign_app {A} (f : val → A) h extra target source :
  val_closed h source →
  obj_assign f (h ++ extra) target source = obj_assign f h target source.
Proof.
  intros Hv. unfold obj_assign. rewrite own_keys_app by done.
  generalize (own_keys h source) as ks. intros ks. revert target.
  induction ks as [|k ks IH]; intros target; simpl; [done|].
  by rewrite get_prop_app, IH.
Qed.

Lemma truthy_get_prop_closed h v k :
  truthy (get_prop h v k) = true → val_closed h v.
Proof.
  intros Ht l ->. simpl in Ht.
  destruct (h !! l) eqn:Hl; [by eapply lookup_lt_Some|done].
Qed.

Lemma own_keys_closed h v k : k ∈ own_keys h v → val_closed h v.
Proof.
  intros Hk l ->. unfold own_keys in Hk. simpl in Hk.
  destruct (h !! l) eqn:Hl; [by eapply lookup_lt_Some|].
  by apply elem_of_nil in Hk.
Qed.

Lemma obj_keys_insert_index {A} n k (v : A) (o : obj A) :
  obj_keys (obj_insert_index n k v o) ≡ₚ k :: obj_keys o.
Proof.
  unfold obj_keys. induction o as [|[k0 v0] o IH]; simpl; [done|].
  destruct (array_index k0) as [n'|]; [destruct (n' <? n)%N|]; simpl; try done.
  change (list_fmap _ _ fst ?x) with (x.*1). rewrite IH. apply Permutation_swap.
Qed.

Lemma obj_keys_set_absent {A} k (v : A) (o : obj A) :
  obj_get k o = None → obj_keys (obj_set k v o) ≡ₚ k :: obj_keys o.
Proof.
  intros Hk. unfold obj_set. rewrite Hk. destruct (array_index k) as [n|].
  - apply obj_keys_insert_index.
  - unfold obj_keys. rewrite fmap_app. simpl. by rewrite Permutation_app_comm.
Qed.

Lemma obj_set_NoDup {A} k (v : A) (o : obj A) :
  NoDup (obj_keys o) → NoDup (obj_keys (obj_set k v o)).
Proof.
  intros Hnd. destruct (obj_get k o) as [w|] eqn:Hk.
  - rewrite obj_keys_set_present by eauto. done.
  - rewrite obj_keys_set_absent by done. constructor; [|done].
    intros [w Hw]%elem_of_obj_keys. congruence.
Qed.

Lemma obj_assign_NoDup {A} (f : val → A) h (target : obj A) source :
  NoDup (obj_keys target) → NoDup (obj_keys (obj_assign f h target source)).
Proof.
  unfold obj_assign. generalize (own_keys h source) as ks. intros ks. revert target.
  induction ks as [|k ks IH]; intros target Hnd; simpl; [done|].
  by apply IH, obj_set_NoDup.
Qed.

(** The loop of [getPaths], started in a store that already holds the
    path informations [extra]. *)
Lemma getPaths_loop spec h c paths ks :
  nullish spec = false → get_prop h spec "paths" = paths → val_closed h spec →
  Forall (λ path, path ∈ own_keys h paths ∧ val_closed h (get_prop h paths path)) ks →
  ∀ extra, ∃ infos,
    mapM (λ path,
        let! item := lift (λ h, try! paths := get_member h spec "paths" in
                                 get_member h paths path) in
        let! pathInfo := lift (λ h, inr (obj_assign id h [("path", VStr path)] item)) in
        let! l := alloc (Obj pathInfo) in
        ret (VRef l)) ks (State (h ++ extra) c)
    = Ok (VRef <$> seq (length (h ++ extra)) (length ks))
         (State (h ++ extra ++ (Obj <$> infos)) c) ∧
    Forall2 (λ path info, path_info_fields h path (get_prop h paths path) info)
      ks infos.
Proof.
  intros Hspec Hpaths Hcl. induction 1 as [|path ks [Hin Hitem] _ IH]; intros extra.
  - exists []. split; [|constructor]. simpl. by rewrite app_nil_r.
  - destruct (IH (extra ++ [Obj (obj_assign id h [("path", VStr path)]
                                   (get_prop h paths path))]))
      as (infos & Hrun & Hinfos).
    exists (obj_assign id h [("path", VStr path)] (get_prop h paths path) :: infos).
    split.
    + change (mapM ?f (path :: ks)) with (let! y := f path in let! ys := mapM f ks in ret (y :: ys)).
      rewrite (bind_run _ _ _ (Ok (VRef (length (h ++ extra)))
                 (State ((h ++ extra) ++
                    [Obj (obj_assign id h [("path", VStr path)]
                            (get_prop h paths path))]) c))).
      * rewrite <-!app_assoc in *. rewrite (bind_run _ _ _ _ Hrun).
        simpl. rewrite !length_app. simpl.
        repeat f_equal. lia.
      * unfold bind, lift. simpl. unfold get_member. rewrite Hspec.
        simpl. rewrite get_prop_app, Hpaths by done.
        assert (nullish paths = false) as ->.
        { destruct paths; try done; by apply elem_of_nil in Hin. }
        simpl. rewrite get_prop_app by (by eapply own_keys_closed).
        by rewrite obj_assign_app.
    + constructor; [|done]. split.
      { apply obj_assign_NoDup. apply NoDup_singleton. }
      intros k. rewrite obj_get_assign.
      destruct (decide (k ∈ own_keys h (get_prop h paths path))); [done|]. simpl.
      by destruct (decide (k = "path")).
Qed.

(** What [getPaths] returns, and the store it leaves. *)
Lemma getPaths_run (spec : val) (s : state) :
  nullish spec = false →
  let h := st_heap s in
  Forall (λ path, val_closed h (path_item h spec path)) (path_keys h spec) →
  ∃ infos,
    getPaths spec s
      = Ok (VRef <$> seq (length h) (length (path_keys h spec)))
           (State (h ++ (Obj <$> infos)) (st_cache s)) ∧
    Forall2 (λ path info, path_info_fields h path (path_item h spec path) info)
      (path_keys h spec) infos.
Proof.
  intros Hspec h Hclosed. destruct s as [h0 c]. simpl in h. subst h.
  unfold getPaths, path_keys, path_item in *.
  unfold bind at 1. unfold lift at 1. simpl. unfold get_member at 1. rewrite Hspec.
  unfold bind at 1. unfold lift at 1. simpl.
  destruct (truthy (get_prop h0 spec "paths")) eqn:Hpaths.
  - assert (val_closed h0 spec) as Hcl by (by eapply truthy_get_prop_closed).
    assert (Forall (λ path, path ∈ own_keys h0 (get_prop h0 spec "paths") ∧
                            val_closed h0 (get_prop h0 (get_prop h0 spec "paths") path))
              (own_keys h0 (get_prop h0 spec "paths"))) as Hall.
    { apply Forall_forall. intros path Hin. split; [done|].
      rewrite Forall_forall in Hclosed. by apply Hclosed. }
    destruct (getPaths_loop spec h0 c _ _ Hspec eq_refl Hcl Hall [])
      as (infos & Hrun & Hinfos).
    exists infos. rewrite app_nil_r in Hrun. simpl in Hrun. by split.
  - exists []. split; [|constructor]. simpl. by rewrite app_nil_r.
Qed.



(** ** One operation for each method of each path *)

Lemma method_keys_no_ref ks :
  method_keys (filter (λ k, k ≠ "$ref") ks) = method_keys ks.
Proof.
  unfold method_keys. induction ks as [|k ks IH]; [done|].
  rewrite (filter_cons (λ k, k ≠ "$ref")), (filter_cons (λ key, key ∈ HTTP_METHODS) k ks).
  destruct (decide (k ≠ "$ref")) as [Hk|Hk].
  - rewrite (filter_cons (λ key, key ∈ HTTP_METHODS)). by rewrite IH.
  - apply dec_stable in Hk as ->. rewrite decide_False; [done|]. not_a_key.
Qed.

Lemma method_keys_set {A} k (v : A) (o : obj A) :
  k ∉ HTTP_METHODS → array_index k = None →
  method_keys (obj_keys (obj_set k v o)) = method_keys (obj_keys o).
Proof.
  intros Hk Hidx. destruct (obj_get k o) as [w|] eqn:Hget.
  - by rewrite obj_keys_set_present by eauto.
  - unfold obj_set. rewrite Hget, Hidx. unfold obj_keys, method_keys.
    rewrite fmap_app, filter_app. simpl.
    rewrite (filter_cons (λ key, key ∈ HTTP_METHODS)), decide_False by done.
    by rewrite filter_nil, app_nil_r.
Qed.

Lemma methods_kept_refl s : methods_kept s s.
Proof. intros l o Hl. by exists o. Qed.

Lemma methods_kept_trans s1 s2 s3 :
  methods_kept s1 s2 → methods_kept s2 s3 → methods_kept s1 s3.
Proof.
  intros H12 H23 l o Hl.
  destruct (H12 _ _ Hl) as (o2 & Hl2 & Hk2).
  destruct (H23 _ _ Hl2) as (o3 & Hl3 & Hk3).
  exists o3. split; [done|congruence].
Qed.

Lemma keys_kept_methods s s' : keys_kept s s' → methods_kept s s'.
Proof.
  intros Hkept l o Hl. destruct (Hkept _ _ Hl) as (o' & Hl' & Hkeys).
  exists o'. split; [done|].
  destruct Hkeys as [->| ->]; [done|apply method_keys_no_ref].
Qed.

Lemma methods_kept_app h c extra : methods_kept (State h c) (State (h ++ extra) c).
Proof.
  intros l o Hl. exists o. split; [|done]. simpl in *. by apply lookup_app_l_Some.
Qed.

Lemma default_field_methods_kept node k fresh s s' :
  k ∉ HTTP_METHODS → k ≠ "length" → array_index k = None →
  default_field node k fresh s = Ok tt s' →
  methods_kept s s' ∧ (cache_wf s → cache_wf s').
Proof.
  intros Hk Hlen Hidx Hrun.
  apply default_field_Ok in Hrun as (l & o & -> & Hl & Hc & Hcases); [|done..].
  destruct Hcases as [[_ ->]|[_ Hh]].
  { split; [apply methods_kept_refl|done]. }
  split.
  - intros l' o' Hl'. rewrite Hh. destruct (decide (l' = l)) as [->|Hne].
    + assert (o' = o) as -> by congruence.
      eexists. split.
      * apply list_lookup_insert_eq. rewrite length_app.
        apply lookup_lt_Some in Hl. lia.
      * by apply method_keys_set.
    + exists o'. split; [|done]. rewrite list_lookup_insert_ne by done.
      by apply lookup_app_l_Some.
  - intros Hwf l' Hl'. rewrite Hc in Hl'. apply Hwf in Hl'.
    rewrite Hh, length_insert, length_app. lia.
Qed.

Lemma createPathOperation_methods_kept fuel method pathInfo pathsXProps spec s d s' :
  cache_wf s →
  createPathOperation fuel method pathInfo pathsXProps spec s = Ok d s' →
  methods_kept s s' ∧ cache_wf s'.
Proof.
  intros Hwf Hrun.
  apply createPathOperation_steps in Hrun
    as (raw & operationInfo & s1 & s2 & _ & Hres & Hp & Hr & _).
  pose proof (resolveRefs_keys _ _ _ _ _ _ Hwf Hres) as Hkeys.
  destruct (resolveRefs_frame _ _ _ _ _ _ Hwf Hres) as (_ & Hwf1 & _).
  apply default_field_methods_kept in Hp as [Hk2 Hwf2]; [|not_a_key|done..].
  apply default_field_methods_kept in Hr as [Hk3 Hwf3]; [|not_a_key|done..].
  split; [|auto].
  eapply methods_kept_trans; [by apply keys_kept_methods|].
  by eapply methods_kept_trans.
Qed.

Lemma mapM_createPathOperation fuel pathInfo xProps spec methods :
  ∀ s ops s',
    cache_wf s →
    mapM (λ method, createPathOperation fuel method pathInfo xProps spec) methods s
      = Ok ops s' →
    methods_kept s s' ∧ cache_wf s' ∧
    Forall2 (λ method op, ∃ s1 s2,
               createPathOperation fuel method pathInfo xProps spec s1 = Ok op s2)
      methods ops.
Proof.
  induction methods as [|m methods IH]; intros s ops s' Hwf Hrun; simpl in Hrun.
  - injection Hrun as <- <-. split_and!; [apply methods_kept_refl|done|constructor].
  - apply bind_Ok in Hrun as (op & s1 & Hop & Hrun).
    apply bind_Ok in Hrun as (ops1 & s2 & Hops & Hrun).
    injection Hrun as <- <-.
    destruct (createPathOperation_methods_kept _ _ _ _ _ _ _ _ Hwf Hop) as [Hk1 Hwf1].
    destruct (IH _ _ _ Hwf1 Hops) as (Hk2 & Hwf2 & Hall).
    split_and!; [by eapply methods_kept_trans|done|].
    constructor; [eauto|done].
Qed.

Lemma getXProps_run data s :
  getXProps data s =
    if nullish data then Throw TypeError
    else Ok (VRef (length (st_heap s)))
            (State (st_heap s ++ [Obj (x_props (st_heap s) data
                                         (own_keys (st_heap s) data))])
                   (st_cache s)).
Proof. unfold getXProps, object_keys, bind, lift. simpl. by destruct (nullish data). Qed.

Lemma getPathOperations_steps fuel pathInfo spec s ops s' :
  getPathOperations fuel pathInfo spec s = Ok ops s' →
  nullish pathInfo = false ∧
  let h := st_heap s in
  let xProps := x_props h pathInfo (own_keys h pathInfo) in
  mapM (λ method, createPathOperation fuel method pathInfo (VRef (length h)) spec)
       (method_keys (own_keys h pathInfo))
       (State (h ++ [Obj xProps]) (st_cache s))
  = Ok ops s'.
Proof.
  unfold getPathOperations. rewrite (bind_run _ _ _ _ (getXProps_run pathInfo s)).
  destruct (nullish pathInfo) eqn:Hnull; [done|].
  unfold bind at 1. unfold lift, object_keys. simpl. rewrite Hnull.
  intros Hrun. split; [done|]. simpl.
  assert (own_keys (st_heap s ++ [Obj (x_props (st_heap s) pathInfo
                                         (own_keys (st_heap s) pathInfo))]) pathInfo
          = own_keys (st_heap s) pathInfo) as Hkeys.
  { destruct pathInfo as [| | | | |l]; try done. unfold own_keys. simpl.
    destruct (decide (l < length (st_heap s))) as [Hlt|Hge].
    - by rewrite lookup_app_l.
    - rewrite (lookup_ge_None_2 (st_heap s) l) by lia.
      rewrite lookup_app_r by lia.
      by destruct (l - length (st_heap s)) as [|n] eqn:Hn. }
  by rewrite Hkeys in Hrun.
Qed.



Lemma HTTP_METHODS_NoDup : NoDup HTTP_METHODS.
Proof. by apply (bool_decide_unpack _). Qed.

Lemma filter_ext_elem {A} (P Q : A → Prop) `{∀ x, Decision (P x)}
    `{∀ x, Decision (Q x)} (xs : list A) :
  (∀ x, x ∈ xs → (P x ↔ Q x)) → filter P xs = filter Q xs.
Proof.
  induction xs as [|x xs IH]; intros Hext; [done|].
  rewrite !filter_cons.
  rewrite IH by (intros y Hy; apply Hext; by apply list_elem_of_further).
  destruct (decide (P x)) as [HP|HP], (decide (Q x)) as [HQ|HQ]; try done.
  - destruct HQ. by apply (Hext x (list_elem_of_here _ _)).
  - destruct HP. by apply (Hext x (list_elem_of_here _ _)).
Qed.

(** The method keys of a list of distinct keys, counted from the list
    of the methods. *)
Lemma method_keys_count ks :
  NoDup ks →
  length (method_keys ks) = length (filter (λ m, m ∈ ks) HTTP_METHODS).
Proof.
  intros Hnd. apply Permutation_length, NoDup_Permutation.
  - by apply NoDup_filter.
  - apply NoDup_filter, HTTP_METHODS_NoDup.
  - intros x. unfold method_keys. rewrite !list_elem_of_filter. tauto.
Qed.

Lemma path_info_methods h path item info :
  path_info_fields h path item info →
  length (method_keys (obj_keys info))
    = length (filter (λ m, m ∈ own_keys h item) HTTP_METHODS).
Proof.
  intros [Hnd Hfields]. rewrite method_keys_count by done. f_equal.
  apply filter_ext_elem. intros m Hm.
  rewrite elem_of_obj_keys, Hfields.
  destruct (decide (m ∈ own_keys h item)) as [Hin|Hnin]; [by split; [|eauto]|].
  destruct (decide (m = "path")) as [->|]; [|by split; [intros [? ?]|]].
  exfalso. revert Hm. not_a_key.
Qed.

Lemma own_keys_fresh_objects (f : list string → nat) infos :
  ∀ hb : list hobj,
    (λ p, f (own_keys (hb ++ (Obj <$> infos)) p))
      <$> (VRef <$> seq (length hb) (length infos))
    = (λ info, f (obj_keys info)) <$> infos.
Proof.
  induction infos as [|info infos IH]; intros hb; [done|].
  rewrite fmap_cons, length_cons, <-cons_seq, !fmap_cons. f_equal.
  - unfold own_keys. simpl. by rewrite list_lookup_middle.
  - specialize (IH (hb ++ [Obj info])).
    rewrite length_app, Nat.add_1_r, <-app_assoc in IH. exact IH.
Qed.

Lemma fresh_objects_lookup infos :
  ∀ hb : list hobj,
    Forall (λ p, ∃ l o, p = VRef l ∧ (hb ++ (Obj <$> infos)) !! l = Some (Obj o))
      (VRef <$> seq (length hb) (length infos)).
Proof.
  induction infos as [|info infos IH]; intros hb; [constructor|].
  rewrite length_cons, <-cons_seq, !fmap_cons. constructor.
  - exists (length hb), info. split; [done|]. by rewrite list_lookup_middle.
  - specialize (IH (hb ++ [Obj info])).
    rewrite length_app, Nat.add_1_r, <-app_assoc in IH. exact IH.
Qed.

(** The [reduce] of [getAllOperations] over path informations that are
    objects of the store. *)
Lemma getAllOperations_loop fuel spec infos :
  ∀ s acc ops s',
    cache_wf s →
    Forall (λ p, ∃ l o, p = VRef l ∧ st_heap s !! l = Some (Obj o)) infos →
    foldM (λ ops pathInfo,
        let! more := getPathOperations fuel pathInfo spec in
        ret (ops ++ more)) acc infos s = Ok ops s' →
    length ops = length acc +
      sum_list ((λ p, length (method_keys (own_keys (st_heap s) p))) <$> infos).
Proof.
  induction infos as [|p infos IH]; intros s acc ops s' Hwf Hall Hrun; simpl in Hrun.
  - injection Hrun as <- <-. simpl. lia.
  - apply bind_Ok in Hrun as (acc' & s1 & Hstep & Hrun).
    apply bind_Ok in Hstep as (more & s1' & Hmore & Hret).
    injection Hret as <- <-.
    apply getPathOperations_steps in Hmore as [_ Hmap]. simpl in Hmap.
    assert (cache_wf (State (st_heap s ++ [Obj (x_props (st_heap s) p
                                                 (own_keys (st_heap s) p))])
                            (st_cache s))) as Hwf0.
    { intros l Hl. simpl in *. rewrite length_app. apply Hwf in Hl. lia. }
    destruct (mapM_createPathOperation _ _ _ _ _ _ _ _ Hwf0 Hmap)
      as (Hkept & Hwf1 & Hops).
    assert (methods_kept s s1') as Hkept'.
    { eapply methods_kept_trans; [|done]. destruct s. apply methods_kept_app. }
    assert (∀ q, q ∈ p :: infos →
              (∃ l o, q = VRef l ∧ st_heap s1' !! l = Some (Obj o)) ∧
              method_keys (own_keys (st_heap s1') q)
                = method_keys (own_keys (st_heap s) q)) as Hsame.
    { intros q Hq. rewrite Forall_forall in Hall.
      destruct (Hall q Hq) as (l & o & -> & Hl).
      destruct (Hkept' l o Hl) as (o' & Hl' & Hkeys).
      split; [eauto|]. unfold own_keys. simpl. by rewrite Hl, Hl'. }
    assert (Forall (λ q, ∃ l o, q = VRef l ∧ st_heap s1' !! l = Some (Obj o)) infos)
      as Hall1.
    { apply Forall_forall. intros q Hq. apply Hsame. by apply list_elem_of_further. }
    rewrite (IH s1' (acc ++ more) ops s' Hwf1 Hall1 Hrun).
    rewrite length_app, fmap_cons. simpl.
    rewrite <-(Forall2_length _ _ _ Hops).
    assert ((λ q, length (method_keys (own_keys (st_heap s1') q))) <$> infos
            = (λ q, length (method_keys (own_keys (st_heap s) q))) <$> infos) as ->.
    { apply list_fmap_ext. intros i q Hq. f_equal. apply Hsame.
      apply list_elem_of_further. by eapply list_elem_of_lookup_2. }
    lia.
Qed.

(** X24: the number of operations.  When [getAllOperations] returns, it
    returns as many descriptors as there are pairs of a path of the
    document and an HTTP method for which the path item has a field. *)
Theorem getAllOperations_count fuel spec s ops s' :
  cache_wf s →
  let h := st_heap s in
  Forall (λ path, val_closed h (path_item h spec path)) (path_keys h spec) →
  getAllOperations fuel spec s = Ok ops s' →
  length ops =
    sum_list ((λ path, length (filter (λ m, m ∈ own_keys h (path_item h spec path))
                                 HTTP_METHODS))
                <$> path_keys h spec).
Proof.
  intros Hwf h Hclosed Hrun. subst h. unfold getAllOperations in Hrun.
  apply bind_Ok in Hrun as (addrs & s0 & Hpaths & Hrun).
  assert (nullish spec = false) as Hspec.
  { destruct (nullish spec) eqn:Hnull; [|done].
    unfold getPaths, bind, lift, get_member in Hpaths. by rewrite Hnull in Hpaths. }
  destruct (getPaths_run spec s Hspec Hclosed) as (infos & Hpaths' & Hinfos).
  rewrite Hpaths' in Hpaths. injection Hpaths as <- <-.
  rewrite (Forall2_length _ _ _ Hinfos) in Hrun.
  apply getAllOperations_loop in Hrun; cycle 1.
  { intros l Hl. simpl in *. rewrite length_app. apply Hwf in Hl. lia. }
  { apply fresh_objects_lookup. }
  rewrite Hrun. simpl.
  rewrite (own_keys_fresh_objects (λ ks, length (method_keys ks)) infos (st_heap s)).
  f_equal. clear Hrun Hclosed Hpaths'.
  induction Hinfos as [|path info keys infos Hinfo _ IH]; [done|].
  rewrite !fmap_cons. f_equal; [|done]. by eapply path_info_methods.
Qed.

Lemma users_doc_paths_closed :
  Forall (λ path, val_closed users_doc (path_item users_doc (VRef 7) path))
    (path_keys users_doc (VRef 7)).
Proof.
  apply Forall_forall. intros path Hpath a Ha.
  vm_compute in Hpath. apply elem_of_cons in Hpath as [->|Hpath];
    [|by apply elem_of_nil in Hpath].
  vm_compute in Ha. injection Ha as <-. simpl. lia.
Qed.

Lemma getAllOperations_count_witness :
  ∃ ops s',
    getAllOperations 6 (VRef 7) (State users_doc ∅) = Ok ops s' ∧
    length ops = 1.
Proof.
  run_as Hrun (getAllOperations 6 (VRef 7) (State users_doc ∅)).
  eexists _, _. split; [exact Hrun|].
  pose proof (getAllOperations_count 6 (VRef 7) (State users_doc ∅) _ _
                (cache_wf_empty _) users_doc_paths_closed Hrun) as Hcount.
  vm_compute in Hcount. vm_compute. exact Hcount.
Defined.

(** X25: a document without paths has no operation.  When [spec.paths]
    is falsy, or has no key, [getAllOperations] returns the empty list and
    leaves the store and the memo as they are. *)
Theorem getAllOperations_no_paths fuel spec s :
  nullish spec = false → path_keys (st_heap s) spec = [] →
  getAllOperations fuel spec s = Ok [] s.
Proof.
  intros Hspec Hkeys. unfold getAllOperations.
  assert (getPaths spec s = Ok [] s) as Hpaths.
  { unfold getPaths, path_keys in *.
    unfold bind, lift, get_member. simpl. by rewrite Hspec, Hkeys. }
  by rewrite (bind_run _ _ _ _ Hpaths).
Qed.

Lemma getAllOperations_no_paths_witness :
  getAllOperations 0 (VRef 0) (State [Obj [("swagger", VStr "2.0")]] ∅)
    = Ok [] (State [Obj [("swagger", VStr "2.0")]] ∅).
Proof. apply getAllOperations_no_paths; reflexivity. Defined.

(** ** The schemas in a descriptor *)

(** X26: the two schema tables of a descriptor are those of the resolved
    operation.  Unless the operation node or the path-level extensions
    have an own field of that name, [paramGroupSchemas] is what
    [createParamGroupSchemas] returns for the operation's [parameters], and
    [responseSchemas] what [createResponseSchemas] returns for its
    [responses], both read after the defaults were put in. *)
Theorem createPathOperation_schemas fuel method pathInfo pathsXProps spec s d s' :
  createPathOperation fuel method pathInfo pathsXProps spec s = Ok d s' →
  ∃ raw operationInfo s1 groups responses,
    get_member (st_heap s) pathInfo method = inr raw ∧
    resolveRefs fuel spec raw s = Ok operationInfo s1 ∧
    createParamGroupSchemas (st_heap s')
      (get_prop (st_heap s') operationInfo "parameters") = inr groups ∧
    createResponseSchemas (st_heap s')
      (get_prop (st_heap s') operationInfo "responses") = inr responses ∧
    ∀ k v,
      (k, v) ∈ [("paramGroupSchemas", DParamGroups groups);
                ("responseSchemas", DResponses responses)] →
      k ∉ own_keys (st_heap s') operationInfo →
      k ∉ own_keys (st_heap s') pathsXProps →
      obj_get k d = Some v.
Proof.
  intros Hrun.
  apply createPathOperation_Ok in Hrun
    as (raw & operationInfo & s1 & Hraw & Hres & Hbuild).
  apply build_operation_fields in Hbuild as (computed & Hcomp & Hd).
  apply operation_fields_inr in Hcomp
    as (_ & _ & _ & (groups & Hg & Hgroups) & (responses & Hr & Hresponses)).
  exists raw, operationInfo, s1, groups, responses. split_and!; [done..|].
  intros k v Hkv Hop Hx.
  rewrite Hd, (decide_False (P := k ∈ own_keys _ operationInfo)),
    (decide_False (P := k ∈ own_keys _ pathsXProps)) by done.
  repeat (apply elem_of_cons in Hkv as [[= -> ->]|Hkv];
          [by rewrite decide_False by done|]).
  by apply elem_of_nil in Hkv.
Qed.

Lemma createPathOperation_schemas_witness :
  ∃ d s',
    createPathOperation 6 "get" (VRef 12) (VRef 13) (VRef 7) (State users_doc ∅)
      = Ok d s' ∧
    ∃ groups responses,
      createParamGroupSchemas (st_heap s')
        (get_prop (st_heap s') (VRef 11) "parameters") = inr groups ∧
      createResponseSchemas (st_heap s')
        (get_prop (st_heap s') (VRef 11) "responses") = inr responses ∧
      obj_get "paramGroupSchemas" d = Some (DParamGroups groups) ∧
      obj_get "responseSchemas" d = Some (DResponses responses).
Proof.
  run_as Hrun
    (createPathOperation 6 "get" (VRef 12) (VRef 13) (VRef 7) (State users_doc ∅)).
  eexists _, _. split; [exact Hrun|].
  destruct (createPathOperation_schemas _ _ _ _ _ _ _ _ Hrun)
    as (raw & operationInfo & s1 & groups & responses & Hraw & Hres & Hg & Hr & Hfields).
  injection Hraw as <-.
  assert (operationInfo = VRef 11) as ->.
  { vm_compute in Hres. by injection Hres. }
  exists groups, responses. split_and!; [exact Hg|exact Hr| |].
  - apply Hfields; [apply list_elem_of_here|not_a_key..].
  - apply Hfields; [apply list_elem_of_further, list_elem_of_here|not_a_key..].
Defined.

(** ** Termination of [getAllOperations] *)

Lemma fuel_bounded_bind {A B} (m : nat → M A) (k : nat → A → M B) :
  fuel_bounded m → (∀ a, fuel_bounded (λ fuel, k fuel a)) →
  fuel_bounded (λ fuel, bind (m fuel) (k fuel)).
Proof.
  intros (Hmono & Hterm & Hwf) Hk. split_and!.
  - intros s fuel fuel' Hle Hs. unfold bind in *.
    destruct (m fuel s) as [a s1| |] eqn:Hm; [| |by destruct Hs].
    + rewrite (Hmono s fuel fuel' Hle) by (by rewrite Hm). rewrite Hm.
      by apply (Hk a).
    + rewrite (Hmono s fuel fuel' Hle) by (by rewrite Hm). by rewrite Hm.
  - intros s Hs. destruct (Hterm s Hs) as [f1 Hf1].
    destruct (m f1 s) as [a s1| |] eqn:Hm; [| |by destruct Hf1].
    + destruct (Hk a) as (Hkmono & Hkterm & _).
      destruct (Hkterm s1) as [f2 Hf2]; [by eapply Hwf|].
      exists (f1 `max` f2). unfold bind.
      rewrite (Hmono s f1 (f1 `max` f2)) by (lia || by rewrite Hm). rewrite Hm.
      rewrite (Hkmono s1 f2 (f1 `max` f2)) by (lia || done). done.
    + exists f1. unfold bind. by rewrite Hm.
  - intros s fuel b s' Hs Hrun. apply bind_Ok in Hrun as (a & s1 & Hm & Hrun).
    destruct (Hk a) as (_ & _ & Hkwf). eapply Hkwf; [|done]. by eapply Hwf.
Qed.

Lemma fuel_bounded_const {A} (m : M A) :
  (∀ s, settled (m s)) → (∀ s a s', state_wf s → m s = Ok a s' → state_wf s') →
  fuel_bounded (λ _, m).
Proof. intros Hs Hwf. split_and!; eauto. intros s _. by exists 0. Qed.

Lemma fuel_bounded_ret {A} (a : A) : fuel_bounded (λ _, ret a).
Proof. apply fuel_bounded_const; [done|]. by intros s a' s' Hs [= _ <-]. Qed.

Lemma fuel_bounded_lift {A} (f : list hobj → error + A) : fuel_bounded (λ _, lift f).
Proof.
  apply fuel_bounded_const.
  - intros s. unfold lift. by destruct (f (st_heap s)).
  - intros s a s' Hs. unfold lift. destruct (f (st_heap s)); [done|].
    by intros [= _ <-].
Qed.

Lemma fuel_bounded_mapM {A B} (f : nat → A → M B) xs :
  (∀ x, fuel_bounded (λ fuel, f fuel x)) →
  fuel_bounded (λ fuel, mapM (f fuel) xs).
Proof.
  intros Hf. induction xs as [|x xs IH]; simpl; [apply fuel_bounded_ret|].
  apply (fuel_bounded_bind (λ fuel, f fuel x)); [done|]. intros y.
  apply (fuel_bounded_bind (λ fuel, mapM (f fuel) xs)); [done|]. intros ys.
  apply fuel_bounded_ret.
Qed.

Lemma fuel_bounded_foldM {A B} (f : nat → B → A → M B) xs :
  (∀ acc x, fuel_bounded (λ fuel, f fuel acc x)) →
  ∀ acc, fuel_bounded (λ fuel, foldM (f fuel) acc xs).
Proof.
  intros Hf. induction xs as [|x xs IH]; intros acc; simpl;
    [apply fuel_bounded_ret|].
  apply (fuel_bounded_bind (λ fuel, f fuel acc x)); [done|]. intros acc'. apply IH.
Qed.

Lemma state_wf_alloc s x :
  state_wf s → (∀ vs, x = Arr vs → vs = []) → state_wf (alloc_state s x).
Proof.
  intros [Hc Hfin] Hx. split.
  - intros l Hl. simpl in *. rewrite length_app. apply Hc in Hl. lia.
  - simpl. apply (arrays_finite_ext (st_heap s)); [done|apply heap_ext_app|].
    intros l vs Hl. apply lookup_app_Some in Hl as [Hl|[_ Hl]]; [by left|].
    right. destruct (l - length (st_heap s)) as [|n]; [|done].
    injection Hl as ->. rewrite (Hx vs eq_refl). by intros v ?%elem_of_nil.
Qed.

Lemma state_wf_write s l o o' :
  state_wf s → st_heap s !! l = Some (Obj o) → state_wf (write_state s l o').
Proof.
  intros [Hc Hfin] Hl. split.
  - intros l1 Hl1. simpl in *. rewrite length_insert. by apply Hc.
  - simpl. apply (heap_ext_arrays_only (st_heap s)); [by eapply heap_ext_write| |done].
    intros l1 vs Hl1. destruct (decide (l1 = l)) as [->|Hne].
    + rewrite list_lookup_insert_eq in Hl1 by (by eapply lookup_lt_Some). done.
    + by rewrite list_lookup_insert_ne in Hl1.
Qed.

Lemma fuel_bounded_default_field node k fresh :
  k ≠ "length" → array_index k = None → (∀ vs, fresh = Arr vs → vs = []) →
  fuel_bounded (λ _, default_field node k fresh).
Proof.
  intros Hlen Hidx Hfresh. apply fuel_bounded_const.
  - intros s. unfold default_field. destruct (nullish node); [done|].
    destruct (truthy _); [done|]. destruct node; try done.
    by destruct (st_heap s !! l) as [[o|vs]|].
  - intros s [] s' Hs Hrun.
    apply default_field_Ok in Hrun as (l & o & -> & Hl & Hc & Hcases); [|done..].
    destruct Hcases as [[_ ->]|[_ Hh]]; [done|].
    assert (s' = write_state (alloc_state s fresh) l
                   (obj_set k (VRef (length (st_heap s))) o)) as ->.
    { destruct s'. simpl in *. by rewrite Hh, Hc. }
    eapply state_wf_write; [by apply state_wf_alloc|].
    simpl. by apply lookup_app_l_Some.
Qed.

Lemma fuel_bounded_resolveRefs spec v :
  fuel_bounded (λ fuel, resolveRefs fuel spec v).
Proof.
  split_and!.
  - intros s fuel fuel' Hle Hs. by apply resolveRefs_fuel_mono.
  - intros s Hs. by apply (terminates_below spec (pending s)).
  - intros s fuel v' s' Hs Hrun. by eapply resolveRefs_advances.
Qed.

Lemma fuel_bounded_createPathOperation method pathInfo pathsXProps spec :
  fuel_bounded (λ fuel, createPathOperation fuel method pathInfo pathsXProps spec).
Proof.
  unfold createPathOperation.
  apply (fuel_bounded_bind (λ _, _)).
  { apply fuel_bounded_const.
    - intros s. by destruct (get_member _ _ _).
    - intros s a s' Hs. destruct (get_member _ _ _); [done|]. by intros [= _ <-]. }
  intros raw. apply (fuel_bounded_bind (λ fuel, resolveRefs fuel spec raw)).
  { apply fuel_bounded_resolveRefs. }
  intros operationInfo. apply (fuel_bounded_bind (λ _, _)).
  { apply fuel_bounded_default_field; [done..|]. by intros vs [= <-]. }
  intros _. apply (fuel_bounded_bind (λ _, _)).
  { by apply fuel_bounded_default_field. }
  intros _. apply fuel_bounded_const.
  - intros s. by destruct (build_operation _ _ _ _ _ _).
  - intros s a s' Hs. destruct (build_operation _ _ _ _ _ _); [done|].
    by intros [= _ <-].
Qed.

Lemma fuel_bounded_alloc_obj o : fuel_bounded (λ _, alloc (Obj o)).
Proof.
  apply fuel_bounded_const; [done|].
  intros s a s' Hs [= _ <-]. by apply (state_wf_alloc s (Obj o)).
Qed.

Lemma fuel_bounded_getXProps data : fuel_bounded (λ _, getXProps data).
Proof.
  unfold getXProps.
  apply (fuel_bounded_bind (λ _, _)); [apply fuel_bounded_lift|]. intros keys.
  apply (fuel_bounded_bind (λ _, _)); [apply fuel_bounded_lift|]. intros xProps.
  apply (fuel_bounded_bind (λ _, _)); [apply fuel_bounded_alloc_obj|]. intros l.
  apply fuel_bounded_ret.
Qed.

Lemma fuel_bounded_getPaths spec : fuel_bounded (λ _, getPaths spec).
Proof.
  unfold getPaths.
  apply (fuel_bounded_bind (λ _, _)); [apply fuel_bounded_lift|]. intros paths.
  apply (fuel_bounded_bind (λ _, _)); [apply fuel_bounded_lift|]. intros keys.
  apply (fuel_bounded_mapM (λ _, _)). intros path.
  apply (fuel_bounded_bind (λ _, _)); [apply fuel_bounded_lift|]. intros item.
  apply (fuel_bounded_bind (λ _, _)); [apply fuel_bounded_lift|]. intros pathInfo.
  apply (fuel_bounded_bind (λ _, _)); [apply fuel_bounded_alloc_obj|]. intros l.
  apply fuel_bounded_ret.
Qed.

Lemma fuel_bounded_getPathOperations pathInfo spec :
  fuel_bounded (λ fuel, getPathOperations fuel pathInfo spec).
Proof.
  unfold getPathOperations.
  apply (fuel_bounded_bind (λ _, _)); [apply fuel_bounded_getXProps|]. intros xProps.
  apply (fuel_bounded_bind (λ _, _)); [apply fuel_bounded_lift|]. intros keys.
  apply (fuel_bounded_mapM
           (λ fuel method, createPathOperation fuel method pathInfo xProps spec)).
  intros method. apply fuel_bounded_createPathOperation.
Qed.

Lemma fuel_bounded_getAllOperations spec :
  fuel_bounded (λ fuel, getAllOperations fuel spec).
Proof.
  unfold getAllOperations.
  apply (fuel_bounded_bind (λ _, _)); [apply fuel_bounded_getPaths|]. intros paths.
  apply (fuel_bounded_foldM
           (λ fuel ops pathInfo,
              let! more := getPathOperations fuel pathInfo spec in ret (ops ++ more))).
  intros ops pathInfo.
  apply (fuel_bounded_bind (λ fuel, getPathOperations fuel pathInfo spec));
    [apply fuel_bounded_getPathOperations|].
  intros more. apply fuel_bounded_ret.
Qed.

(** X27: [getAllOperations] terminates.  On a store in which no array
    contains itself through arrays alone, and whose memo holds only
    objects of the store, some amount of fuel lets [getAllOperations]
    return or throw, more fuel gives the same outcome, and the store it
    returns with is of the same kind; references that form cycles through
    objects are no obstacle. *)
Theorem getAllOperations_terminates spec s :
  state_wf s →
  ∃ fuel r,
    settled r ∧
    (∀ fuel', fuel ≤ fuel' → getAllOperations fuel' spec s = r) ∧
    (∀ ops s', r = Ok ops s' → state_wf s').
Proof.
  intros Hs. destruct (fuel_bounded_getAllOperations spec) as (Hmono & Hterm & Hwf).
  destruct (Hterm s Hs) as [fuel Hfuel].
  exists fuel, (getAllOperations fuel spec s). split_and!; [done| |].
  - intros fuel' Hle. by apply Hmono.
  - intros ops s' Hrun. by eapply Hwf.
Qed.

Lemma users_doc_wf : state_wf (State users_doc ∅).
Proof.
  split; [apply cache_wf_empty|]. intros l vs Hl. simpl in Hl.
  do 15 (destruct l as [|l];
         [simpl in Hl; try discriminate; injection Hl as <-;
          (eapply array_finite_arr; [reflexivity|]); intros v Hv;
          repeat (apply elem_of_cons in Hv as [->|Hv];
                  [first [by apply array_finite_prim|by eapply array_finite_obj]|]);
          by apply elem_of_nil in Hv|]).
  done.
Qed.

Lemma getAllOperations_terminates_witness :
  ∃ fuel r,
    settled r ∧
    (∀ fuel', fuel ≤ fuel' →
       getAllOperations fuel' (VRef 7) (State users_doc ∅) = r) ∧
    (∀ ops s', r = Ok ops s' → state_wf s').
Proof. exact (getAllOperations_terminates (VRef 7) (State users_doc ∅) users_doc_wf). Defined.

(** ** Private objects, closed stores and the origin of descriptors *)

(** ** Private objects are out of reach of [resolveRefs] *)

Lemma get_prop_unreferenced n h v k : unreferenced n h → get_prop h v k ≠ VRef n.
Proof.
  intros Hun. destruct v as [| | | |str|l]; simpl; try done.
  - destruct (decide _); [done|]. destruct (array_index k); [|done].
    by destruct (String.get _ _).
  - destruct (h !! l) as [[o|vs]|] eqn:Hl; [| |done].
    + specialize (Hun l _ Hl). simpl in Hun.
      destruct (obj_get k o) as [v|] eqn:Hk; [|done]. simpl. intros ->.
      by apply (Hun k).
    + specialize (Hun l _ Hl). simpl in Hun.
      destruct (decide _); [done|]. destruct (array_index k) as [i|]; [|done].
      destruct (vs !! N.to_nat i) as [v|] eqn:Hi; [|done]. simpl. intros ->.
      apply Hun. by eapply list_elem_of_lookup_2.
Qed.

Lemma walk_unreferenced n h parts :
  unreferenced n h → ∀ v w, v ≠ VRef n → walk h v parts = inr w → w ≠ VRef n.
Proof.
  intros Hun. induction parts as [|p parts IH]; intros v w Hv; simpl.
  - by intros [= <-].
  - destruct (nullish v); [done|]. destruct (truthy _); [|done].
    apply IH. by apply get_prop_unreferenced.
Qed.

Lemma resolveRef_unreferenced n h r spec target :
  unreferenced n h → spec ≠ VRef n → resolveRef r spec h = inr target →
  target ≠ VRef n.
Proof.
  intros Hun Hspec. unfold resolveRef.
  destruct (split_on "/"%char r) as [|first parts]; [done|].
  destruct (decide _); [|done]. by apply walk_unreferenced.
Qed.

Lemma unreferenced_app n h x :
  unreferenced n h →
  match x with
  | Obj o => ∀ k, obj_get k o ≠ Some (VRef n)
  | Arr vs => VRef n ∉ vs
  end →
  unreferenced n (h ++ [x]).
Proof.
  intros Hun Hx l y Hl. apply lookup_app_Some in Hl as [Hl|[_ Hl]]; [by eapply Hun|].
  destruct (l - length h) as [|i]; [|done]. by injection Hl as <-.
Qed.

Lemma unreferenced_insert n h l o :
  unreferenced n h → (∀ k, obj_get k o ≠ Some (VRef n)) →
  unreferenced n (<[l := Obj o]> h).
Proof.
  intros Hun Ho l' y Hl. destruct (decide (l' = l)) as [->|Hne].
  - apply list_lookup_insert_Some in Hl as [(_ & <- & _)|[? _]]; done.
  - rewrite list_lookup_insert_ne in Hl by done. by eapply Hun.
Qed.

Lemma keeps_private_refl n s : private n s → keeps_private n s s.
Proof. by split. Qed.

Lemma keeps_private_trans n s1 s2 s3 :
  keeps_private n s1 s2 → keeps_private n s2 s3 → keeps_private n s1 s3.
Proof. intros [_ H12] [Hp H23]. split; [done|congruence]. Qed.

(** Writing a value other than the private address into another object. *)
Lemma keeps_private_write n s l o k v :
  private n s → l ≠ n → st_heap s !! l = Some (Obj o) → v ≠ VRef n →
  keeps_private n s (write_state s l (obj_set k v o)).
Proof.
  intros (Hlt & Hc & Hun) Hl Ho Hv. split; [split_and!|]; simpl.
  - by rewrite length_insert.
  - done.
  - apply unreferenced_insert; [done|]. intros k'. rewrite obj_get_set.
    destruct (decide (k' = k)); [congruence|]. by apply (Hun l _ Ho).
  - by rewrite list_lookup_insert_ne.
Qed.

Lemma keeps_private_alloc n s x :
  private n s →
  match x with
  | Obj o => ∀ k, obj_get k o ≠ Some (VRef n)
  | Arr vs => VRef n ∉ vs
  end →
  keeps_private n s (alloc_state s x).
Proof.
  intros (Hlt & Hc & Hun) Hx. split; [split_and!|]; simpl.
  - rewrite length_app. lia.
  - done.
  - by apply unreferenced_app.
  - by rewrite lookup_app_l.
Qed.

Lemma keeps_private_visit n s l :
  private n s → l ≠ n → keeps_private n s (visit_state s l).
Proof.
  intros (Hlt & Hc & Hun) Hl. split; [split_and!|]; simpl; [done| |done..].
  set_solver.
Qed.

Lemma keeps_private_merge n s l o target :
  private n s → l ≠ n → st_heap s !! l = Some (Obj o) → target ≠ VRef n →
  keeps_private n s (merge_state s l o target).
Proof.
  intros (Hlt & Hc & Hun) Hl Ho Htarget.
  assert (unreferenced n (<[l := Obj (obj_delete "$ref" o)]> (st_heap s))) as Hun1.
  { apply unreferenced_insert; [done|]. intros k. rewrite obj_get_delete.
    destruct (decide _); [done|]. by apply (Hun l _ Ho). }
  split; [split_and!|]; simpl.
  - rewrite length_app, length_insert. lia.
  - intros [Hin%elem_of_singleton|Hin]%elem_of_union; [lia|done].
  - apply unreferenced_app; [done|]. intros k. unfold merged_node.
    rewrite !obj_get_assign.
    destruct (decide _) as [_|_].
    { intros Heq. apply (get_prop_unreferenced n _ (VRef l) k Hun1).
      unfold id in Heq. congruence. }
    destruct (decide _) as [_|_]; [|done].
    intros Heq. apply (get_prop_unreferenced n _ target k Hun1).
    unfold id in Heq. congruence.
  - rewrite lookup_app_l by (by rewrite length_insert).
    by rewrite list_lookup_insert_ne.
Qed.

Lemma mapM_private n (f : val → M val) vs :
  (∀ v s v' s', private n s → v ≠ VRef n → f v s = Ok v' s' →
     keeps_private n s s' ∧ v' ≠ VRef n) →
  ∀ s vs' s', private n s → VRef n ∉ vs → mapM f vs s = Ok vs' s' →
    keeps_private n s s' ∧ VRef n ∉ vs'.
Proof.
  intros Hf. induction vs as [|v vs IH]; intros s vs' s' Hp Hvs Hrun; simpl in Hrun.
  - injection Hrun as <- <-. split; [by apply keeps_private_refl|].
    by intros ?%elem_of_nil.
  - apply bind_Ok in Hrun as (v' & s1 & Hv & Hrun).
    apply bind_Ok in Hrun as (vs1 & s2 & Hvs1 & Hrun).
    injection Hrun as <- <-.
    apply not_elem_of_cons in Hvs as [Hne Hvs].
    destruct (Hf _ _ _ _ Hp (not_eq_sym Hne) Hv) as [Hk1 Hv'].
    destruct (IH _ _ _ (proj1 Hk1) Hvs Hvs1) as [Hk2 Hvs'].
    split; [by eapply keeps_private_trans|].
    apply not_elem_of_cons. split; [congruence|done].
Qed.

Lemma resolve_fields_private n (f : val → M val) l ks :
  (∀ v s v' s', private n s → v ≠ VRef n → f v s = Ok v' s' →
     keeps_private n s s' ∧ v' ≠ VRef n) →
  l ≠ n →
  ∀ s u s', private n s → resolve_fields f l ks s = Ok u s' → keeps_private n s s'.
Proof.
  intros Hf Hl. induction ks as [|k ks IH]; intros s u s' Hp Hrun; simpl in Hrun.
  - injection Hrun as <- <-. by apply keeps_private_refl.
  - apply bind_Ok in Hrun as (o & s0 & Ho & Hrun).
    apply load_obj_Ok in Ho as [Ho ->].
    apply bind_Ok in Hrun as (v' & s1 & Hv & Hrun).
    apply bind_Ok in Hrun as (o' & s1' & Ho' & Hrun).
    apply load_obj_Ok in Ho' as [Ho' ->].
    apply bind_Ok in Hrun as ([] & s2 & Hst & Hrun).
    injection Hst as <-.
    assert (default VUndef (obj_get k o) ≠ VRef n) as Hread.
    { destruct Hp as (_ & _ & Hun). specialize (Hun l _ Ho). simpl in Hun.
      destruct (obj_get k o) as [v|] eqn:Hk; [|done]. simpl. intros ->.
      by apply (Hun k). }
    destruct (Hf _ _ _ _ Hp Hread Hv) as [Hk1 Hv'].
    pose proof (keeps_private_write n s1 l o' k v' (proj1 Hk1) Hl Ho' Hv') as Hk2.
    pose proof (IH _ _ _ (proj1 Hk2) Hrun) as Hk3.
    eapply keeps_private_trans; [done|]. by eapply keeps_private_trans.
Qed.

(** [resolveRefs] never reaches a private object, whatever else it is
    given: the object stays as it is and stays private, and it is not what
    the call returns. *)
Lemma resolveRefs_private n fuel spec :
  spec ≠ VRef n →
  ∀ v s v' s', private n s → v ≠ VRef n → resolveRefs fuel spec v s = Ok v' s' →
    keeps_private n s s' ∧ v' ≠ VRef n.
Proof.
  intros Hspec. induction fuel as [|fuel IH]; intros v s v' s' Hp Hv Hrun; [done|].
  destruct (resolveRefs_shape spec v s)
    as [Hret|e Hthrow|l vs -> Hc Hl|l o -> Hc Hl Hno|l o r target -> Hc Hl Hget Hr Hres].
  - rewrite Hret in Hrun. injection Hrun as <- <-.
    split; [by apply keeps_private_refl|done].
  - by rewrite Hthrow in Hrun.
  - rewrite (resolveRefs_array _ _ _ _ _ Hc Hl) in Hrun.
    destruct (mapM _ _ _) as [vs' s1| |] eqn:Hmap; [|done..].
    injection Hrun as <- <-.
    assert (VRef n ∉ vs) as Hvs.
    { destruct Hp as (_ & _ & Hun). by apply (Hun l _ Hl). }
    destruct (mapM_private n _ _ IH _ _ _ Hp Hvs Hmap) as [Hk1 Hvs'].
    split.
    + eapply keeps_private_trans; [done|].
      apply keeps_private_alloc; [apply Hk1|done].
    + destruct Hk1 as [(Hlt & _) _]. intros [= Heq]. lia.
  - rewrite (resolveRefs_visit _ _ _ _ _ Hc Hl Hno) in Hrun.
    destruct (resolve_fields _ _ _ _) as [u s1| |] eqn:Hloop; [|done..].
    injection Hrun as <- <-.
    assert (l ≠ n) as Hne by congruence.
    pose proof (keeps_private_visit n s l Hp Hne) as Hk1.
    pose proof (resolve_fields_private n _ l _ IH Hne _ _ _ (proj1 Hk1) Hloop) as Hk2.
    split; [exact (keeps_private_trans _ _ _ _ Hk1 Hk2)|done].
  - rewrite (resolveRefs_merge _ _ _ _ _ _ _ Hc Hl Hget Hr Hres) in Hrun.
    destruct (resolve_fields _ _ _ _) as [u s1| |] eqn:Hloop; [|done..].
    injection Hrun as <- <-.
    assert (l ≠ n) as Hne by congruence.
    assert (target ≠ VRef n) as Htarget.
    { destruct Hp as (_ & _ & Hun).
      exact (resolveRef_unreferenced n _ r spec target Hun Hspec Hres). }
    pose proof (keeps_private_merge n s l o target Hp Hne Hl Htarget) as Hk1.
    assert (length (st_heap s) ≠ n) as Hm by (destruct Hp as (? & _); lia).
    pose proof (resolve_fields_private n _ _ _ IH Hm _ _ _ (proj1 Hk1) Hloop) as Hk2.
    split; [exact (keeps_private_trans _ _ _ _ Hk1 Hk2)|].
    intros [= Heq]. done.
Qed.
(** ** Extensions of the path item in the descriptors *)

Lemma val_closedb_correct h v : val_closedb h v = true → val_closed h v.
Proof. intros Hv l ->. simpl in Hv. by apply Nat.ltb_lt. Qed.

Lemma heap_closedb_correct h : heap_closedb h = true → heap_closed h.
Proof.
  unfold heap_closedb. rewrite forallb_forall. intros Hall l x Hl.
  assert (In x h) as Hin by (apply list_elem_of_In; by eapply list_elem_of_lookup_2).
  specialize (Hall x Hin). destruct x as [o|vs].
  - rewrite forallb_forall in Hall. intros k v Hget.
    apply val_closedb_correct, (Hall (k, v)), list_elem_of_In.
    by apply obj_get_Some_elem.
  - rewrite forallb_forall in Hall. intros v Hv.
    by apply val_closedb_correct, Hall, list_elem_of_In.
Qed.


(** In a closed store nothing refers to the next address. *)
Lemma heap_closed_unreferenced h : heap_closed h → unreferenced (length h) h.
Proof.
  intros Hcl l x Hl. specialize (Hcl l x Hl). destruct x as [o|vs].
  - intros k Hk. specialize (Hcl k _ Hk (length h) eq_refl). lia.
  - intros Hin. specialize (Hcl _ Hin (length h) eq_refl). lia.
Qed.






Lemma users_doc_closed : heap_closed users_doc.
Proof. by apply heap_closedb_correct. Qed.

(** ** Closed stores stay closed *)








(** ** Where a descriptor comes from *)











(** X30: an object nothing refers to is out of reach of [resolveRefs].
    When no field or element of the store holds the address [n], and
    neither the document nor the value to resolve is [n], a successful
    resolution leaves the object at [n] as it was, stores its address
    nowhere and does not return it. *)
Theorem resolveRefs_out_of_reach n fuel spec v s v' s' :
  private n s → spec ≠ VRef n → v ≠ VRef n →
  resolveRefs fuel spec v s = Ok v' s' →
  st_heap s' !! n = st_heap s !! n ∧
  unreferenced n (st_heap s') ∧ (n ∉ st_cache s') ∧ v' ≠ VRef n.
Proof.
  intros Hp Hspec Hv Hrun.
  destruct (resolveRefs_private n fuel spec Hspec v s v' s' Hp Hv Hrun)
    as [[(_ & Hc & Hun) Hn] Hv'].
  done.
Qed.

Lemma resolveRefs_out_of_reach_witness :
  let s := State (users_doc ++ [Obj [("draft", VStr "mine")]]) ∅ in
  ∃ v' s',
    resolveRefs 12 (VRef 7) (VRef 7) s = Ok v' s' ∧
    st_heap s' !! 15 = Some (Obj [("draft", VStr "mine")]) ∧
    unreferenced 15 (st_heap s') ∧ (15 ∉ st_cache s') ∧ v' ≠ VRef 15.
Proof.
  intros s.
  assert (private 15 s) as Hp.
  { split_and!; [simpl; lia|apply not_elem_of_empty|].
    apply (unreferenced_app 15 users_doc);
      [exact (heap_closed_unreferenced users_doc users_doc_closed)|].
    intros k. simpl. destruct (decide _); discriminate. }
  assert (VRef 7 ≠ VRef 15) as Hne by discriminate.
  subst s.
  run_as Hrun (resolveRefs 12 (VRef 7) (VRef 7)
                 (State (users_doc ++ [Obj [("draft", VStr "mine")]]) ∅)).
  eexists _, _. split; [exact Hrun|].
  exact (resolveRefs_out_of_reach 15 12 (VRef 7) (VRef 7) _ _ _ Hp Hne Hne Hrun).
Defined.
